(** * go-invoice-frontend: the API client's token refresh, login and the invoice form

    A shallow embedding of
    - [src/utils/api.ts]: the response interceptor of [ApiService] (bearer
      token refresh with a queue of waiters), [processQueue], [logout] and
      [isAuthenticated];
    - [src/context/AuthContext.tsx]: [AuthProvider.login];
    - [components/InvoiceForm.tsx] and the initial state of
      [pages/CreateInvoicePage.tsx]: the handlers that edit the form data.

    JavaScript runs one task to completion: a callback and the promise
    reactions it schedules finish before the next network callback starts.
    The interceptor is therefore modelled as state transformers over the
    fields of [ApiService] and [localStorage], one per synchronous stretch of
    the source, and a log records what each of them does to its
    surroundings. *)

From Stdlib Require Import ZArith String List Bool Lia.
From Stdlib Require Import Floats.
From stdpp Require Import base option list gmap strings.

Local Open Scope string_scope.
Local Open Scope Z_scope.

(** ** JavaScript conventions used by the sources *)

Module Js.

(** [if (v)] on a value of type [string | null | undefined]. *)
Definition truthy (v : option string) : bool :=
  match v with
  | Some s => negb (String.eqb s "")
  | None => false
  end.

(** [hay.includes(needle)]. *)
Fixpoint includes (hay needle : string) : bool :=
  if String.prefix needle hay then true
  else match hay with
       | EmptyString => false
       | String _ rest => includes rest needle
       end.

(** [`${v}`] for [v : string | undefined]. *)
Definition template_undefined (v : option string) : string :=
  match v with Some s => s | None => "undefined" end.

(** [`${v}`] for [v : string | null], the type of [localStorage.getItem]. *)
Definition template_null (v : option string) : string :=
  match v with Some s => s | None => "null" end.

(** [`Bearer ${t}`]. *)
Definition bearer (t : string) : string := "Bearer " +:+ t.

End Js.

(** ** [src/utils/api.ts] *)

Module Api.

(** The axios request config, as far as the interceptors read or write it. *)
Record Request := mkRequest {
  url : option string;
  _retry : bool;
  Authorization : option string;
}.

Definition with_retry (r : Request) : Request :=
  {| url := url r; _retry := true; Authorization := Authorization r |}.

Definition with_Authorization (h : string) (r : Request) : Request :=
  {| url := url r; _retry := _retry r; Authorization := Some h |}.

(** [error.response.data] of a failed call, as [AuthContext.login] reads
    it: a value with a [data] member that may have a [can_restore]
    member. The cast of line 75 checks nothing when the code runs, so the
    [body] of a response may also be [null] ([None]), the body an HTTP
    response has when its JSON text is [null]. *)
Record ErrorPayload := mkErrorPayload { can_restore : option bool }.
Record ErrorBody := mkErrorBody { data : option ErrorPayload }.
Record Response := mkResponse { status : Z; body : option ErrorBody }.

(** An axios error: [response] is absent for transport failures. *)
Record AxiosError := mkAxiosError {
  response : option Response;
  config : Request;
}.

(** Values a promise of this client rejects with. *)
Inductive Err :=
| AxiosErr (e : AxiosError)
| NewError (message : string)      (* [new Error(message)] *)
| TypeErr                          (* raised by the engine on [null.data] *)
| NonError (v : string).           (* a thrown value that is no [Error] *)

Definition instanceof_Error (e : Err) : bool :=
  match e with
  | NonError _ => false
  | _ => true
  end.

(** [response.data] of the refresh call. [BodyEnvelope t] is a body whose
    [data] member is truthy and carries [access_token = t]; [BodyFlat t] a
    body whose [data] member is falsy, with [access_token = t] at top
    level; [None] is a member that is missing. *)
Inductive RefreshBody :=
| BodyNull
| BodyEnvelope (access_token : option string)
| BodyFlat (access_token : option string).

Inductive RefreshResult :=
| Fulfilled (b : RefreshBody)
| RejectedWith (e : Err).

(** What a handler does to its surroundings, in program order: writes of
    the flag, calls on storage, the location, the network and promises. *)
Inductive Effect :=
| SetRefreshing (b : bool)                (* [this.isRefreshing = b] *)
| PostRefresh (endpoint refresh_token : string)  (* [axios.post(...)] *)
| SetItem (k v : string)                  (* [localStorage.setItem] *)
| RemoveItem (k : string)                 (* [localStorage.removeItem] *)
| Navigate (href : string)                (* [window.location.href = href] *)
| ResolveWaiter (w : Request)             (* a waiter's [resolve()] *)
| RejectWaiter (w : Request) (e : Err)    (* a waiter's [reject(e)] *)
| Replay (r : Request)                    (* [this.api(r)] *)
| Reject (r : Request) (e : Err).         (* [return Promise.reject(e)] *)

(** The fields of [ApiService], [localStorage], and the scheduler's view of
    the handlers: [parked] are the handlers suspended at
    [await axios.post(...)], each with its [originalRequest];
    [microtasks] are the waiters whose [resolve()] was called and whose
    [then] callback has not run yet. A waiter [{resolve, reject}] is
    identified with the [originalRequest] its closure holds. *)
Record ApiState := mkApiState {
  baseURL : string;
  isRefreshing : bool;
  failedQueue : list Request;
  localStorage : gmap string string;
  parked : list Request;
  microtasks : list Request;
  log : list Effect;
}.

Definition init (base : string) (ls : gmap string string) : ApiState :=
  {| baseURL := base; isRefreshing := false; failedQueue := [];
     localStorage := ls; parked := []; microtasks := []; log := [] |}.

(** *** A state monad over [ApiState] *)

Definition M (A : Type) : Type := ApiState → A * ApiState.

#[export] Instance M_ret : MRet M := λ A a s, (a, s).
#[export] Instance M_bind : MBind M :=
  λ A B k m s, let '(a, s') := m s in k a s'.

Definition exec {A} (m : M A) (s : ApiState) : ApiState := snd (m s).

Definition gets {A} (f : ApiState → A) : M A := λ s, (f s, s).
Definition modify (f : ApiState → ApiState) : M unit := λ s, (tt, f s).

(** [logged l s] is [s] with [l] appended to its log. *)
Definition logged (l : list Effect) (s : ApiState) : ApiState :=
  {| baseURL := baseURL s; isRefreshing := isRefreshing s;
     failedQueue := failedQueue s; localStorage := localStorage s;
     parked := parked s; microtasks := microtasks s;
     log := log s ++ l |}.

Definition emit (e : Effect) : M unit := modify (logged [e]).

Definition write_isRefreshing (b : bool) : M unit :=
  modify (λ s,
    {| baseURL := baseURL s; isRefreshing := b;
       failedQueue := failedQueue s; localStorage := localStorage s;
       parked := parked s; microtasks := microtasks s; log := log s |}).

Definition write_failedQueue (q : list Request) : M unit :=
  modify (λ s,
    {| baseURL := baseURL s; isRefreshing := isRefreshing s;
       failedQueue := q; localStorage := localStorage s;
       parked := parked s; microtasks := microtasks s; log := log s |}).

Definition write_localStorage (ls : gmap string string) : M unit :=
  modify (λ s,
    {| baseURL := baseURL s; isRefreshing := isRefreshing s;
       failedQueue := failedQueue s; localStorage := ls;
       parked := parked s; microtasks := microtasks s; log := log s |}).

Definition write_parked (p : list Request) : M unit :=
  modify (λ s,
    {| baseURL := baseURL s; isRefreshing := isRefreshing s;
       failedQueue := failedQueue s; localStorage := localStorage s;
       parked := p; microtasks := microtasks s; log := log s |}).

Definition write_microtasks (t : list Request) : M unit :=
  modify (λ s,
    {| baseURL := baseURL s; isRefreshing := isRefreshing s;
       failedQueue := failedQueue s; localStorage := localStorage s;
       parked := parked s; microtasks := t; log := log s |}).

Fixpoint forEach {A} (f : A → M unit) (l : list A) : M unit :=
  match l with
  | [] => mret tt
  | x :: rest => f x ;; forEach f rest
  end.

(** *** Primitive statements *)

Definition set_isRefreshing (b : bool) : M unit :=
  write_isRefreshing b ;; emit (SetRefreshing b).

Definition getItem (k : string) : M (option string) :=
  gets (λ s, localStorage s !! k).

Definition setItem (k v : string) : M unit :=
  ls ← gets localStorage;
  write_localStorage (<[k := v]> ls) ;; emit (SetItem k v).

Definition removeItem (k : string) : M unit :=
  ls ← gets localStorage;
  write_localStorage (delete k ls) ;; emit (RemoveItem k).

(** [this.failedQueue.push({ resolve, reject })]. *)
Definition push_waiter (w : Request) : M unit :=
  q ← gets failedQueue; write_failedQueue (q ++ [w]).

(** [resolve()] schedules the waiter's [then] callback. *)
Definition resolve_waiter (w : Request) : M unit :=
  emit (ResolveWaiter w) ;;
  t ← gets microtasks; write_microtasks (t ++ [w]).

(** [reject(e)]: the waiter's [then] is skipped and its [catch] rejects
    again with [e]. *)
Definition reject_waiter (e : Err) (w : Request) : M unit :=
  emit (RejectWaiter w e).

(** The handler suspends at [await axios.post(...)]. *)
Definition park (r : Request) : M unit :=
  p ← gets parked; write_parked (p ++ [r]).

(** *** [logout] (lines 159-162) *)

Definition logout : M unit :=
  removeItem "access_token" ;; removeItem "refresh_token".

(** *** [isAuthenticated] (lines 385-387) *)

Definition isAuthenticated : M bool :=
  token ← getItem "access_token"; mret (Js.truthy token).

(** *** [processQueue] (lines 118-128) *)

Definition processQueue (error : option Err) : M unit :=
  q ← gets failedQueue;
  forEach (λ w, match error with
                | Some e => reject_waiter e w
                | None => resolve_waiter w
                end) q ;;
  write_failedQueue [].

(** *** The request interceptor (lines 34-43) *)

Definition requestInterceptor (ls : gmap string string) (cfg : Request) : Request :=
  let token := ls !! "access_token" in
  if Js.truthy token
  then with_Authorization (Js.bearer (Js.template_null token)) cfg
  else cfg.

(** *** The response interceptor's error handler (lines 48-114) *)

(** [error.response?.status === 401]. *)
Definition status_is_401 (error : AxiosError) : bool :=
  match response error with
  | Some r => Z.eqb (status r) 401
  | None => false
  end.

(** Lines 53-55. *)
Definition is_auth_endpoint (u : option string) : bool :=
  match u with
  | Some u =>
      Js.includes u "/auth/sign-in"
      || Js.includes u "/auth/sign-up"
      || Js.includes u "/auth/refresh-token"
  | None => false
  end.

(** The handler from its entry to its first [return] or to the [await]
    of line 78. *)
Definition onRejected (error : AxiosError) : M unit :=
  let originalRequest := config error in
  if status_is_401 error && negb (_retry originalRequest) then
    if is_auth_endpoint (url originalRequest) then
      emit (Reject originalRequest (AxiosErr error))
    else
      refreshing ← gets isRefreshing;
      if refreshing : bool then
        push_waiter originalRequest
      else
        (* the config object is shared with [error]: both see [_retry] *)
        let originalRequest := with_retry originalRequest in
        let error := {| response := response error; config := originalRequest |} in
        set_isRefreshing true ;;
        refreshToken ← getItem "refresh_token";
        if Js.truthy refreshToken then
          base ← gets baseURL;
          emit (PostRefresh (base +:+ "/v1/protected/auth/refresh-token")
                            (Js.template_null refreshToken)) ;;
          park originalRequest
        else
          logout ;;
          emit (Navigate "/login") ;;
          emit (Reject originalRequest (AxiosErr error))
  else
    emit (Reject originalRequest (AxiosErr error)).

(** [const { access_token } = response.data.data || response.data]
    (line 88); reading a member of [null] throws. *)
Definition read_access_token (b : RefreshBody) : Err + option string :=
  match b with
  | BodyNull => inl TypeErr
  | BodyEnvelope t => inr t
  | BodyFlat t => inr t
  end.

(** What the [try] block gets out of the awaited call: the token of line
    88, or the value that reaches [catch]. *)
Definition awaited (result : RefreshResult) : Err + option string :=
  match result with
  | Fulfilled b => read_access_token b
  | RejectedWith e => inl e
  end.

(** Line 99: [refreshError instanceof Error ? refreshError : new Error(...)]. *)
Definition as_Error (refreshError : Err) : Err :=
  if instanceof_Error refreshError then refreshError
  else NewError "Token refresh failed".

(** The handler from the [await] of line 78 to its end (lines 78-105). *)
Definition resume (originalRequest : Request) (result : RefreshResult) : M unit :=
  match awaited result with
  | inr access_token =>
      setItem "access_token" (Js.template_undefined access_token) ;;
      processQueue None ;;
      let originalRequest :=
        with_Authorization (Js.bearer (Js.template_undefined access_token))
                           originalRequest in
      emit (Replay originalRequest)
  | inl refreshError =>
      processQueue (Some (as_Error refreshError)) ;;
      logout ;;
      emit (Navigate "/login") ;;
      emit (Reject originalRequest refreshError)
  end ;;
  (* finally *)
  set_isRefreshing false.

(** A waiter's [then] callback (lines 63-66). *)
Definition waiter_then (originalRequest : Request) : M unit :=
  token ← getItem "access_token";
  emit (Replay (with_Authorization (Js.bearer (Js.template_null token))
                                   originalRequest)).

(** The promise reactions scheduled by the task that just ran. *)
Definition drain : M unit :=
  t ← gets microtasks;
  write_microtasks [] ;;
  forEach waiter_then t.

(** *** The client as a transition system *)

Inductive Event :=
| ResponseError (error : AxiosError)   (* a failed response reaches the interceptor *)
| RefreshSettled (result : RefreshResult)  (* the refresh call of a parked handler settles *)
| TokensStored (access refresh : string)   (* [AuthContext.login], lines 67-68 *)
| LoggedOut.                               (* [apiService.logout()] called from outside *)

Definition step (ev : Event) (s : ApiState) : option ApiState :=
  match ev with
  | ResponseError error => Some (exec (onRejected error ;; drain) s)
  | RefreshSettled result =>
      match parked s with
      | [] => None
      | h :: rest => Some (exec (write_parked rest ;; resume h result ;; drain) s)
      end
  | TokensStored a r =>
      Some (exec (setItem "access_token" a ;; setItem "refresh_token" r) s)
  | LoggedOut => Some (exec logout s)
  end.

Fixpoint run (evs : list Event) (s : ApiState) : option ApiState :=
  match evs with
  | [] => Some s
  | ev :: rest =>
      match step ev s with
      | Some s' => run rest s'
      | None => None
      end
  end.

(** Counters over the log. *)
Definition is_PostRefresh (e : Effect) : bool :=
  match e with PostRefresh _ _ => true | _ => false end.
Definition is_Navigate (e : Effect) : bool :=
  match e with Navigate _ => true | _ => false end.

Definition refresh_calls (l : list Effect) : nat :=
  length (List.filter is_PostRefresh l).
Definition redirects (l : list Effect) : nat :=
  length (List.filter is_Navigate l).

(** Calls of a waiter's [resolve] or [reject], and of [reject] alone. *)
Definition is_settlement (e : Effect) : bool :=
  match e with ResolveWaiter _ | RejectWaiter _ _ => true | _ => false end.
Definition is_rejection (e : Effect) : bool :=
  match e with RejectWaiter _ _ => true | _ => false end.
Definition settlements (l : list Effect) : nat :=
  length (List.filter is_settlement l).
Definition rejections (l : list Effect) : nat :=
  length (List.filter is_rejection l).

(** A failure the handler answers with the refresh protocol: HTTP 401 on
    a request not marked as retried, outside the authentication
    endpoints. *)
Definition expired (error : AxiosError) : Prop :=
  status_is_401 error = true ∧ _retry (config error) = false ∧
  is_auth_endpoint (url (config error)) = false.

(** What holds of the client between two tasks. *)
Definition coherent (s : ApiState) : Prop :=
  microtasks s = [] ∧ (length (parked s) ≤ 1)%nat ∧
  (isRefreshing s = false → failedQueue s = [] ∧ parked s = []).

Definition reachable (s : ApiState) : Prop :=
  ∃ base ls evs, run evs (init base ls) = Some s.

(** [refresh_fails s ev caller failure waiter_failure]: in state [s] the
    task [ev] ends a refresh in failure. Either the refresh call of the
    parked handler fails (it rejects, or its body cannot be read), or a
    401 starts a refresh and finds no refresh token. [caller] is the
    request whose 401 started the refresh, [failure] what its promise
    rejects with, [waiter_failure] what [processQueue] is given. *)
Inductive refresh_fails (s : ApiState) : Event → Request → Err → Err → Prop :=
| call_fails h rest result err :
    parked s = h :: rest → awaited result = inl err →
    refresh_fails s (RefreshSettled result) h err (as_Error err)
| no_refresh_token error :
    expired error → isRefreshing s = false →
    Js.truthy (localStorage s !! "refresh_token") = false →
    refresh_fails s (ResponseError error) (with_retry (config error))
      (AxiosErr {| response := response error; config := with_retry (config error) |})
      (AxiosErr {| response := response error; config := with_retry (config error) |}).

(** What a failed refresh leaves behind: both tokens gone, every waiter
    of [s] rejected, one redirect to the sign-in page, the caller
    rejected, no further refresh call. *)
Definition failure_outcome (s s' : ApiState) (caller : Request)
    (failure waiter_failure : Err) : Prop :=
  localStorage s' !! "access_token" = None ∧
  localStorage s' !! "refresh_token" = None ∧
  failedQueue s' = [] ∧
  ∃ l : list Effect, log s' = (log s ++ l)%list ∧
       Forall (λ w, In (RejectWaiter w waiter_failure) l) (failedQueue s) ∧
       In (Navigate "/login") l ∧ redirects l = 1%nat ∧
       In (Reject caller failure) l ∧
       refresh_calls l = 0%nat.

(** Tasks of the refresh path that do not end it in failure: a failed
    response, or a refresh call whose token could be read. *)
Definition refresh_path (ev : Event) : Prop :=
  match ev with
  | ResponseError _ => True
  | RefreshSettled result => ∃ tok, awaited result = inr tok
  | _ => False
  end.

(** What the refresh path may log while the refresh token [rt] is in
    use: writes of [access_token] only, no removal, refresh calls that
    carry [rt]. *)
Definition refresh_frame (rt : string) (e : Effect) : Prop :=
  match e with
  | SetItem k _ => k = "access_token"
  | RemoveItem _ => False
  | PostRefresh _ t => t = rt
  | _ => True
  end.

(** Requests and failures used as concrete inputs below. *)
Definition me_request : Request :=
  {| url := Some "/v1/protected/me"; _retry := false;
     Authorization := Some "Bearer stale" |}.
Definition clients_request : Request :=
  {| url := Some "/v1/protected/clients?page=1"; _retry := false;
     Authorization := Some "Bearer stale" |}.
Definition sign_in_request : Request :=
  {| url := Some "/v1/public/auth/sign-in"; _retry := false;
     Authorization := None |}.
Definition failed_with (code : Z) (r : Request) : AxiosError :=
  {| response := Some {| status := code; body := Some {| data := None |} |};
     config := r |}.
Definition signed_in : gmap string string :=
  <["refresh_token" := "R1"]> (<["access_token" := "stale"]> ∅).

(** A refresh in flight for [me_request], with [clients_request] waiting. *)
Definition refreshing : ApiState :=
  {| baseURL := "http://localhost:8080"; isRefreshing := true;
     failedQueue := [clients_request]; localStorage := signed_in;
     parked := [with_retry me_request]; microtasks := [];
     log := [SetRefreshing true;
             PostRefresh "http://localhost:8080/v1/protected/auth/refresh-token" "R1"] |}.

(** The state a 401 leaves behind when storage holds no refresh token. *)
Definition signed_out : ApiState :=
  {| baseURL := "http://localhost:8080"; isRefreshing := true;
     failedQueue := []; localStorage := ∅; parked := []; microtasks := [];
     log := [SetRefreshing true; RemoveItem "access_token";
             RemoveItem "refresh_token"; Navigate "/login";
             Reject (with_retry me_request)
                    (AxiosErr (failed_with 401 (with_retry me_request)))] |}.

End Api.

(** ** [src/context/AuthContext.tsx] *)

Module Auth.
Import Api.

Record AuthTokens := mkAuthTokens {
  access_token : string;
  refresh_token : string;
  token_type : string;
}.

Record User := mkUser {
  id : Z;
  name : string;
  email : string;
  address : string;
  phone : string;
  bank_name : string;
  bank_account_name : string;
  bank_account_number : string;
}.

(** How an awaited call ends. *)
Inductive Outcome (A : Type) :=
| Returned (a : A)
| Threw (e : Err).
Arguments Returned {A} a.
Arguments Threw {A} e.

(** The provider's [user] state and [localStorage]. *)
Record AuthState := mkAuthState {
  user : option User;
  storage : gmap string string;
}.

(** Lines 74-82: the test the [catch] block makes on what it caught.
    [NewError], [TypeErr] and primitives have no [response] member. Line
    78 reads [errorData.data] with no guard on [errorData]: when the body
    of a 403 is [null] the read throws a [TypeError]. *)
Definition is_deactivated (error : Err) : Outcome bool :=
  match error with
  | AxiosErr e =>
      match response e with
      | Some r =>
          if Z.eqb (status r) 403 then
            match body r with
            | Some errorData =>
                match data errorData with
                | Some payload =>
                    match can_restore payload with
                    | Some flag => Returned flag
                    | None => Returned false
                    end
                | None => Returned false
                end
            | None => Threw TypeErr
            end
          else Returned false
      | None => Returned false
      end
  | _ => Returned false
  end.

(** Lines 65-71, the [try] block. [signIn] and [getCurrentUser] are the
    outcomes of the two awaited calls [apiService.login(...)] and
    [apiService.getCurrentUser()]. *)
Definition login_try (signIn : Outcome AuthTokens) (getCurrentUser : Outcome User)
    (st : AuthState) : AuthState * Outcome unit :=
  match signIn with
  | Threw e => (st, Threw e)
  | Returned tokens =>
      let ls := <["refresh_token" := refresh_token tokens]>
                  (<["access_token" := access_token tokens]> (storage st)) in
      match getCurrentUser with
      | Threw e => ({| user := user st; storage := ls |}, Threw e)
      | Returned userData => ({| user := Some userData; storage := ls |}, Returned tt)
      end
  end.

(** [login] (lines 64-87). *)
Definition login (signIn : Outcome AuthTokens) (getCurrentUser : Outcome User)
    (st : AuthState) : AuthState * Outcome unit :=
  match login_try signIn getCurrentUser st with
  | (st', Threw error) =>
      match is_deactivated error with
      | Returned true => (st', Threw (NewError "ACCOUNT_DEACTIVATED"))
      | Returned false => (st', Threw error)
      | Threw raised => (st', Threw raised)
      end
  | done => done
  end.

(** The error the [try] block of [login] ends with, if it fails. *)
Definition login_failure (signIn : Outcome AuthTokens) (getCurrentUser : Outcome User)
    : option Err :=
  match signIn with
  | Threw e => Some e
  | Returned _ =>
      match getCurrentUser with
      | Threw e => Some e
      | Returned _ => None
      end
  end.

(** An HTTP 403 whose body carries [data.can_restore = true]. *)
Definition deactivated_response (error : Err) : Prop :=
  ∃ e r errorData payload,
    error = AxiosErr e ∧ response e = Some r ∧ status r = 403 ∧
    body r = Some errorData ∧ data errorData = Some payload ∧
    can_restore payload = Some true.

(** An HTTP 403 whose body is [null]. *)
Definition null_body_403 (error : Err) : Prop :=
  ∃ e r, error = AxiosErr e ∧ response e = Some r ∧ status r = 403 ∧ body r = None.

(** A sign-in refused with status 403 and the JSON body [null]. *)
Definition refused_with_null : AxiosError :=
  {| response := Some {| status := 403; body := None |};
     config := sign_in_request |}.

End Auth.

(** ** [components/InvoiceForm.tsx] and [pages/CreateInvoicePage.tsx] *)

Module Form.

Local Open Scope float_scope.

(** [string | number]; a JavaScript number is a binary64 float. *)
Inductive Value :=
| VStr (s : string)
| VNum (n : float).

(** [InvoiceItem] of [types/index.ts]; [None] is a member that is
    [undefined], as in the object an assignment past the end of the array
    creates. *)
Record InvoiceItem := mkItem {
  id : option float;
  description : option string;
  quantity : option float;
  unit_price : option float;
  total : option float;
}.

(** An array element: an empty slot of a sparse array, the value
    [undefined], or an object. *)
Inductive Slot :=
| Hole
| Undefined
| Item (it : InvoiceItem).

(** [InvoiceFormData]: the members holding strings and numbers, by name,
    and [items]. *)
Record InvoiceFormData := mkData {
  scalars : gmap string Value;
  items : list Slot;
}.

(** The operand conversion of [*]: [undefined] becomes [NaN]. *)
Definition to_number (v : option float) : float :=
  match v with Some n => n | None => nan end.

(** [[...arr]]: iteration reads an empty slot as [undefined]. *)
Definition spread_array (arr : list Slot) : list Slot :=
  (λ s, match s with Hole => Undefined | _ => s end) <$> arr.

(** [{...arr[index]}]: spreading [undefined] adds no member. *)
Definition spread_slot (s : option Slot) : InvoiceItem :=
  match s with
  | Some (Item it) => it
  | _ => mkItem None None None None None
  end.

(** [arr[index] = x]: past the end the array grows, leaving empty slots. *)
Definition array_set (index : nat) (x : Slot) (arr : list Slot) : list Slot :=
  if decide (index < length arr)%nat then <[index := x]> arr
  else arr ++ replicate (index - length arr) Hole ++ [x].

(** [arr.filter((_, i) => keep(i))]: empty slots are skipped. *)
Fixpoint filter_from (keep : nat → bool) (i : nat) (arr : list Slot) : list Slot :=
  match arr with
  | [] => []
  | s :: rest =>
      match s with
      | Hole => filter_from keep (S i) rest
      | _ => if keep i then s :: filter_from keep (S i) rest
             else filter_from keep (S i) rest
      end
  end.

(** The [(field, value)] arguments of [handleItemChange], the value typed
    as [InvoiceItem] types the field. *)
Inductive ItemEdit :=
| Id (n : float)
| Description (s : string)
| Quantity (n : float)
| UnitPrice (n : float)
| Total (n : float).

(** [{ ...obj, [field]: value }]. *)
Definition assign (e : ItemEdit) (obj : InvoiceItem) : InvoiceItem :=
  match e with
  | Id n => mkItem (Some n) (description obj) (quantity obj) (unit_price obj) (total obj)
  | Description s => mkItem (id obj) (Some s) (quantity obj) (unit_price obj) (total obj)
  | Quantity n => mkItem (id obj) (description obj) (Some n) (unit_price obj) (total obj)
  | UnitPrice n => mkItem (id obj) (description obj) (quantity obj) (Some n) (total obj)
  | Total n => mkItem (id obj) (description obj) (quantity obj) (unit_price obj) (Some n)
  end.

(** [field === "quantity" || field === "unit_price"]. *)
Definition prices (e : ItemEdit) : bool :=
  match e with
  | Quantity _ | UnitPrice _ => true
  | _ => false
  end.

(** Lines 108-109. *)
Definition recompute_total (obj : InvoiceItem) : InvoiceItem :=
  mkItem (id obj) (description obj) (quantity obj) (unit_price obj)
         (Some (to_number (quantity obj) * to_number (unit_price obj))).

(** [handleItemChange] (lines 96-117). *)
Definition handleItemChange (index : nat) (e : ItemEdit) (data : InvoiceFormData)
    : InvoiceFormData :=
  let newItems := spread_array (items data) in
  let obj := assign e (spread_slot (newItems !! index)) in
  let obj := if prices e then recompute_total obj else obj in
  {| scalars := scalars data; items := array_set index (Item obj) newItems |}.

(** The item of lines 124-129 and of the pages' initial state. *)
Definition blank_item : InvoiceItem :=
  mkItem None (Some ""%string) (Some 1) (Some 0) (Some 0).

(** [addItem] (lines 119-132). *)
Definition addItem (data : InvoiceFormData) : InvoiceFormData :=
  {| scalars := scalars data;
     items := spread_array (items data) ++ [Item blank_item] |}.

(** [removeItem] (lines 134-142). *)
Definition removeItem (index : nat) (data : InvoiceFormData) : InvoiceFormData :=
  if decide (1 < length (items data))%nat then
    {| scalars := scalars data;
       items := filter_from (λ i, negb (Nat.eqb i index)) 0 (items data) |}
  else data.

(** The members [handleInputChange] is called with in the form's markup. *)
Inductive InputField :=
| invoice_number | issue_date | due_date
| sender_name | sender_email | sender_phone | sender_address
| sender_bank_name | sender_bank_account_name | sender_bank_account_number
| client_name | client_email | client_phone | client_address
| tax_rate | delivery_fee | notes.

Definition key (f : InputField) : string :=
  match f with
  | invoice_number => "invoice_number" | issue_date => "issue_date"
  | due_date => "due_date"
  | sender_name => "sender_name" | sender_email => "sender_email"
  | sender_phone => "sender_phone" | sender_address => "sender_address"
  | sender_bank_name => "sender_bank_name"
  | sender_bank_account_name => "sender_bank_account_name"
  | sender_bank_account_number => "sender_bank_account_number"
  | client_name => "client_name" | client_email => "client_email"
  | client_phone => "client_phone" | client_address => "client_address"
  | tax_rate => "tax_rate" | delivery_fee => "delivery_fee"
  | notes => "notes"
  end%string.

(** [handleInputChange] (lines 86-94). *)
Definition handleInputChange (field : InputField) (value : Value)
    (data : InvoiceFormData) : InvoiceFormData :=
  {| scalars := <[key field := value]> (scalars data); items := items data |}.

(** [Client] of [types/index.ts], as [handleClientSelect] reads it. *)
Record Client := mkClient {
  c_id : float;
  c_name : string;
  c_email : option string;
  c_address : option string;
  c_phone : option string;
}.

(** [v || ""]. *)
Definition or_empty (v : option string) : string :=
  match v with
  | Some s => s
  | None => ""
  end.

Section WithParseInt.

(** The builtin [parseInt]. *)
Variable parseInt : string → float.

(** [handleClientSelect] (lines 58-84); [clients] is the component's
    list of loaded clients. A cleared [client_id] is [undefined]. The
    component's own [selectedClientId] is not part of the form data. *)
Definition handleClientSelect (clients : list Client) (clientId : option string)
    (data : InvoiceFormData) : InvoiceFormData :=
  let cleared :=
    {| scalars :=
         <["client_phone" := VStr ""]>
         (<["client_address" := VStr ""]>
         (<["client_email" := VStr ""]>
         (<["client_name" := VStr ""]>
         (delete "client_id" (scalars data)))));
       items := items data |} in
  match clientId with
  | None => cleared
  | Some s =>
      if String.eqb s "" then cleared
      else
        match List.find (λ c, PrimFloat.eqb (c_id c) (parseInt s)) clients with
        | Some client =>
            {| scalars :=
                 <["client_phone" := VStr (or_empty (c_phone client))]>
                 (<["client_address" := VStr (or_empty (c_address client))]>
                 (<["client_email" := VStr (or_empty (c_email client))]>
                 (<["client_name" := VStr (c_name client)]>
                 (<["client_id" := VNum (c_id client)]> (scalars data)))));
               items := items data |}
        | None => data
        end
  end.

(** What the rendered form can do to its data. *)
Inductive FormAction :=
| ClientSelect (clients : list Client) (clientId : option string)
| InputChange (field : InputField) (value : Value)
| ItemChange (index : nat) (e : ItemEdit)
| AddItem
| RemoveItem (index : nat).

Definition act (a : FormAction) (data : InvoiceFormData) : InvoiceFormData :=
  match a with
  | ClientSelect clients clientId => handleClientSelect clients clientId data
  | InputChange field value => handleInputChange field value data
  | ItemChange index e => handleItemChange index e data
  | AddItem => addItem data
  | RemoveItem index => removeItem index data
  end.

Definition acts (l : list FormAction) (data : InvoiceFormData) : InvoiceFormData :=
  foldl (λ d a, act a d) data l.

End WithParseInt.

(** The initial [invoiceData] of [CreateInvoicePage] (lines 16-39); the
    three strings are computed from the clock. *)
Definition initialInvoiceData (number issue due : string) : InvoiceFormData :=
  {| scalars :=
       list_to_map
         [("invoice_number", VStr number); ("issue_date", VStr issue);
          ("due_date", VStr due); ("client_name", VStr "");
          ("client_email", VStr ""); ("client_address", VStr "");
          ("client_phone", VStr ""); ("tax_rate", VNum 0);
          ("delivery_fee", VNum 0); ("notes", VStr "");
          ("status", VStr "DRAFT")]%string;
     items := [Item blank_item] |}.

(** An array without empty slots. *)
Definition dense (arr : list Slot) : Prop := Forall (λ s, s ≠ Hole) arr.

(** The first and the last element of an array are not empty slots. *)
Definition anchored (arr : list Slot) : Prop :=
  arr ≠ [] ∧ head arr ≠ Some Hole ∧ last arr ≠ Some Hole.

End Form.

(** ** The totals shown by [InvoiceForm] and [InvoicePreview] *)

Module Summary.
Import Form.

Local Open Scope float_scope.

(** [arr.reduce((sum, item) => f(sum, item), init)] for an [f] that reads
    members of [item]: empty slots are skipped, and an element that is
    [undefined] has no member to read, which throws ([None]). *)
Fixpoint reduce (f : float → InvoiceItem → float) (sum : float) (arr : list Slot)
    : option float :=
  match arr with
  | [] => Some sum
  | Hole :: rest => reduce f sum rest
  | Undefined :: _ => None
  | Item item :: rest => reduce f (f sum item) rest
  end.

(** [InvoiceForm], lines 144-146. [tax_rate] and [delivery_fee] are the
    members of [data], numbers by their type, [None] when missing. *)
Definition subtotal (items : list Slot) : option float :=
  reduce (λ sum item, sum + to_number (Form.total item)) 0 items.

Definition taxAmount (subtotal : float) (tax_rate : option float) : float :=
  (subtotal * to_number tax_rate) / 100.

Definition total (subtotal taxAmount : float) (delivery_fee : option float) : float :=
  subtotal + taxAmount + to_number delivery_fee.

(** [InvoicePreview], lines 14-20. *)
Definition preview_total (items : list Slot) : option float :=
  reduce (λ sum item, sum + to_number (quantity item) * to_number (unit_price item))
         0 items.

Definition preview_taxAmount (total : float) (tax_rate : option float) : float :=
  total * (to_number tax_rate / 100).

Definition finalTotal (subtotal taxAmount : float) (delivery_fee : option float) : float :=
  subtotal + taxAmount + to_number delivery_fee.

(** An item whose [total] is the product of its two factors, as numbers. *)
Definition in_sync (item : InvoiceItem) : Prop :=
  to_number (Form.total item) = to_number (quantity item) * to_number (unit_price item).

Definition slot_in_sync (s : Slot) : Prop :=
  match s with
  | Item item => in_sync item
  | _ => True
  end.

(** The operations of the form as its markup issues them: item edits set
    the description, the quantity or the unit price (lines 620-660). *)
Definition rendered (a : FormAction) : Prop :=
  match a with
  | ItemChange _ (Total _) => False
  | ItemChange _ (Id _) => False
  | _ => True
  end.

(** The initial [formData] of [HomePage] (lines 11-41); the three strings
    are computed from the clock. It has no [delivery_fee] member. *)
Definition homeFormData (number issue due : string) : InvoiceFormData :=
  {| scalars :=
       list_to_map
         [("client_name", VStr ""); ("client_email", VStr "");
          ("client_address", VStr ""); ("client_phone", VStr "");
          ("invoice_number", VStr number); ("issue_date", VStr issue);
          ("due_date", VStr due); ("tax_rate", VNum 0); ("notes", VStr "");
          ("sender_name", VStr ""); ("sender_email", VStr "");
          ("sender_phone", VStr ""); ("sender_address", VStr "");
          ("sender_bank_name", VStr ""); ("sender_bank_account_name", VStr "");
          ("sender_bank_account_number", VStr "")]%string;
     items := [Item blank_item] |}.

(** An operation that is not an edit of the delivery fee field. *)
Definition leaves_delivery_fee (a : FormAction) : Prop :=
  match a with
  | InputChange delivery_fee _ => False
  | _ => True
  end.

End Summary.

(** ** JavaScript numbers that hold integers *)

Module Number.

(** Numbers are binary64 values ([float]). [num z] is the number nearest
    to the integer [z], which is [z] itself when [z] is a safe integer
    ([Number.MIN_SAFE_INTEGER <= z <= Number.MAX_SAFE_INTEGER]). *)
Definition safe (z : Z) : Prop := - 2 ^ 53 < z < 2 ^ 53.

Definition num (z : Z) : float := SF2Prim (binary_normalize prec emax z 0 false).

(** The mantissa and the exponent of the normal form of a safe integer,
    and the form itself. *)
Definition mant (z : Z) : positive :=
  Z.to_pos (Z.abs z * 2 ^ (52 - Z.log2 (Z.abs z))).
Definition expo (z : Z) : Z := Z.log2 (Z.abs z) - 52.
Definition canon (z : Z) : spec_float :=
  if z =? 0 then S754_zero false else S754_finite (z <? 0) (mant z) (expo z).

End Number.

(** ** The builtins [Math.max], [Math.min] and [Math.floor], on two
    arguments and on one *)

Module Math.
Import Number.
Local Open Scope float_scope.

(** [NaN] when an argument is [NaN]; [+0] counts as larger than [-0]. *)
Definition max (x y : float) : float :=
  if is_nan x || is_nan y then nan
  else if x <? y then y
  else if y <? x then x
  else match classify x with NZero => y | _ => x end.

Definition min (x y : float) : float :=
  if is_nan x || is_nan y then nan
  else if x <? y then x
  else if y <? x then y
  else match classify x with PZero => y | _ => x end.

(** The largest integer not above [x]; zeros, infinities and [NaN] are
    returned as they are. *)
Definition floor (x : float) : float :=
  match Prim2SF x with
  | S754_finite s m e => num (Z.shiftl (cond_Zopp s (Zpos m)) e)
  | _ => x
  end.

End Math.

(** ** [Pagination] *)

Module Pagination.
Import Number.

Local Open Scope float_scope.

(** The loop of lines 274-276, [for (let i = start; i <= end; i++)
    pages.push(i)], run for at most [fuel] tests of its condition;
    [None] when it has not ended by then. *)
Fixpoint push_from (fuel : nat) (i end_ : float) : option (list float) :=
  match fuel with
  | O => None
  | S fuel =>
      if i <=? end_ then cons i <$> push_from fuel (i + 1) end_ else Some []
  end.

(** [getPageNumbers] (lines 261-279). *)
Definition getPageNumbers (fuel : nat) (currentPage totalPages : float)
    : option (list float) :=
  let showPages := 5 in
  let halfRange := Math.floor (showPages / 2) in
  let start := Math.max 1 (currentPage - halfRange) in
  let end_ := Math.min totalPages (start + showPages - 1) in
  let start :=
    if end_ - start <? showPages - 1 then Math.max 1 (end_ - showPages + 1)
    else start in
  push_from fuel start end_.

(** A button: whether it is disabled, and the page its click asks for. *)
Record Control := mkControl {
  disabled : bool;
  target : float;
}.

(** What the component renders (lines 256-351). *)
Record View := mkView {
  startItem : float;
  endItem : float;
  first : Control;
  previous : Control;
  pageNumbers : list Control;
  next : Control;
  last : Control;
}.

Definition controls (v : View) : list Control :=
  first v :: previous v :: pageNumbers v ++ [next v; last v].

(** What the component returns: the [null] of line 256, or the bar. *)
Inductive Output :=
| Null
| Bar (v : View).

(** The component; [None] when the loop of [getPageNumbers] has not ended
    within [fuel] tests. *)
Definition Pagination (fuel : nat)
    (currentPage totalPages totalItems pageSize : float) (loading : bool)
    : option Output :=
  if totalPages <=? 1 then Some Null
  else
    let startItem := (currentPage - 1) * pageSize + 1 in
    let endItem := Math.min (currentPage * pageSize) totalItems in
    pageNumbers ← getPageNumbers fuel currentPage totalPages;
    Some (Bar
      {| startItem := startItem;
         endItem := endItem;
         first := {| disabled := (currentPage =? 1) || loading; target := 1 |};
         previous := {| disabled := (currentPage =? 1) || loading;
                        target := currentPage - 1 |};
         pageNumbers :=
           (λ pageNumber, {| disabled := loading; target := pageNumber |})
             <$> pageNumbers;
         next := {| disabled := (currentPage =? totalPages) || loading;
                    target := currentPage + 1 |};
         last := {| disabled := (currentPage =? totalPages) || loading;
                    target := totalPages |} |}).

(** The bar on the last of three pages of ten, for 25 items. *)
Definition last_page : View :=
  mkView 21 25 (mkControl false 1) (mkControl false 2)
    [mkControl false 1; mkControl false 2; mkControl false 3]
    (mkControl true 4) (mkControl true 3).

End Pagination.

(** ** Saving an invoice: [CreateInvoicePage] and [ApiService] *)

Module Invoices.
Import Api Auth Form.

Local Open Scope float_scope.

(** [if (v)] for a member of the form data: a string, a number, or
    [undefined]. *)
Definition truthy (v : option Value) : bool :=
  match v with
  | Some (VStr s) => negb (String.eqb s "")
  | Some (VNum n) => negb (PrimFloat.is_zero n || PrimFloat.is_nan n)
  | None => false
  end.

(** [v || d]. *)
Definition or_else (v : option Value) (d : Value) : Value :=
  match v with
  | Some x => if truthy v then x else d
  | None => d
  end.

(** [arr.every(item => p(item))] for a [p] that reads members of [item]:
    empty slots are skipped, the first failing element ends the scan, and
    an element that is [undefined] throws when the scan reaches it. *)
Fixpoint every (p : InvoiceItem → bool) (arr : list Slot) : option bool :=
  match arr with
  | [] => Some true
  | Hole :: rest => every p rest
  | Undefined :: _ => None
  | Item item :: rest => if p item then every p rest else Some false
  end.

(** [item.description && item.quantity > 0 && item.unit_price >= 0]
    ([CreateInvoicePage], line 102). *)
Definition item_ok (item : InvoiceItem) : bool :=
  Js.truthy (description item)
  && PrimFloat.ltb 0 (to_number (quantity item))
  && PrimFloat.leb 0 (to_number (unit_price item)).

(** [isFormValid] ([CreateInvoicePage], lines 95-118), as the truth value
    of what it returns. *)
Definition isFormValid (invoiceData : InvoiceFormData) : option bool :=
  let member k := scalars invoiceData !! k in
  basicValidation ←
    (if truthy (member "invoice_number") && truthy (member "issue_date")
        && truthy (member "due_date")
        && Nat.ltb 0 (length (items invoiceData))
     then every item_ok (items invoiceData)
     else Some false);
  if truthy (member "client_id") then Some basicValidation
  else
    let manualClientValidation :=
      truthy (member "client_name") && truthy (member "client_email")
      && truthy (member "client_address") && truthy (member "client_phone") in
    Some (basicValidation && manualClientValidation).

(** [arr.map(item => f(item))] for an [f] that reads members of [item]:
    empty slots stay empty, an [undefined] element throws. *)
Fixpoint map_items (f : InvoiceItem → InvoiceItem) (arr : list Slot)
    : option (list Slot) :=
  match arr with
  | [] => Some []
  | Hole :: rest => cons Hole <$> map_items f rest
  | Undefined :: _ => None
  | Item item :: rest => cons (Item (f item)) <$> map_items f rest
  end.

(** The body of a request: its members that are defined, and its items. *)
Record Payload := mkPayload {
  fields : gmap string Value;
  rows : list Slot;
}.

(** A member is written when it is defined. *)
Definition put (k : string) (v : option Value) (m : gmap string Value)
    : gmap string Value :=
  match v with
  | Some x => <[k := x]> m
  | None => m
  end.

(** Lines 261-277 and 299-315 of [api.ts]: the client of the invoice. *)
Definition with_client (data : InvoiceFormData) (base : gmap string Value)
    : gmap string Value :=
  let member k := scalars data !! k in
  if truthy (member "client_id") then put "client_id" (member "client_id") base
  else
    put "client_phone" (Some (or_else (member "client_phone") (VStr "")))
    (put "client_address" (Some (or_else (member "client_address") (VStr "")))
    (put "client_email" (Some (or_else (member "client_email") (VStr "")))
    (put "client_name" (member "client_name") base))).

(** The body [createInvoice] posts ([api.ts], lines 244-279). *)
Definition createInvoice_body (data : InvoiceFormData) : option Payload :=
  let member k := scalars data !! k in
  rows ← map_items (λ item, mkItem None (description item) (quantity item)
                                   (unit_price item) None) (items data);
  let baseInvoiceData :=
    put "delivery_fee" (member "delivery_fee")
    (put "tax_rate" (member "tax_rate")
    (put "notes" (Some (or_else (member "notes") (VStr "")))
    (put "due_date" (member "due_date")
    (put "issue_date" (member "issue_date")
    (put "invoice_number" (Some (or_else (member "invoice_number") (VStr ""))) ∅))))) in
  Some {| fields := with_client data baseInvoiceData; rows := rows |}.

(** The body [updateInvoice] puts ([api.ts], lines 281-318). *)
Definition updateInvoice_body (data : InvoiceFormData) : option Payload :=
  let member k := scalars data !! k in
  rows ← map_items (λ item, mkItem (Form.id item) (description item) (quantity item)
                                   (unit_price item) None) (items data);
  let baseInvoiceData :=
    put "status" (Some (or_else (member "status") (VStr "DRAFT")))
    (put "tax_rate" (member "tax_rate")
    (put "delivery_fee" (member "delivery_fee")
    (put "notes" (Some (or_else (member "notes") (VStr "")))
    (put "due_date" (member "due_date")
    (put "issue_date" (member "issue_date")
    (put "invoice_number" (Some (or_else (member "invoice_number") (VStr ""))) ∅)))))) in
  Some {| fields := with_client data baseInvoiceData; rows := rows |}.

(** The requests of the two methods: [POST /v1/protected/invoices] and
    [PUT /v1/protected/invoices/<id>]. *)
Inductive Request :=
| Post (body : Payload)
| Put (id : float) (body : Payload).

(** What the page does: a toast (success or error), a request, a
    navigation. *)
Inductive PageEffect :=
| Toast (success : bool) (message : string)
| Send (r : Request)
| NavigateTo (path : string).

Definition sent (l : list PageEffect) : list Request :=
  omap (λ e, match e with Send r => Some r | _ => None end) l.

(** [isEditMode && id] (line 134): the route parameter when it is a
    non-empty string. *)
Definition edited (id : option string) : option string :=
  if Js.truthy id then id else None.

(** [{ ...invoiceData, status: "DRAFT" }]. *)
Definition as_draft (invoiceData : InvoiceFormData) : InvoiceFormData :=
  {| scalars := <["status" := VStr "DRAFT"]> (scalars invoiceData);
     items := items invoiceData |}.

Section WithParseInt.

(** The builtin [parseInt]. *)
Variable parseInt : string → float.

(** [handleSaveAsDraft] ([CreateInvoicePage], lines 120-159). [id] is the
    route parameter, [response] how the awaited call ends once a request
    is sent. [None]: [isFormValid] threw, outside the [try]. *)
Definition handleSaveAsDraft (id : option string) (invoiceData : InvoiceFormData)
    (response : Outcome unit) : option (list PageEffect) :=
  valid ← isFormValid invoiceData;
  if negb valid then
    if truthy (scalars invoiceData !! "client_id") then
      Some [Toast false
        "Please fill in all required fields (invoice number, dates, and items)"]
    else
      Some [Toast false
        "Please fill in all required fields (invoice number, dates, client details, and items)"]
  else
    (* try *)
    let attempt :=
      match edited id with
      | Some i =>
          body ← updateInvoice_body (as_draft invoiceData);
          Some (Put (parseInt i) body, "Invoice updated successfully!")
      | None =>
          body ← createInvoice_body (as_draft invoiceData);
          Some (Post body, "Invoice created successfully!")
      end in
    match attempt with
    | Some (request, message) =>
        match response with
        | Returned _ =>
            Some [Send request; Toast true message; NavigateTo "/invoices"]
        | Threw _ => Some [Send request; Toast false "Failed to save invoice"]
        end
    | None => Some [Toast false "Failed to save invoice"]
    end.

End WithParseInt.

(** A row the validation accepts. *)
Definition row_ok (s : Slot) : Prop :=
  match s with
  | Hole => True
  | Undefined => False
  | Item item =>
      (∃ d, description item = Some d ∧ d ≠ ""%string) ∧
      PrimFloat.ltb 0 (to_number (quantity item)) = true ∧
      PrimFloat.leb 0 (to_number (unit_price item)) = true
  end.

(** A form filled in for client 7, used as a concrete input below. *)
Definition filled_in : InvoiceFormData :=
  {| scalars :=
       list_to_map
         [("invoice_number", VStr "INV-1"); ("issue_date", VStr "2026-01-01");
          ("due_date", VStr "2026-01-31"); ("client_id", VNum 7);
          ("client_name", VStr "Acme"); ("tax_rate", VNum 10);
          ("delivery_fee", VNum 0); ("status", VStr "PAID")]%string;
     items := [Item (mkItem (Some 3) (Some "Design"%string) (Some 2) (Some 100)
                            (Some 200))] |}.

End Invoices.

(** ** The provider of [AuthContext] and the routes of [App] *)

Module App.
Import Api.

(** The provider's state, and the client its methods call. *)
Record Provider := mkProvider {
  user : option Auth.User;
  isLoading : bool;
  api : ApiState;
}.

(** [!!user && apiService.isAuthenticated()] ([AuthContext], line 46). *)
Definition isAuthenticated (p : Provider) : bool :=
  match user p with
  | Some _ => fst (Api.isAuthenticated (api p))
  | None => false
  end.

(** [logout] ([AuthContext], lines 104-107). *)
Definition logout (p : Provider) : Provider :=
  {| user := None; isLoading := isLoading p; api := exec Api.logout (api p) |}.

(** An awaited call of the client: how it ends, and the client after it
    (the interceptors may have written to [localStorage] meanwhile). *)
Definition Call (A : Type) : Type := ApiState → Auth.Outcome A * ApiState.

(** [initializeAuth] ([AuthContext], lines 49-59). *)
Definition initializeAuth (getCurrentUser : Call Auth.User) (p : Provider)
    : Provider :=
  if fst (Api.isAuthenticated (api p)) then
    match getCurrentUser (api p) with
    | (Auth.Returned userData, a) =>
        {| user := Some userData; isLoading := false; api := a |}
    | (Auth.Threw _, a) =>
        {| user := user p; isLoading := false; api := exec Api.logout a |}
    end
  else {| user := user p; isLoading := false; api := api p |}.

(** [deactivateAccount] ([AuthContext], lines 129-133). *)
Definition deactivateAccount (deactivateUserAccount : Call unit) (p : Provider)
    : Provider * Auth.Outcome unit :=
  match deactivateUserAccount (api p) with
  | (Auth.Returned _, a) =>
      (logout {| user := user p; isLoading := isLoading p; api := a |},
       Auth.Returned tt)
  | (Auth.Threw e, a) =>
      ({| user := user p; isLoading := isLoading p; api := a |}, Auth.Threw e)
  end.

(** The [<Route>]s of [AppContent], in the order written. *)
Inductive Route :=
| Root            (* "/" *)
| Login           (* "/login" *)
| Register        (* "/register" *)
| Dashboard       (* "/dashboard" *)
| Invoices        (* "/invoices" *)
| InvoicesCreate  (* "/invoices/create" *)
| InvoicesId      (* "/invoices/:id" *)
| InvoicesEditId  (* "/invoices/edit/:id" *)
| Clients         (* "/clients" *)
| Settings.       (* "/settings" *)

Inductive Page :=
| HomePage | LoginPage | RegisterPage | DashboardPage | InvoicesPage
| ViewInvoicePage | ClientsPage | SettingsPage | CreateInvoicePage.

(** What a route's element renders to. *)
Inductive Element :=
| Spinner
| Render (page : Page)
| Navigate (to : Route).

(** [ProtectedRoute]. *)
Definition ProtectedRoute (children : Page) (p : Provider) : Element :=
  if isLoading p then Spinner
  else if isAuthenticated p then Render children else Navigate Login.

(** The [element] of each route. *)
Definition element (r : Route) (p : Provider) : Element :=
  match r with
  | Root => Render HomePage
  | Login => if isAuthenticated p then Navigate Dashboard else Render LoginPage
  | Register => if isAuthenticated p then Navigate Dashboard else Render RegisterPage
  | Dashboard => ProtectedRoute DashboardPage p
  | Invoices => ProtectedRoute InvoicesPage p
  | InvoicesCreate => ProtectedRoute CreateInvoicePage p
  | InvoicesId => ProtectedRoute ViewInvoicePage p
  | InvoicesEditId => ProtectedRoute CreateInvoicePage p
  | Clients => ProtectedRoute ClientsPage p
  | Settings => ProtectedRoute SettingsPage p
  end.

(** The pages written outside a [ProtectedRoute]. *)
Definition open_page (page : Page) : bool :=
  match page with
  | HomePage | LoginPage | RegisterPage => true
  | _ => false
  end.

(** The provider when it mounts, over a client [a]. *)
Definition mounted (a : ApiState) : Provider :=
  {| user := None; isLoading := true; api := a |}.

(** The provider once loaded, with nobody signed in. *)
Definition visitor (a : ApiState) : Provider :=
  {| user := None; isLoading := false; api := a |}.

(** The provider once loaded, with [u] signed in. *)
Definition member (u : Auth.User) (a : ApiState) : Provider :=
  {| user := Some u; isLoading := false; api := a |}.

Definition ada : Auth.User :=
  Auth.mkUser 1 "Ada" "ada@example.com" "12 Mill Lane" "555-0100" "" "" "".

End App.

(** ** [src/pages/LoginPage.tsx] *)

Module LoginPage.
Import Api Auth.

(** What the submit handler does: a navigation, a success toast, an error
    toast with the [autoClose] option when it is given. *)
Inductive Effect :=
| NavigateTo (path : string)
| ToastSuccess (text : string)
| ToastError (text : string) (autoClose : option Z).

Definition deactivated_notice : string :=
  "Your account has been deactivated. You can restore it by registering again with the same email.".

Section WithMessages.

(** The [message] axios gave an error, and the one the engine gives the
    [TypeError] of a member read on [null]. *)
Variable axios_message : AxiosError → string.
Variable engine_message : string.

(** [error.message], for an [Error]. *)
Definition message (error : Err) : option string :=
  match error with
  | AxiosErr e => Some (axios_message e)
  | NewError m => Some m
  | TypeErr => Some engine_message
  | NonError _ => None
  end.

(** The [catch] block of [onSubmit] (lines 37-49). *)
Definition onSubmit_catch (error : Err) : list Effect :=
  if instanceof_Error error
     && bool_decide (message error = Some "ACCOUNT_DEACTIVATED")
  then [ToastError deactivated_notice (Some 8000)]
  else
    let errorMessage :=
      match message error with
      | Some m => if instanceof_Error error then m else "Invalid credentials"
      | None => "Invalid credentials"
      end in
    [ToastError errorMessage None].

(** [onSubmit] (lines 31-53), over the [login] of the context. *)
Definition onSubmit (signIn : Outcome AuthTokens) (getCurrentUser : Outcome User)
    (st : AuthState) : AuthState * list Effect :=
  match login signIn getCurrentUser st with
  | (st', Returned _) => (st', [NavigateTo "/dashboard"; ToastSuccess "Login successful!"])
  | (st', Threw error) => (st', onSubmit_catch error)
  end.

End WithMessages.

End LoginPage.

(** ** Reading the log *)

Module Trace.
Import Api.

(** The configs given to [this.api], in call order. *)
Definition replayed (e : Effect) : option Request :=
  match e with
  | Replay r => Some r
  | _ => None
  end.
Definition replays (l : list Effect) : list Request := omap replayed l.

(** The promises rejected, a handler's own and the waiters', in order,
    each with the request it belongs to and the value it rejects with. *)
Definition rejected (e : Effect) : option (Request * Err) :=
  match e with
  | Reject r x => Some (r, x)
  | RejectWaiter r x => Some (r, x)
  | _ => None
  end.
Definition rejects (l : list Effect) : list (Request * Err) := omap rejected l.

End Trace.

(** * Properties of the API client *)

Module ApiFacts.
Import Api.

(** ** The monad's primitives in closed form *)

Lemma logged_nil s : logged [] s = s.
Proof. destruct s. unfold logged. simpl. by rewrite app_nil_r. Qed.

Lemma logged_logged l1 l2 s : logged l2 (logged l1 s) = logged (l1 ++ l2) s.
Proof. unfold logged. simpl. by rewrite app_assoc. Qed.

Lemma forEach_reject e q s :
  forEach (reject_waiter e) q s = (tt, logged (map (λ w, RejectWaiter w e) q) s).
Proof.
  revert s. induction q as [|w q IH]; intros s; simpl.
  - by rewrite logged_nil.
  - unfold mbind, M_bind, reject_waiter, emit, modify. simpl.
    rewrite IH, logged_logged. reflexivity.
Qed.

Lemma forEach_resolve q s :
  forEach resolve_waiter q s =
  (tt, {| baseURL := baseURL s; isRefreshing := isRefreshing s;
          failedQueue := failedQueue s; localStorage := localStorage s;
          parked := parked s; microtasks := microtasks s ++ q;
          log := log s ++ map ResolveWaiter q |}).
Proof.
  revert s. induction q as [|w q IH]; intros s; simpl.
  - destruct s; simpl. by rewrite !app_nil_r.
  - unfold mbind, M_bind, resolve_waiter, emit, modify, gets, write_microtasks.
    simpl. rewrite IH. simpl. by rewrite <- !app_assoc.
Qed.

Lemma forEach_waiter_then t s :
  forEach waiter_then t s =
  (tt, logged (map (λ w, Replay (with_Authorization
                                   (Js.bearer (Js.template_null (localStorage s !! "access_token")))
                                   w)) t) s).
Proof.
  revert s. induction t as [|w t IH]; intros s; simpl.
  - by rewrite logged_nil.
  - unfold mbind, M_bind, waiter_then, getItem, emit, modify, gets. simpl.
    rewrite IH, logged_logged. reflexivity.
Qed.

Lemma processQueue_reject e s :
  processQueue (Some e) s =
  (tt, {| baseURL := baseURL s; isRefreshing := isRefreshing s;
          failedQueue := []; localStorage := localStorage s;
          parked := parked s; microtasks := microtasks s;
          log := log s ++ map (λ w, RejectWaiter w e) (failedQueue s) |}).
Proof.
  unfold processQueue, mbind, M_bind, gets. simpl.
  change (λ w, reject_waiter e w) with (reject_waiter e).
  rewrite forEach_reject. reflexivity.
Qed.

Lemma processQueue_resolve s :
  processQueue None s =
  (tt, {| baseURL := baseURL s; isRefreshing := isRefreshing s;
          failedQueue := []; localStorage := localStorage s;
          parked := parked s; microtasks := microtasks s ++ failedQueue s;
          log := log s ++ map ResolveWaiter (failedQueue s) |}).
Proof.
  unfold processQueue, mbind, M_bind, gets. simpl.
  change (λ w, resolve_waiter w) with resolve_waiter.
  rewrite forEach_resolve. reflexivity.
Qed.

Lemma drain_idle s : microtasks s = [] → drain s = (tt, s).
Proof.
  intros H. unfold drain, mbind, M_bind, gets, write_microtasks, modify.
  rewrite H. simpl. destruct s; simpl in *. by subst.
Qed.

(** ** The handler, branch by branch *)

Ltac unfold_m :=
  cbv [mbind M_bind mret M_ret gets modify emit logged exec
       write_isRefreshing write_failedQueue write_localStorage write_parked
       write_microtasks set_isRefreshing getItem setItem removeItem
       push_waiter park logout];
  cbn [fst snd baseURL isRefreshing failedQueue localStorage parked microtasks log].

Lemma onRejected_pass error s :
  status_is_401 error = false ∨ _retry (config error) = true →
  onRejected error s = (tt, logged [Reject (config error) (AxiosErr error)] s).
Proof.
  intros H. unfold onRejected.
  destruct H as [-> | ->]; [reflexivity|].
  by rewrite andb_false_r.
Qed.

Lemma onRejected_auth error s :
  status_is_401 error = true →
  is_auth_endpoint (url (config error)) = true →
  onRejected error s = (tt, logged [Reject (config error) (AxiosErr error)] s).
Proof.
  intros H401 Hauth. unfold onRejected. rewrite H401, Hauth.
  by destruct (_retry (config error)).
Qed.

Lemma onRejected_queue error s :
  expired error → isRefreshing s = true →
  onRejected error s =
  (tt, {| baseURL := baseURL s; isRefreshing := isRefreshing s;
          failedQueue := failedQueue s ++ [config error];
          localStorage := localStorage s; parked := parked s;
          microtasks := microtasks s; log := log s |}).
Proof.
  intros (H401 & Hretry & Hauth) Hflag. unfold onRejected.
  rewrite H401, Hretry, Hauth. simpl. unfold_m.
  rewrite Hflag. simpl. by rewrite ?Hflag.
Qed.

Lemma onRejected_refresh error s rt :
  expired error → isRefreshing s = false →
  localStorage s !! "refresh_token" = Some rt → rt ≠ "" →
  onRejected error s =
  (tt, {| baseURL := baseURL s; isRefreshing := true;
          failedQueue := failedQueue s; localStorage := localStorage s;
          parked := parked s ++ [with_retry (config error)];
          microtasks := microtasks s;
          log := log s ++ [SetRefreshing true;
                           PostRefresh (baseURL s +:+ "/v1/protected/auth/refresh-token") rt] |}).
Proof.
  intros (H401 & Hretry & Hauth) Hflag Hrt Hne. unfold onRejected.
  rewrite H401, Hretry, Hauth. simpl. unfold_m.
  rewrite Hflag. cbn. rewrite Hrt. simpl.
  destruct (String.eqb_spec rt ""); [done|]. simpl.
  by rewrite <- app_assoc.
Qed.

Lemma onRejected_no_token error s :
  expired error → isRefreshing s = false →
  Js.truthy (localStorage s !! "refresh_token") = false →
  onRejected error s =
  (tt, {| baseURL := baseURL s; isRefreshing := true;
          failedQueue := failedQueue s;
          localStorage := delete "refresh_token" (delete "access_token" (localStorage s));
          parked := parked s; microtasks := microtasks s;
          log := log s ++
            [SetRefreshing true; RemoveItem "access_token";
             RemoveItem "refresh_token"; Navigate "/login";
             Reject (with_retry (config error))
                    (AxiosErr {| response := response error;
                                 config := with_retry (config error) |})] |}).
Proof.
  intros (H401 & Hretry & Hauth) Hflag Hrt. unfold onRejected.
  rewrite H401, Hretry, Hauth. simpl. unfold_m.
  rewrite Hflag. cbn. rewrite Hrt. simpl.
  by rewrite <- !app_assoc.
Qed.

Lemma resume_fulfilled h result tok s :
  awaited result = inr tok →
  resume h result s =
  (tt, {| baseURL := baseURL s; isRefreshing := false; failedQueue := [];
          localStorage := <["access_token" := Js.template_undefined tok]> (localStorage s);
          parked := parked s; microtasks := microtasks s ++ failedQueue s;
          log := log s ++
            SetItem "access_token" (Js.template_undefined tok) ::
            map ResolveWaiter (failedQueue s) ++
            [Replay (with_Authorization (Js.bearer (Js.template_undefined tok)) h);
             SetRefreshing false] |}).
Proof.
  intros Hok. unfold resume. rewrite Hok. unfold_m.
  rewrite processQueue_resolve. simpl.
  f_equal. f_equal. rewrite <- !app_assoc. simpl. reflexivity.
Qed.

Lemma resume_failed h result err s :
  awaited result = inl err →
  resume h result s =
  (tt, {| baseURL := baseURL s; isRefreshing := false; failedQueue := [];
          localStorage := delete "refresh_token" (delete "access_token" (localStorage s));
          parked := parked s; microtasks := microtasks s;
          log := log s ++
            map (λ w, RejectWaiter w (as_Error err)) (failedQueue s) ++
            [RemoveItem "access_token"; RemoveItem "refresh_token";
             Navigate "/login"; Reject h err; SetRefreshing false] |}).
Proof.
  intros Hko. unfold resume. rewrite Hko. unfold_m.
  rewrite processQueue_reject. simpl.
  f_equal. f_equal. rewrite <- !app_assoc. simpl. reflexivity.
Qed.

(** ** Whole tasks *)

Lemma step_ResponseError error s :
  microtasks s = [] →
  step (ResponseError error) s = Some (exec (onRejected error) s).
Proof.
  intros Hm. unfold step, exec. f_equal.
  change ((onRejected error ;; drain) s)
    with (let '(_, s') := onRejected error s in drain s').
  destruct (onRejected error s) as [[] s'] eqn:E. simpl.
  assert (microtasks s' = []) as Hm'.
  { revert E. unfold onRejected.
    destruct (status_is_401 error && negb (_retry (config error)));
      [destruct (is_auth_endpoint (url (config error)))|];
      unfold_m; try (intros [= <-]; exact Hm).
    destruct (isRefreshing s); cbn; [intros [= <-]; exact Hm|].
    destruct (Js.truthy (localStorage s !! "refresh_token"));
      cbn; intros [= <-]; exact Hm. }
  by rewrite drain_idle.
Qed.

Lemma step_settled_ok s h rest result tok :
  microtasks s = [] → parked s = h :: rest → awaited result = inr tok →
  step (RefreshSettled result) s =
  Some {| baseURL := baseURL s; isRefreshing := false; failedQueue := [];
          localStorage := <["access_token" := Js.template_undefined tok]> (localStorage s);
          parked := rest; microtasks := [];
          log := log s ++
            SetItem "access_token" (Js.template_undefined tok) ::
            map ResolveWaiter (failedQueue s) ++
            [Replay (with_Authorization (Js.bearer (Js.template_undefined tok)) h);
             SetRefreshing false] ++
            map (λ w, Replay (with_Authorization
                                (Js.bearer (Js.template_undefined tok)) w))
                (failedQueue s) |}.
Proof.
  intros Hm Hp Hok. unfold step. rewrite Hp. f_equal.
  unfold exec. unfold mbind at 1 2. unfold M_bind. unfold write_parked, modify.
  rewrite (resume_fulfilled _ _ tok) by done. cbn.
  unfold drain. unfold_m. rewrite forEach_waiter_then. unfold logged. cbn.
  rewrite lookup_insert_eq, Hm. cbn.
  f_equal. repeat (rewrite <- app_assoc || rewrite <- app_comm_cons).
  reflexivity.
Qed.

Lemma step_settled_failed s h rest result err :
  microtasks s = [] → parked s = h :: rest → awaited result = inl err →
  step (RefreshSettled result) s =
  Some {| baseURL := baseURL s; isRefreshing := false; failedQueue := [];
          localStorage := delete "refresh_token" (delete "access_token" (localStorage s));
          parked := rest; microtasks := [];
          log := log s ++
            map (λ w, RejectWaiter w (as_Error err)) (failedQueue s) ++
            [RemoveItem "access_token"; RemoveItem "refresh_token";
             Navigate "/login"; Reject h err; SetRefreshing false] |}.
Proof.
  intros Hm Hp Hko. unfold step. rewrite Hp. f_equal.
  unfold exec. unfold mbind at 1 2. unfold M_bind. unfold write_parked, modify.
  rewrite (resume_failed _ _ err) by done. cbn.
  rewrite drain_idle by done. cbn. by rewrite Hm.
Qed.

Lemma truthy_Some (v : option string) :
  Js.truthy v = true → ∃ t, v = Some t ∧ t ≠ "".
Proof.
  destruct v as [t|]; simpl; [|done].
  destruct (String.eqb_spec t ""); [done|]. eauto.
Qed.

(** The five ways the handler can go. *)
Lemma onRejected_cases error s :
  exec (onRejected error) s = logged [Reject (config error) (AxiosErr error)] s
  ∨ expired error ∧
    ( isRefreshing s = true
    ∨ isRefreshing s = false ∧
      ( (∃ rt, localStorage s !! "refresh_token" = Some rt ∧ rt ≠ "")
      ∨ Js.truthy (localStorage s !! "refresh_token") = false)).
Proof.
  destruct (status_is_401 error) eqn:H401;
    [|left; unfold exec; by rewrite onRejected_pass by auto].
  destruct (_retry (config error)) eqn:Hretry;
    [left; unfold exec; by rewrite onRejected_pass by auto|].
  destruct (is_auth_endpoint (url (config error))) eqn:Hauth;
    [left; unfold exec; by rewrite onRejected_auth by auto|].
  right. split; [done|].
  destruct (isRefreshing s); [by left|right; split; [done|]].
  destruct (Js.truthy (localStorage s !! "refresh_token")) eqn:Ht; [|by right].
  left. by apply truthy_Some.
Qed.

(** ** Coherence is an invariant *)

Lemma coherent_init base ls : coherent (init base ls).
Proof. repeat split; simpl; lia. Qed.

Lemma coherent_step ev s s' : coherent s → step ev s = Some s' → coherent s'.
Proof.
  intros (Hm & Hp & Hidle) Hstep. destruct ev as [error|result|a r|].
  - rewrite step_ResponseError in Hstep by done. injection Hstep as <-.
    destruct (onRejected_cases error s) as [->|[Hexp [Hflag|[Hflag [(rt&Hrt&Hne)|Hno]]]]].
    + done.
    + unfold exec. rewrite onRejected_queue by done.
      split; [done|split; [done|]]. simpl. congruence.
    + unfold exec. rewrite (onRejected_refresh _ _ rt) by done.
      destruct (Hidle Hflag) as [_ Hnone].
      split; [done|split; simpl; [rewrite Hnone; simpl; lia|done]].
    + unfold exec. rewrite onRejected_no_token by done.
      split; [done|split; [done|]]. simpl. done.
  - destruct (parked s) as [|h rest] eqn:Hpk.
    { unfold step in Hstep. by rewrite Hpk in Hstep. }
    assert (rest = []) as -> by (destruct rest; simpl in Hp; [done|lia]).
    destruct (awaited result) as [err|tok] eqn:Haw.
    + rewrite (step_settled_failed s h [] result err) in Hstep by done.
      injection Hstep as <-. repeat split; simpl; lia.
    + rewrite (step_settled_ok s h [] result tok) in Hstep by done.
      injection Hstep as <-. repeat split; simpl; lia.
  - injection Hstep as <-. unfold_m. done.
  - injection Hstep as <-. unfold_m. done.
Qed.

Lemma coherent_run evs s s' : coherent s → run evs s = Some s' → coherent s'.
Proof.
  revert s. induction evs as [|ev evs IH]; intros s Hc; simpl.
  - by intros [= <-].
  - destruct (step ev s) as [s1|] eqn:E; [|done].
    intros Hrun. eapply IH; [|done]. by eapply coherent_step.
Qed.

(** X1. Single flight as an invariant. In every state the client can reach
    from a fresh [ApiService], whatever the storage it starts with and
    whatever responses, refresh outcomes, logins and logouts it is given,
    at most one handler waits for a refresh call; and while the flag is
    down the queue is empty and no handler waits. *)
Theorem at_most_one_refresh_in_flight s :
  reachable s →
  (length (parked s) ≤ 1)%nat ∧
  (isRefreshing s = false → failedQueue s = [] ∧ parked s = []).
Proof.
  intros (base & ls & evs & Hrun).
  assert (coherent s) as (_ & Hp & Hidle)
    by (eapply coherent_run; [apply coherent_init|done]).
  done.
Qed.

Lemma at_most_one_refresh_in_flight_witness :
  (length (parked refreshing) ≤ 1)%nat ∧
  (isRefreshing refreshing = false →
   failedQueue refreshing = [] ∧ parked refreshing = []).
Proof.
  apply (at_most_one_refresh_in_flight refreshing).
  exists "http://localhost:8080", signed_in,
    [ResponseError (failed_with 401 me_request);
     ResponseError (failed_with 401 clients_request)].
  vm_compute. reflexivity.
Defined.

(** ** Counting over the log *)

Lemma refresh_calls_app l1 l2 :
  refresh_calls (l1 ++ l2) = (refresh_calls l1 + refresh_calls l2)%nat.
Proof. unfold refresh_calls. by rewrite List.filter_app, length_app. Qed.

Lemma redirects_app l1 l2 :
  redirects (l1 ++ l2) = (redirects l1 + redirects l2)%nat.
Proof. unfold redirects. by rewrite List.filter_app, length_app. Qed.

Lemma refresh_calls_rejections (f : Request → Effect) q :
  (∀ w, is_PostRefresh (f w) = false) → refresh_calls (map f q) = 0%nat.
Proof.
  intros Hf. unfold refresh_calls.
  induction q as [|w q IH]; simpl; [done|]. by rewrite Hf.
Qed.

Lemma redirects_rejections (f : Request → Effect) q :
  (∀ w, is_Navigate (f w) = false) → redirects (map f q) = 0%nat.
Proof.
  intros Hf. unfold redirects.
  induction q as [|w q IH]; simpl; [done|]. by rewrite Hf.
Qed.

(** ** Single flight *)

(** While a refresh is in flight, expired requests only join the queue. *)
Lemma burst_queued es s :
  microtasks s = [] → isRefreshing s = true → Forall expired es →
  run (map ResponseError es) s =
  Some {| baseURL := baseURL s; isRefreshing := isRefreshing s;
          failedQueue := failedQueue s ++ map config es;
          localStorage := localStorage s; parked := parked s;
          microtasks := microtasks s; log := log s |}.
Proof.
  revert s. induction es as [|e es IH]; intros s Hm Hflag Hes.
  - simpl. destruct s; simpl. by rewrite app_nil_r.
  - inversion_clear Hes as [|? ? He Hes'].
    cbn [map run]. rewrite step_ResponseError by done.
    unfold exec. rewrite onRejected_queue by done. cbn [snd].
    rewrite IH by done. cbn. by rewrite <- app_assoc.
Qed.

(** C1. Single-flight refresh. In a coherent state with no refresh in
    flight and a refresh token in storage, a burst of N >= 1 expired
    requests (HTTP 401, not retried, not an authentication endpoint)
    handled before the refresh settles issues exactly one call to the
    refresh endpoint: the first handler writes [isRefreshing = true] and
    then dispatches the call, in one synchronous stretch, and parks at the
    [await]; each later handler finds the flag set, joins [failedQueue]
    in arrival order, and logs nothing. Storage is not touched. *)
Theorem single_flight_burst s e es rt :
  coherent s → isRefreshing s = false →
  localStorage s !! "refresh_token" = Some rt → rt ≠ "" →
  expired e → Forall expired es →
  ∃ s', run (map ResponseError (e :: es)) s = Some s' ∧
        refresh_calls (log s') = S (refresh_calls (log s)) ∧
        log s' = (log s ++ [SetRefreshing true;
                           PostRefresh (baseURL s +:+ "/v1/protected/auth/refresh-token") rt])%list ∧
        isRefreshing s' = true ∧
        failedQueue s' = map config es ∧
        parked s' = [with_retry (config e)] ∧
        localStorage s' = localStorage s.
Proof.
  intros (Hm & _ & Hidle) Hflag Hrt Hne He Hes.
  destruct (Hidle Hflag) as [Hq Hp].
  cbn [map run]. rewrite step_ResponseError by done.
  unfold exec. rewrite (onRejected_refresh _ _ rt) by done. cbn [snd].
  rewrite burst_queued by done.
  eexists. split; [reflexivity|].
  cbn [baseURL isRefreshing failedQueue localStorage parked microtasks log].
  rewrite Hq, Hp, refresh_calls_app. repeat split; try done.
  unfold refresh_calls at 2. simpl. lia.
Qed.

Lemma single_flight_burst_witness :
  ∃ s', run (map ResponseError [failed_with 401 me_request;
                                failed_with 401 clients_request;
                                failed_with 401 me_request])
            (init "http://localhost:8080" signed_in) = Some s' ∧
        refresh_calls (log s') = 1%nat ∧
        log s' = [SetRefreshing true;
                  PostRefresh "http://localhost:8080/v1/protected/auth/refresh-token" "R1"] ∧
        isRefreshing s' = true ∧
        failedQueue s' = [clients_request; me_request] ∧
        parked s' = [with_retry me_request] ∧
        localStorage s' = signed_in.
Proof.
  apply (single_flight_burst (init "http://localhost:8080" signed_in)
           (failed_with 401 me_request)
           [failed_with 401 clients_request; failed_with 401 me_request] "R1").
  - apply coherent_init.
  - reflexivity.
  - reflexivity.
  - discriminate.
  - repeat split; reflexivity.
  - repeat constructor; reflexivity.
Defined.

Lemma flag_up_no_refresh errors s s' :
  coherent s → isRefreshing s = true →
  run (map ResponseError errors) s = Some s' →
  isRefreshing s' = true ∧ refresh_calls (log s') = refresh_calls (log s).
Proof.
  revert s. induction errors as [|error errors IH]; intros s Hc Hflag; cbn [map run].
  - by intros [= <-].
  - destruct (step (ResponseError error) s) as [s1|] eqn:E; [|done]. intros Hrun.
    assert (coherent s1) as Hc1 by (by eapply coherent_step).
    destruct Hc as (Hm & _ & _).
    rewrite step_ResponseError in E by done. injection E as <-.
    destruct (onRejected_cases error s) as [Hpass|[Hexp [_|[Hflag' _]]]];
      [| |congruence].
    + rewrite Hpass in Hc1, Hrun.
      destruct (IH _ Hc1 Hflag Hrun) as [? Hn]. split; [done|].
      rewrite Hn. cbn [logged log]. rewrite refresh_calls_app.
      unfold refresh_calls at 2. simpl. lia.
    + unfold exec in Hc1, Hrun. rewrite onRejected_queue in Hc1, Hrun by done.
      cbn [snd] in Hc1, Hrun.
      by destruct (IH _ Hc1 Hflag Hrun) as [? Hn].
Qed.

(** X6. Whatever the failures of a burst are, and whatever storage holds, the
    handlers that run before a refresh settles issue at most one refresh
    call between them. *)
Theorem burst_issues_at_most_one_refresh errors s s' :
  coherent s →
  run (map ResponseError errors) s = Some s' →
  (refresh_calls (log s') ≤ S (refresh_calls (log s)))%nat.
Proof.
  revert s. induction errors as [|error errors IH]; intros s Hc; cbn [map run].
  - intros [= <-]. lia.
  - destruct (step (ResponseError error) s) as [s1|] eqn:E; [|done]. intros Hrun.
    assert (coherent s1) as Hc1 by (by eapply coherent_step).
    destruct (isRefreshing s) eqn:Hflag.
    { assert (run (map ResponseError (error :: errors)) s = Some s') as Hall
        by (cbn [map run]; by rewrite E).
      destruct (flag_up_no_refresh _ _ _ Hc Hflag Hall) as [_ ->]. lia. }
    destruct Hc as (Hm & _ & _).
    rewrite step_ResponseError in E by done. injection E as <-.
    destruct (onRejected_cases error s)
      as [Hpass|[Hexp [?|[_ [(rt&Hrt&Hne)|Hno]]]]]; [| congruence | |].
    + rewrite Hpass in Hc1, Hrun. specialize (IH _ Hc1 Hrun).
      revert IH. cbn [logged log]. rewrite refresh_calls_app.
      unfold refresh_calls at 3. simpl. lia.
    + unfold exec in Hc1, Hrun.
      rewrite (onRejected_refresh _ _ rt) in Hc1, Hrun by done.
      cbn [snd] in Hc1, Hrun.
      destruct (flag_up_no_refresh _ _ _ Hc1 eq_refl Hrun) as [_ ->].
      cbn [log]. rewrite refresh_calls_app. unfold refresh_calls at 2. simpl. lia.
    + unfold exec in Hc1, Hrun.
      rewrite onRejected_no_token in Hc1, Hrun by done.
      cbn [snd] in Hc1, Hrun.
      destruct (flag_up_no_refresh _ _ _ Hc1 eq_refl Hrun) as [_ ->].
      cbn [log]. rewrite refresh_calls_app. unfold refresh_calls at 2. simpl. lia.
Qed.

Lemma burst_issues_at_most_one_refresh_witness :
  ∃ s', run (map ResponseError [failed_with 401 sign_in_request;
                                failed_with 500 me_request;
                                failed_with 401 me_request;
                                failed_with 401 clients_request])
            (init "http://localhost:8080" signed_in) = Some s' ∧
        (refresh_calls (log s') ≤ 1)%nat.
Proof.
  destruct (run (map ResponseError [failed_with 401 sign_in_request;
                                    failed_with 500 me_request;
                                    failed_with 401 me_request;
                                    failed_with 401 clients_request])
                (init "http://localhost:8080" signed_in)) as [s'|] eqn:E;
    [|vm_compute in E; discriminate].
  exists s'. split; [reflexivity|].
  apply (burst_issues_at_most_one_refresh
           [failed_with 401 sign_in_request; failed_with 500 me_request;
            failed_with 401 me_request; failed_with 401 clients_request]
           (init "http://localhost:8080" signed_in) s').
  - apply coherent_init.
  - exact E.
Defined.

(** ** Failures that do not start a refresh *)

(** C5. Authentication endpoints are exempt. When a request whose URL
    contains the sign-in, sign-up or refresh-token path fails with HTTP
    401, the handler rejects at once with the error it was given and
    changes nothing else: the flag, the queue, the stored tokens and the
    parked handlers are as before, no refresh call and no redirect is
    logged. *)
Theorem auth_endpoint_exemption s error u :
  status_is_401 error = true →
  url (config error) = Some u →
  Js.includes u "/auth/sign-in" = true ∨
  Js.includes u "/auth/sign-up" = true ∨
  Js.includes u "/auth/refresh-token" = true →
  exec (onRejected error) s = logged [Reject (config error) (AxiosErr error)] s.
Proof.
  intros H401 Hu Hauth. unfold exec. rewrite onRejected_auth; [done..|].
  unfold is_auth_endpoint. rewrite Hu.
  destruct Hauth as [->|[->| ->]]; by rewrite ?orb_true_r.
Qed.

Lemma auth_endpoint_exemption_witness :
  exec (onRejected (failed_with 401 sign_in_request))
       (init "http://localhost:8080" signed_in)
  = logged [Reject sign_in_request (AxiosErr (failed_with 401 sign_in_request))]
           (init "http://localhost:8080" signed_in).
Proof.
  apply (auth_endpoint_exemption (init "http://localhost:8080" signed_in)
           (failed_with 401 sign_in_request) "/v1/public/auth/sign-in").
  - reflexivity.
  - reflexivity.
  - left. reflexivity.
Defined.

(** C6. Other failures pass through. A failure whose status is not 401
    (or that has no response at all), and a 401 on a request already
    marked [_retry], is rejected with the error object the handler was
    given; the flag, the queue, the stored tokens and the parked handlers
    are as before, and neither a refresh call nor a redirect is logged. *)
Theorem non_401_pass_through s error :
  status_is_401 error = false ∨ _retry (config error) = true →
  exec (onRejected error) s = logged [Reject (config error) (AxiosErr error)] s.
Proof. intros H. unfold exec. by rewrite onRejected_pass. Qed.

Lemma non_401_pass_through_witness :
  exec (onRejected (failed_with 500 me_request)) (init "http://localhost:8080" signed_in)
  = logged [Reject me_request (AxiosErr (failed_with 500 me_request))]
           (init "http://localhost:8080" signed_in)
  ∧ exec (onRejected (failed_with 401 (with_retry me_request)))
         (init "http://localhost:8080" signed_in)
    = logged [Reject (with_retry me_request)
                     (AxiosErr (failed_with 401 (with_retry me_request)))]
             (init "http://localhost:8080" signed_in).
Proof.
  split.
  - apply (non_401_pass_through _ (failed_with 500 me_request)).
    left. reflexivity.
  - apply (non_401_pass_through _ (failed_with 401 (with_retry me_request))).
    right. reflexivity.
Defined.

(** ** A refresh that fails *)

(** C2. Refresh-failure semantics. In a coherent state, when the refresh
    started by a 401 ends in failure - its HTTP call rejects or returns a
    body that cannot be read, or the handler finds no refresh token in
    storage - the task leaves [access_token] and [refresh_token] absent
    from storage, rejects every waiter that was in [failedQueue] and
    empties the queue, assigns the sign-in page to the location exactly
    once, rejects the caller whose 401 started the refresh, and issues no
    refresh call. *)
Theorem refresh_failure_semantics s ev caller failure waiter_failure :
  coherent s →
  refresh_fails s ev caller failure waiter_failure →
  ∃ s', step ev s = Some s' ∧ failure_outcome s s' caller failure waiter_failure.
Proof.
  intros (Hm & Hp & Hidle) Hfail.
  destruct Hfail as [h rest result err Hpk Haw|error Hexp Hflag Hno].
  - rewrite (step_settled_failed s h rest result err) by done.
    eexists. split; [reflexivity|].
    unfold failure_outcome.
    cbn [baseURL isRefreshing failedQueue localStorage parked microtasks log].
    split; [by rewrite lookup_delete_ne, lookup_delete_eq|].
    split; [by rewrite lookup_delete_eq|].
    split; [done|].
    eexists. split; [reflexivity|].
    split; [|split; [|split; [|split]]].
    + apply List.Forall_forall. intros w Hw.
      apply List.in_app_iff. left.
      apply List.in_map_iff. by exists w.
    + apply List.in_app_iff. right. simpl. auto.
    + rewrite redirects_app, redirects_rejections by done. reflexivity.
    + apply List.in_app_iff. right. simpl. auto.
    + rewrite refresh_calls_app, refresh_calls_rejections by done. reflexivity.
  - rewrite step_ResponseError by done.
    eexists. split; [reflexivity|].
    unfold exec. rewrite onRejected_no_token by done.
    destruct (Hidle Hflag) as [Hq _].
    unfold failure_outcome.
    cbn [snd baseURL isRefreshing failedQueue localStorage parked microtasks log].
    split; [by rewrite lookup_delete_ne, lookup_delete_eq|].
    split; [by rewrite lookup_delete_eq|].
    split; [done|].
    eexists. split; [reflexivity|].
    rewrite Hq. split; [constructor|].
    simpl. unfold redirects, refresh_calls. simpl. auto 10.
Qed.

Lemma refresh_failure_semantics_witness :
  (∃ s', step (RefreshSettled (RejectedWith (NewError "Network Error"))) refreshing
         = Some s' ∧
         failure_outcome refreshing s' (with_retry me_request)
           (NewError "Network Error") (NewError "Network Error"))
  ∧ (∃ s', step (ResponseError (failed_with 401 me_request))
                (init "http://localhost:8080" ∅) = Some s' ∧
           failure_outcome (init "http://localhost:8080" ∅) s'
             (with_retry me_request)
             (AxiosErr (failed_with 401 (with_retry me_request)))
             (AxiosErr (failed_with 401 (with_retry me_request)))).
Proof.
  split.
  - apply (refresh_failure_semantics refreshing
             (RefreshSettled (RejectedWith (NewError "Network Error")))).
    + split; [reflexivity|]. split; [simpl; lia|]. simpl. discriminate.
    + apply (call_fails _ (with_retry me_request) [] _ (NewError "Network Error"));
        reflexivity.
  - apply (refresh_failure_semantics (init "http://localhost:8080" ∅)
             (ResponseError (failed_with 401 me_request))).
    + apply coherent_init.
    + apply (no_refresh_token _ (failed_with 401 me_request)).
      * repeat split; reflexivity.
      * reflexivity.
      * reflexivity.
Defined.

(** ** The flag's lifecycle *)

(** X2. Once a dispatched refresh settles, either way, the flag is down, the
    queue is empty, and every waiter was settled once: all resolved or
    all rejected. *)
Lemma refresh_settled_resets_flag s h rest result :
  coherent s → parked s = h :: rest →
  ∃ s', step (RefreshSettled result) s = Some s' ∧
        isRefreshing s' = false ∧ failedQueue s' = [] ∧
        ∃ l : list Effect, log s' = (log s ++ l)%list ∧
          settlements l = length (failedQueue s) ∧
          (Forall (λ w, In (ResolveWaiter w) l) (failedQueue s) ∧
             rejections l = 0%nat
           ∨ Forall (λ w, ∃ e, In (RejectWaiter w e) l) (failedQueue s) ∧
             rejections l = length (failedQueue s)).
Proof.
  intros (Hm & _ & _) Hpk.
  destruct (awaited result) as [err|tok] eqn:Haw.
  - rewrite (step_settled_failed s h rest result err) by done.
    eexists. split; [reflexivity|]. cbn [isRefreshing failedQueue log].
    split; [done|]. split; [done|].
    eexists. split; [reflexivity|].
    unfold settlements, rejections.
    rewrite !List.filter_app, !length_app. cbn [List.filter length is_settlement is_rejection].
    assert (∀ q : list Request,
               List.filter is_settlement (map (λ w, RejectWaiter w (as_Error err)) q)
               = map (λ w, RejectWaiter w (as_Error err)) q) as Hs.
    { induction q as [|w q IH]; simpl; [done|]. by rewrite IH. }
    assert (∀ q : list Request,
               List.filter is_rejection (map (λ w, RejectWaiter w (as_Error err)) q)
               = map (λ w, RejectWaiter w (as_Error err)) q) as Hr.
    { induction q as [|w q IH]; simpl; [done|]. by rewrite IH. }
    rewrite Hs, Hr, length_map. split; [lia|]. right. split; [|lia].
    apply List.Forall_forall. intros w Hw. exists (as_Error err).
    apply List.in_app_iff. left. apply List.in_map_iff. by exists w.
  - rewrite (step_settled_ok s h rest result tok) by done.
    eexists. split; [reflexivity|]. cbn [isRefreshing failedQueue log].
    split; [done|]. split; [done|].
    eexists. split; [reflexivity|].
    unfold settlements, rejections.
    cbn [List.filter is_settlement is_rejection].
    rewrite !List.filter_app, !length_app. cbn [List.filter length is_settlement is_rejection].
    assert (∀ q : list Request,
               List.filter is_settlement (map ResolveWaiter q) = map ResolveWaiter q) as Hs.
    { induction q as [|w q IH]; simpl; [done|]. by rewrite IH. }
    assert (∀ (f : Request → Request) (q : list Request),
               List.filter is_settlement (map (λ w, Replay (f w)) q) = []) as Hs'.
    { induction q as [|w q IH]; simpl; done. }
    assert (∀ q : list Request,
               List.filter is_rejection (map ResolveWaiter q) = []) as Hr.
    { induction q as [|w q IH]; simpl; done. }
    assert (∀ (f : Request → Request) (q : list Request),
               List.filter is_rejection (map (λ w, Replay (f w)) q) = []) as Hr'.
    { induction q as [|w q IH]; simpl; done. }
    rewrite Hs, Hr, length_map.
    rewrite (Hs' (with_Authorization (Js.bearer (Js.template_undefined tok)))).
    rewrite (Hr' (with_Authorization (Js.bearer (Js.template_undefined tok)))).
    simpl. split; [lia|]. left. split; [|done].
    apply List.Forall_forall. intros w Hw. right.
    apply List.in_app_iff. left. apply List.in_map_iff. by exists w.
Qed.

(** X3. With the flag up and no handler parked, nothing the client can be
    given brings the flag down or starts a refresh. *)
Lemma flag_stuck evs s s' :
  coherent s → isRefreshing s = true → parked s = [] →
  run evs s = Some s' →
  isRefreshing s' = true ∧ parked s' = [] ∧
  refresh_calls (log s') = refresh_calls (log s).
Proof.
  revert s. induction evs as [|ev evs IH]; intros s Hc Hflag Hpk; simpl.
  - by intros [= <-].
  - destruct (step ev s) as [s1|] eqn:E; [|done]. intros Hrun.
    assert (coherent s1) as Hc1 by (by eapply coherent_step).
    assert (isRefreshing s1 = true ∧ parked s1 = [] ∧
            refresh_calls (log s1) = refresh_calls (log s)) as (Hf1 & Hp1 & Hn1).
    { destruct Hc as (Hm & _ & _). destruct ev as [error|result|a r|].
      - rewrite step_ResponseError in E by done. injection E as <-.
        destruct (onRejected_cases error s)
          as [->|[Hexp [_|[Hflag' _]]]]; [| |congruence].
        + simpl. rewrite refresh_calls_app. unfold refresh_calls at 2. simpl.
          repeat split; try done; lia.
        + unfold exec. by rewrite onRejected_queue by done.
      - unfold step in E. by rewrite Hpk in E.
      - injection E as <-. unfold_m. rewrite !refresh_calls_app.
        unfold refresh_calls at 2 3. simpl. repeat split; try done; lia.
      - injection E as <-. unfold_m. rewrite !refresh_calls_app.
        unfold refresh_calls at 2 3. simpl. repeat split; try done; lia. }
    destruct (IH s1 Hc1 Hf1 Hp1 Hrun) as (? & ? & ?).
    repeat split; try done. congruence.
Qed.

Lemma refresh_settled_resets_flag_witness :
  ∃ s', step (RefreshSettled (Fulfilled (BodyFlat (Some "fresh")))) refreshing
        = Some s' ∧
        isRefreshing s' = false ∧ failedQueue s' = [] ∧
        ∃ l : list Effect, log s' = (log refreshing ++ l)%list ∧
          settlements l = length (failedQueue refreshing) ∧
          (Forall (λ w, In (ResolveWaiter w) l) (failedQueue refreshing) ∧
             rejections l = 0%nat
           ∨ Forall (λ w, ∃ e, In (RejectWaiter w e) l) (failedQueue refreshing) ∧
             rejections l = length (failedQueue refreshing)).
Proof.
  apply (refresh_settled_resets_flag refreshing (with_retry me_request) []).
  - split; [reflexivity|]. split; [simpl; lia|]. simpl. discriminate.
  - reflexivity.
Defined.

Lemma flag_stuck_witness :
  ∃ s', run [TokensStored "A2" "R2";
             ResponseError (failed_with 401 clients_request)] signed_out = Some s' ∧
        isRefreshing s' = true ∧ parked s' = [] ∧
        refresh_calls (log s') = refresh_calls (log signed_out).
Proof.
  destruct (run [TokensStored "A2" "R2";
                 ResponseError (failed_with 401 clients_request)] signed_out)
    as [s'|] eqn:E; [|vm_compute in E; discriminate].
  exists s'. split; [reflexivity|].
  apply (flag_stuck [TokensStored "A2" "R2";
                     ResponseError (failed_with 401 clients_request)] signed_out s').
  - split; [reflexivity|]. split; [simpl; lia|]. simpl. discriminate.
  - reflexivity.
  - reflexivity.
  - exact E.
Defined.

(** X4. [logout] removes both tokens and makes [isAuthenticated] answer false;
    it logs the two removals and nothing else, and leaves the refresh
    state alone. *)
Theorem logout_clears_tokens s :
  localStorage (exec logout s) !! "access_token" = None ∧
  localStorage (exec logout s) !! "refresh_token" = None ∧
  fst (isAuthenticated (exec logout s)) = false ∧
  log (exec logout s)
  = (log s ++ [RemoveItem "access_token"; RemoveItem "refresh_token"])%list ∧
  isRefreshing (exec logout s) = isRefreshing s ∧
  failedQueue (exec logout s) = failedQueue s ∧
  parked (exec logout s) = parked s.
Proof.
  unfold isAuthenticated. unfold_m.
  rewrite lookup_delete_ne, lookup_delete_eq by done.
  rewrite lookup_delete_eq. rewrite <- app_assoc. done.
Qed.

(** C3. The flag's lifecycle, at the input where the source departs from
    it. With no refresh token in storage, a 401 on a protected request
    writes [isRefreshing = true], clears storage, redirects, and returns
    without resetting the flag: the [finally] of line 103 belongs to the
    [try] of the other branch. After a new login has stored tokens, the
    next 401 is queued as a waiter, no refresh call is issued, and no
    handler is parked to release it. *)
Theorem no_refresh_token_leaves_flag_set :
  step (ResponseError (failed_with 401 me_request))
       (init "http://localhost:8080" ∅) = Some signed_out ∧
  isRefreshing signed_out = true ∧ parked signed_out = [] ∧
  ∃ s2,
    run [TokensStored "A2" "R2"; ResponseError (failed_with 401 clients_request)]
        signed_out = Some s2 ∧
    isRefreshing s2 = true ∧ failedQueue s2 = [clients_request] ∧
    parked s2 = [] ∧ refresh_calls (log s2) = 0%nat.
Proof.
  split; [vm_compute; reflexivity|]. split; [reflexivity|]. split; [reflexivity|].
  eexists. split; [reflexivity|]. repeat split; reflexivity.
Qed.

(** ** A refresh that succeeds *)

(** C4. Fresh-token replay. When the refresh call of the parked handler
    returns a body with access token [t], the task stores [t] under
    [access_token], and replays the request that started the refresh and
    every request waiting in [failedQueue]; each replayed config carries
    [Authorization: Bearer t], whatever token was stored before, and the
    request interceptor, reading storage afterwards, leaves that header
    in place. *)
Theorem fresh_token_replay s h rest b t :
  coherent s → parked s = h :: rest →
  read_access_token b = inr (Some t) →
  ∃ s', step (RefreshSettled (Fulfilled b)) s = Some s' ∧
        localStorage s' !! "access_token" = Some t ∧
        ∃ l : list Effect, log s' = (log s ++ l)%list ∧
          In (Replay (with_Authorization (Js.bearer t) h)) l ∧
          Forall (λ w, In (Replay (with_Authorization (Js.bearer t) w)) l)
                 (failedQueue s) ∧
          ∀ r, In (Replay r) l →
               Authorization r = Some (Js.bearer t) ∧
               Authorization (requestInterceptor (localStorage s') r)
               = Some (Js.bearer t).
Proof.
  intros (Hm & _ & _) Hpk Hb.
  rewrite (step_settled_ok s h rest (Fulfilled b) (Some t)) by done.
  eexists. split; [reflexivity|].
  cbn [baseURL isRefreshing failedQueue localStorage parked microtasks log
       Js.template_undefined].
  split; [by rewrite lookup_insert_eq|].
  eexists. split; [reflexivity|].
  split; [|split].
  - right. apply List.in_app_iff. right. left. reflexivity.
  - apply List.Forall_forall. intros w Hw. right.
    apply List.in_app_iff. right. right. right.
    apply List.in_map_iff. by exists w.
  - intros r Hr.
    assert (Authorization r = Some (Js.bearer t)) as Hhdr.
    { destruct Hr as [Hr|Hr]; [done|].
      apply List.in_app_iff in Hr. destruct Hr as [Hr|Hr].
      - apply List.in_map_iff in Hr. by destruct Hr as (w & ? & _).
      - destruct Hr as [[= <-]|[Hr|Hr]]; [done|done|].
        apply List.in_map_iff in Hr. by destruct Hr as (w & [= <-] & _). }
    split; [done|].
    unfold requestInterceptor. rewrite lookup_insert_eq.
    destruct (Js.truthy (Some t)); done.
Qed.

Lemma fresh_token_replay_witness :
  ∃ s', step (RefreshSettled (Fulfilled (BodyEnvelope (Some "fresh")))) refreshing
        = Some s' ∧
        localStorage s' !! "access_token" = Some "fresh" ∧
        ∃ l : list Effect, log s' = (log refreshing ++ l)%list ∧
          In (Replay (with_Authorization "Bearer fresh" (with_retry me_request))) l ∧
          Forall (λ w, In (Replay (with_Authorization "Bearer fresh" w)) l)
                 [clients_request] ∧
          ∀ r, In (Replay r) l →
               Authorization r = Some "Bearer fresh" ∧
               Authorization (requestInterceptor (localStorage s') r)
               = Some "Bearer fresh".
Proof.
  apply (fresh_token_replay refreshing (with_retry me_request) []
           (BodyEnvelope (Some "fresh")) "fresh").
  - split; [reflexivity|]. split; [simpl; lia|]. simpl. discriminate.
  - reflexivity.
  - reflexivity.
Defined.

(** ** The refresh token is only read *)

Lemma refresh_path_step s ev s' rt :
  coherent s →
  localStorage s !! "refresh_token" = Some rt → rt ≠ "" →
  refresh_path ev → step ev s = Some s' →
  (∀ k, k ≠ "access_token" → localStorage s' !! k = localStorage s !! k) ∧
  ∃ l : list Effect, log s' = (log s ++ l)%list ∧ Forall (refresh_frame rt) l.
Proof.
  intros (Hm & _ & _) Hrt Hne Hev Hstep.
  destruct ev as [error|result|a r|]; [| |done|done].
  - rewrite step_ResponseError in Hstep by done. injection Hstep as <-.
    destruct (onRejected_cases error s)
      as [->|[Hexp [Hflag|[Hflag [(rt'&Hrt'&Hne')|Hno]]]]].
    + split; [done|]. eexists. split; [reflexivity|]. by repeat constructor.
    + unfold exec. rewrite onRejected_queue by done. cbn.
      split; [done|]. exists []. by rewrite app_nil_r.
    + unfold exec. rewrite (onRejected_refresh _ _ rt') by done. cbn.
      split; [done|]. eexists. split; [reflexivity|].
      repeat constructor. simpl. congruence.
    + rewrite Hrt in Hno. simpl in Hno.
      by destruct (String.eqb_spec rt "").
  - destruct Hev as [tok Hok].
    destruct (parked s) as [|h rest] eqn:Hpk.
    { unfold step in Hstep. by rewrite Hpk in Hstep. }
    rewrite (step_settled_ok s h rest result tok) in Hstep by done.
    injection Hstep as <-.
    cbn [baseURL isRefreshing failedQueue localStorage parked microtasks log].
    split; [intros k Hk; by rewrite lookup_insert_ne|].
    eexists. split; [reflexivity|].
    constructor; [done|].
    apply Forall_app. split; [apply List.Forall_forall; intros e He;
      apply List.in_map_iff in He; by destruct He as (w & <- & _)|].
    constructor; [done|]. constructor; [done|].
    apply List.Forall_forall. intros e He.
    apply List.in_map_iff in He. by destruct He as (w & <- & _).
Qed.

(** C9. Refresh frame condition. Starting from a coherent state whose
    storage holds a non-empty refresh token [rt], along any sequence of
    failed responses and refresh calls that return a readable body, the
    only storage write is [setItem("access_token", ...)]: every other key,
    [refresh_token] among them, keeps its value, nothing is removed, and
    every refresh call issued on the way carries the same [rt]. *)
Theorem refresh_keeps_refresh_token evs s s' rt :
  coherent s →
  localStorage s !! "refresh_token" = Some rt → rt ≠ "" →
  Forall refresh_path evs → run evs s = Some s' →
  localStorage s' !! "refresh_token" = Some rt ∧
  (∀ k, k ≠ "access_token" → localStorage s' !! k = localStorage s !! k) ∧
  ∃ l : list Effect, log s' = (log s ++ l)%list ∧ Forall (refresh_frame rt) l.
Proof.
  revert s. induction evs as [|ev evs IH]; intros s Hc Hrt Hne Hevs; simpl.
  - intros [= <-]. split; [done|]. split; [done|].
    exists []. by rewrite app_nil_r.
  - inversion_clear Hevs as [|? ? Hev Hevs'].
    destruct (step ev s) as [s1|] eqn:E; [|done]. intros Hrun.
    destruct (refresh_path_step s ev s1 rt Hc Hrt Hne Hev E) as (Hk1 & l1 & Hl1 & Hf1).
    assert (localStorage s1 !! "refresh_token" = Some rt) as Hrt1
      by (by rewrite Hk1).
    destruct (IH s1 (coherent_step _ _ _ Hc E) Hrt1 Hne Hevs' Hrun)
      as (Hrt' & Hk' & l2 & Hl2 & Hf2).
    split; [done|]. split.
    + intros k Hk. by rewrite Hk', Hk1.
    + exists (l1 ++ l2)%list. split; [by rewrite Hl2, Hl1, app_assoc|].
      by apply Forall_app.
Qed.

Lemma refresh_keeps_refresh_token_witness :
  ∃ s', run [ResponseError (failed_with 401 me_request);
             ResponseError (failed_with 401 clients_request);
             RefreshSettled (Fulfilled (BodyFlat (Some "fresh")));
             ResponseError (failed_with 401 clients_request);
             RefreshSettled (Fulfilled (BodyEnvelope (Some "fresher")))]
            (init "http://localhost:8080" signed_in) = Some s' ∧
        localStorage s' !! "refresh_token" = Some "R1" ∧
        (∀ k, k ≠ "access_token" → localStorage s' !! k = signed_in !! k) ∧
        ∃ l : list Effect, log s' = l ∧ Forall (refresh_frame "R1") l.
Proof.
  destruct (run [ResponseError (failed_with 401 me_request);
                 ResponseError (failed_with 401 clients_request);
                 RefreshSettled (Fulfilled (BodyFlat (Some "fresh")));
                 ResponseError (failed_with 401 clients_request);
                 RefreshSettled (Fulfilled (BodyEnvelope (Some "fresher")))]
                (init "http://localhost:8080" signed_in)) as [s'|] eqn:E;
    [|vm_compute in E; discriminate].
  exists s'. split; [reflexivity|].
  apply (refresh_keeps_refresh_token
           [ResponseError (failed_with 401 me_request);
            ResponseError (failed_with 401 clients_request);
            RefreshSettled (Fulfilled (BodyFlat (Some "fresh")));
            ResponseError (failed_with 401 clients_request);
            RefreshSettled (Fulfilled (BodyEnvelope (Some "fresher")))]
           (init "http://localhost:8080" signed_in) s' "R1").
  - apply coherent_init.
  - reflexivity.
  - discriminate.
  - repeat constructor; by eexists.
  - exact E.
Defined.

End ApiFacts.

(** * Properties of [login] *)

Module AuthFacts.
Import Api Auth.

Lemma is_deactivated_spec error :
  is_deactivated error = Returned true ↔ deactivated_response error.
Proof.
  split.
  - destruct error as [e| | |]; simpl; try done.
    destruct (response e) as [r|] eqn:Hr; [|done].
    destruct (Z.eqb_spec (status r) 403) as [Hs|]; [|done].
    destruct (body r) as [errorData|] eqn:Hb; [|done].
    destruct (data errorData) as [payload|] eqn:Hd; [|done].
    destruct (can_restore payload) as [[]|] eqn:Hc; try done.
    intros _. by exists e, r, errorData, payload.
  - intros (e & r & errorData & payload & -> & Hr & Hs & Hb & Hd & Hc). simpl.
    by rewrite Hr, Hs, Hb, Hd, Hc.
Qed.

Lemma is_deactivated_throws error raised :
  is_deactivated error = Threw raised ↔ null_body_403 error ∧ raised = TypeErr.
Proof.
  split.
  - destruct error as [e| | |]; simpl; try done.
    destruct (response e) as [r|] eqn:Hr; [|done].
    destruct (Z.eqb_spec (status r) 403) as [Hs|]; [|done].
    destruct (body r) as [errorData|] eqn:Hb.
    + destruct (data errorData) as [payload|]; [|done].
      by destruct (can_restore payload).
    + intros [= <-]. split; [|done]. by exists e, r.
  - intros [(e & r & -> & Hr & Hs & Hb) ->]. simpl. by rewrite Hr, Hs, Hb.
Qed.

Lemma login_try_fails signIn getCurrentUser st error :
  login_failure signIn getCurrentUser = Some error →
  ∃ st', login_try signIn getCurrentUser st = (st', Threw error).
Proof.
  unfold login_failure, login_try. intros Hfail.
  destruct signIn as [tokens|e]; [|injection Hfail as ->; eauto].
  destruct getCurrentUser as [u|e]; [done|injection Hfail as ->; eauto].
Qed.

(** C8. Deactivated-account signal, at the input where the source departs
    from it. A sign-in refused with status 403 and the JSON body [null]
    carries no [can_restore] flag, so [login] should throw the error it
    caught. The [catch] block reads [errorData.data] of that [null]
    (line 78, no guard on [errorData]) and [login] throws the
    [TypeError] of the read instead, whatever request the error belongs
    to and whatever the profile call would answer. *)
Theorem null_body_403_is_not_rethrown config getCurrentUser st :
  snd (login (Threw (AxiosErr {| response := Some {| status := 403; body := None |};
                                 config := config |}))
             getCurrentUser st)
  = Threw TypeErr ∧
  ¬ deactivated_response
      (AxiosErr {| response := Some {| status := 403; body := None |};
                   config := config |}) ∧
  Threw (A := unit) TypeErr
  ≠ Threw (AxiosErr {| response := Some {| status := 403; body := None |};
                       config := config |}).
Proof.
  split; [reflexivity|]. split; [|done].
  intros (e & r & errorData & payload & [= <-] & [= <-] & _ & Hb & _).
  discriminate Hb.
Qed.

(** X28. The deactivated-account signal elsewhere. When the [try] block
    of [login] fails - the sign-in call, or the profile call after it -
    and the error is an HTTP 403 whose body has [data.can_restore = true],
    [login] throws [new Error("ACCOUNT_DEACTIVATED")]; when the error is
    a 403 whose body is [null] it throws a [TypeError]; on any other
    failure, a 403 with a body and without the flag included, it throws
    the error it caught. *)
Theorem deactivated_account_signal signIn getCurrentUser st error :
  login_failure signIn getCurrentUser = Some error →
  (deactivated_response error →
   snd (login signIn getCurrentUser st) = Threw (NewError "ACCOUNT_DEACTIVATED")) ∧
  (null_body_403 error →
   snd (login signIn getCurrentUser st) = Threw TypeErr) ∧
  (¬ deactivated_response error → ¬ null_body_403 error →
   snd (login signIn getCurrentUser st) = Threw error).
Proof.
  intros Hfail.
  destruct (login_try_fails _ _ st _ Hfail) as [st' Htry].
  unfold login. rewrite Htry. split; [|split].
  - intros Hd. apply is_deactivated_spec in Hd. by rewrite Hd.
  - intros Hn.
    assert (is_deactivated error = Threw TypeErr) as ->; [|done].
    by apply is_deactivated_throws.
  - intros Hd Hn. destruct (is_deactivated error) as [[]|raised] eqn:E; [|done|].
    + by apply is_deactivated_spec in E.
    + apply is_deactivated_throws in E as [E _]. done.
Qed.

Lemma deactivated_account_signal_witness :
  snd (login (Threw (AxiosErr
                {| response :=
                     Some {| status := 403;
                             body := Some {| data := Some {| can_restore := Some true |} |} |};
                   config := sign_in_request |}))
             (Threw TypeErr) {| user := None; storage := ∅ |})
  = Threw (NewError "ACCOUNT_DEACTIVATED")
  ∧ snd (login (Threw (AxiosErr (failed_with 403 sign_in_request)))
               (Threw TypeErr) {| user := None; storage := ∅ |})
    = Threw (AxiosErr (failed_with 403 sign_in_request)).
Proof.
  split.
  - apply (deactivated_account_signal _ _ _
             (AxiosErr {| response :=
                            Some {| status := 403;
                                    body := Some {| data := Some {| can_restore := Some true |} |} |};
                          config := sign_in_request |})).
    + reflexivity.
    + eexists _, _, _, _. repeat split; reflexivity.
  - apply (deactivated_account_signal _ _ _ (AxiosErr (failed_with 403 sign_in_request))).
    + reflexivity.
    + intros (e & r & errorData & payload & [= <-] & [= <-] & _ & [= <-] & Hd & _).
      discriminate Hd.
    + intros (e & r & [= <-] & [= <-] & _ & Hb). discriminate Hb.
Defined.

End AuthFacts.

(** * Properties of the invoice form *)

Module FormFacts.
Import Form.

Local Open Scope nat_scope.

(** ** Arrays *)

Lemma spread_array_dense arr : dense (spread_array arr).
Proof.
  unfold dense, spread_array. apply Forall_fmap, Forall_true.
  intros []; done.
Qed.

Lemma spread_array_length arr : length (spread_array arr) = length arr.
Proof. unfold spread_array. by rewrite length_fmap. Qed.

Lemma spread_array_lookup_Item arr index it :
  arr !! index = Some (Item it) → spread_array arr !! index = Some (Item it).
Proof. intros H. unfold spread_array. by rewrite list_lookup_fmap, H. Qed.

Lemma dense_anchored arr : arr ≠ [] → dense arr → anchored arr.
Proof.
  intros Hne Hd. split; [done|]. split.
  - intros Hh. apply head_Some_elem_of in Hh.
    by eapply (proj1 (Forall_forall _ _) Hd) in Hh.
  - intros Hl. apply last_Some_elem_of in Hl.
    by eapply (proj1 (Forall_forall _ _) Hd) in Hl.
Qed.

Lemma anchored_length arr : anchored arr → 1 ≤ length arr.
Proof. intros [Hne _]. destruct arr; [done|simpl; lia]. Qed.

Lemma array_set_anchored index x arr :
  arr ≠ [] → dense arr → x ≠ Hole → anchored (array_set index x arr).
Proof.
  intros Hne Hd Hx. unfold array_set. case_decide as Hlt.
  - apply dense_anchored.
    + intros Hnil. apply (f_equal length) in Hnil.
      rewrite length_insert in Hnil. destruct arr; simpl in *; [done|lia].
    + unfold dense. apply Forall_insert; done.
  - split; [by destruct arr|]. split.
    + destruct arr as [|s arr]; [done|]. simpl. intros [= ->].
      by inversion Hd.
    + rewrite app_assoc, last_snoc. congruence.
Qed.

Lemma filter_from_dense keep i arr : dense (filter_from keep i arr).
Proof.
  revert i. induction arr as [|s arr IH]; intros i; simpl; [constructor|].
  destruct s; [apply IH| |]; destruct (keep i); try apply IH;
    constructor; try done; apply IH.
Qed.

Lemma filter_from_keeps keep i arr j s :
  arr !! j = Some s → s ≠ Hole → keep (i + j) = true →
  s ∈ filter_from keep i arr.
Proof.
  revert i j. induction arr as [|x arr IH]; intros i j Hj Hs Hk; [done|].
  destruct j as [|j]; simpl in Hj.
  - injection Hj as ->. rewrite Nat.add_0_r in Hk. simpl.
    destruct s; [done| |]; rewrite Hk; apply list_elem_of_here.
  - assert (s ∈ filter_from keep (S i) arr) as Hin.
    { apply (IH (S i) j); [done|done|].
      by replace (S i + j) with (i + S j) by lia. }
    simpl. destruct x; [done| |]; destruct (keep i);
      try done; by apply list_elem_of_further.
Qed.

(** ** The handlers and the item list *)

Lemma handleItemChange_lookup index e data it :
  items data !! index = Some (Item it) →
  items (handleItemChange index e data) !! index =
  Some (Item (if prices e then recompute_total (assign e it) else assign e it)).
Proof.
  intros H. unfold handleItemChange. cbn [items].
  rewrite (spread_array_lookup_Item _ _ it) by done. cbn [spread_slot].
  unfold array_set. apply lookup_lt_Some in H as Hlt.
  rewrite decide_True by (by rewrite spread_array_length).
  rewrite list_lookup_insert_eq by (by rewrite spread_array_length).
  reflexivity.
Qed.

Lemma handleItemChange_anchored index e data :
  anchored (items data) → anchored (items (handleItemChange index e data)).
Proof.
  intros [Hne _]. unfold handleItemChange. cbn [items].
  apply array_set_anchored; [|apply spread_array_dense|done].
  intros Hnil. apply (f_equal length) in Hnil.
  rewrite spread_array_length in Hnil. by destruct (items data).
Qed.

Lemma addItem_anchored data : anchored (items (addItem data)).
Proof.
  unfold addItem. cbn [items]. apply dense_anchored.
  - by destruct (spread_array (items data)).
  - unfold dense. apply Forall_app. split; [apply spread_array_dense|].
    by repeat constructor.
Qed.

Lemma removeItem_anchored index data :
  anchored (items data) → anchored (items (removeItem index data)).
Proof.
  intros (Hne & Hhead & Hlast). unfold removeItem.
  case_decide as Hlen; [|done]. cbn [items].
  apply dense_anchored; [|apply filter_from_dense].
  destruct (decide (index = 0)) as [->|Hidx].
  - (* the last element stays *)
    rewrite last_lookup in Hlast.
    destruct (items data !! pred (length (items data))) as [y|] eqn:Hy.
    2:{ apply lookup_ge_None in Hy. lia. }
    assert (y ∈ filter_from (λ i, negb (i =? 0)) 0 (items data)) as Hin.
    { eapply filter_from_keeps; [done|congruence|]. cbv beta.
      apply negb_true_iff, Nat.eqb_neq. lia. }
    intros Hnil. rewrite Hnil in Hin. by apply not_elem_of_nil in Hin.
  - (* the first element stays *)
    rewrite head_lookup in Hhead.
    destruct (items data !! 0) as [x|] eqn:Hx.
    2:{ apply lookup_ge_None in Hx. lia. }
    assert (x ∈ filter_from (λ i, negb (i =? index)) 0 (items data)) as Hin.
    { eapply filter_from_keeps; [done|congruence|]. cbv beta.
      apply negb_true_iff, Nat.eqb_neq. lia. }
    intros Hnil. rewrite Hnil in Hin. by apply not_elem_of_nil in Hin.
Qed.

Lemma act_anchored parseInt a data :
  anchored (items data) → anchored (items (act parseInt a data)).
Proof.
  intros H. destruct a as [clients clientId|field value|index e| |index]; simpl.
  - unfold handleClientSelect.
    destruct clientId as [c|]; [|done].
    destruct (String.eqb c ""); [done|].
    by destruct (find _ clients).
  - done.
  - by apply handleItemChange_anchored.
  - apply addItem_anchored.
  - by apply removeItem_anchored.
Qed.

Lemma acts_anchored parseInt l data :
  anchored (items data) → anchored (items (acts parseInt l data)).
Proof.
  revert data. induction l as [|a l IH]; intros data H; [done|].
  simpl. apply IH. by apply act_anchored.
Qed.

(** X5. Each operation of the form keeps the list anchored, hence non-empty:
    this covers a list loaded from an existing invoice as well, as long as
    it has an item and no empty slot at either end. *)
Theorem form_operation_keeps_an_item parseInt a data :
  anchored (items data) →
  anchored (items (act parseInt a data)) ∧ 1 ≤ length (items (act parseInt a data)).
Proof.
  intros H. assert (anchored (items (act parseInt a data))) as H'
    by (by apply act_anchored).
  split; [done|]. by apply anchored_length.
Qed.

Lemma form_operation_keeps_an_item_witness :
  anchored (items (act (λ _, nan) (RemoveItem 0)
                       {| scalars := ∅; items := [Item blank_item; Undefined] |}))
  ∧ 1 ≤ length (items (act (λ _, nan) (RemoveItem 0)
                           {| scalars := ∅; items := [Item blank_item; Undefined] |})).
Proof.
  apply (form_operation_keeps_an_item (λ _, nan) (RemoveItem 0)
           {| scalars := ∅; items := [Item blank_item; Undefined] |}).
  split; [done|]. split; simpl; congruence.
Defined.

(** ** Item totals *)

(** C7. Item total recomputation. For an item of the list, after
    [handleItemChange] sets [quantity] (or [unit_price]) the item holds
    the new value, keeps the other factor, and its [total] is the product
    [quantity * unit_price] of the updated item. Setting quantity [q] and
    unit price [p] one after the other gives the same item, with total
    [q * p], in either order; for [q = 3] and [p = 1500] the total is
    4500. The product is JavaScript's, on binary64 numbers. *)
Theorem item_total_recomputed data index it :
  items data !! index = Some (Item it) →
  (∀ v, ∃ it',
      items (handleItemChange index (Quantity v) data) !! index = Some (Item it') ∧
      quantity it' = Some v ∧ unit_price it' = unit_price it ∧
      total it' = Some (to_number (quantity it') * to_number (unit_price it'))%float) ∧
  (∀ v, ∃ it',
      items (handleItemChange index (UnitPrice v) data) !! index = Some (Item it') ∧
      unit_price it' = Some v ∧ quantity it' = quantity it ∧
      total it' = Some (to_number (quantity it') * to_number (unit_price it'))%float) ∧
  (∀ q p, ∃ a b,
      items (handleItemChange index (UnitPrice p)
               (handleItemChange index (Quantity q) data)) !! index = Some (Item a) ∧
      items (handleItemChange index (Quantity q)
               (handleItemChange index (UnitPrice p) data)) !! index = Some (Item b) ∧
      a = b ∧ total a = Some (q * p)%float) ∧
  (∃ a b,
      items (handleItemChange index (UnitPrice 1500)
               (handleItemChange index (Quantity 3) data)) !! index = Some (Item a) ∧
      items (handleItemChange index (Quantity 3)
               (handleItemChange index (UnitPrice 1500) data)) !! index = Some (Item b) ∧
      total a = Some 4500%float ∧ total b = Some 4500%float).
Proof.
  intros H.
  assert (∀ q p, ∃ a b,
      items (handleItemChange index (UnitPrice p)
               (handleItemChange index (Quantity q) data)) !! index = Some (Item a) ∧
      items (handleItemChange index (Quantity q)
               (handleItemChange index (UnitPrice p) data)) !! index = Some (Item b) ∧
      a = b ∧ total a = Some (q * p)%float) as Horder.
  { intros q p. eexists. eexists.
    split; [|split; [|split]].
    - erewrite handleItemChange_lookup; [reflexivity|].
      by apply handleItemChange_lookup.
    - erewrite handleItemChange_lookup; [reflexivity|].
      by apply handleItemChange_lookup.
    - reflexivity.
    - reflexivity. }
  split; [|split; [|split]].
  - intros v. eexists. split; [by apply handleItemChange_lookup|]. done.
  - intros v. eexists. split; [by apply handleItemChange_lookup|]. done.
  - exact Horder.
  - destruct (Horder 3%float 1500%float) as (a & b & Ha & Hb & <- & Ht).
    exists a, a. repeat split; try done.
Qed.

Lemma item_total_recomputed_witness :
  ∃ a b,
    items (handleItemChange 0 (UnitPrice 1500)
             (handleItemChange 0 (Quantity 3)
                (initialInvoiceData "INV-1" "2026-01-01" "2026-01-31"))) !! 0
      = Some (Item a) ∧
    items (handleItemChange 0 (Quantity 3)
             (handleItemChange 0 (UnitPrice 1500)
                (initialInvoiceData "INV-1" "2026-01-01" "2026-01-31"))) !! 0
      = Some (Item b) ∧
    total a = Some 4500%float ∧ total b = Some 4500%float.
Proof.
  apply (item_total_recomputed
           (initialInvoiceData "INV-1" "2026-01-01" "2026-01-31") 0 blank_item).
  reflexivity.
Defined.

(** ** The item list is never empty *)

(** C10. Non-empty items. The initial form state of [CreateInvoicePage]
    holds one item; [addItem] appends one item to the list it is given;
    [removeItem] returns a one-element list as it is; and after any
    sequence of the form's operations on the initial state - client
    selection, field input, item edits, adding and removing items - the
    list has at least one element. *)
Theorem items_never_empty parseInt number issue due :
  length (items (initialInvoiceData number issue due)) = 1 ∧
  (∀ data, items (addItem data) = (spread_array (items data) ++ [Item blank_item])%list ∧
           length (items (addItem data)) = S (length (items data))) ∧
  (∀ index scal x,
      removeItem index {| scalars := scal; items := [x] |}
      = {| scalars := scal; items := [x] |}) ∧
  (∀ l, 1 ≤ length (items (acts parseInt l (initialInvoiceData number issue due)))).
Proof.
  split; [done|]. split; [|split].
  - intros data. split; [done|].
    unfold addItem. cbn [items].
    rewrite length_app, spread_array_length. simpl. lia.
  - done.
  - intros l. apply anchored_length, acts_anchored.
    apply dense_anchored; [done|]. by repeat constructor.
Qed.

End FormFacts.

(** * Whole refresh cycles *)

Module CycleFacts.
Import Api ApiFacts Trace.

Lemma run_app evs1 evs2 s :
  run (evs1 ++ evs2) s = run evs1 s ≫= run evs2.
Proof.
  revert s. induction evs1 as [|ev evs1 IH]; intros s; simpl; [done|].
  destruct (step ev s); [apply IH|done].
Qed.

Lemma replays_app l1 l2 : replays (l1 ++ l2) = (replays l1 ++ replays l2)%list.
Proof. apply omap_app. Qed.

Lemma rejects_app l1 l2 : rejects (l1 ++ l2) = (rejects l1 ++ rejects l2)%list.
Proof. apply omap_app. Qed.

Lemma replays_map_Replay (f : Request → Request) q :
  replays (map (λ w, Replay (f w)) q) = map f q.
Proof. induction q as [|w q IH]; simpl; [done|]. unfold replays in *. simpl. by rewrite IH. Qed.

Lemma replays_map_ResolveWaiter q : replays (map ResolveWaiter q) = [].
Proof. induction q as [|w q IH]; simpl; done. Qed.

Lemma rejects_map_Replay (f : Request → Request) q :
  rejects (map (λ w, Replay (f w)) q) = [].
Proof. induction q as [|w q IH]; simpl; done. Qed.

Lemma rejects_map_ResolveWaiter q : rejects (map ResolveWaiter q) = [].
Proof. induction q as [|w q IH]; simpl; done. Qed.

Lemma rejects_map_RejectWaiter x q :
  rejects (map (λ w, RejectWaiter w x) q) = map (λ w, (w, x)) q.
Proof. induction q as [|w q IH]; simpl; [done|]. unfold rejects in *. simpl. by rewrite IH. Qed.

Lemma replays_map_RejectWaiter x q :
  replays (map (λ w, RejectWaiter w x) q) = [].
Proof. induction q as [|w q IH]; simpl; done. Qed.

(** The state a burst leaves behind, ready for the refresh to settle. *)
Lemma burst_state s e es rt :
  coherent s → isRefreshing s = false →
  localStorage s !! "refresh_token" = Some rt → rt ≠ "" →
  expired e → Forall expired es →
  run (map ResponseError (e :: es)) s =
  Some {| baseURL := baseURL s; isRefreshing := true;
          failedQueue := map config es; localStorage := localStorage s;
          parked := [with_retry (config e)]; microtasks := [];
          log := log s ++ [SetRefreshing true;
                           PostRefresh (baseURL s +:+ "/v1/protected/auth/refresh-token") rt] |}.
Proof.
  intros (Hm & _ & Hidle) Hflag Hrt Hne He Hes.
  destruct (Hidle Hflag) as [Hq Hp].
  cbn [map run]. rewrite step_ResponseError by done.
  unfold exec. rewrite (onRejected_refresh _ _ rt) by done. cbn [snd].
  rewrite burst_queued by done.
  cbn [baseURL isRefreshing failedQueue localStorage parked microtasks log].
  by rewrite Hq, Hp, Hm.
Qed.

(** X7. A whole cycle that ends well. From a coherent idle state with a
    refresh token stored, a burst of expired requests followed by a refresh
    call that returns access token [t] costs one refresh call; every request
    of the burst is replayed exactly once with [Authorization: Bearer t],
    the one that started the refresh first and the waiters after it in
    arrival order; nobody is rejected or redirected; and the client is idle
    again, with [t] stored and every other key as before. *)
Theorem burst_then_refresh_succeeds s e es rt b t :
  coherent s → isRefreshing s = false →
  localStorage s !! "refresh_token" = Some rt → rt ≠ "" →
  expired e → Forall expired es →
  read_access_token b = inr (Some t) →
  ∃ s', run (map ResponseError (e :: es) ++ [RefreshSettled (Fulfilled b)]) s = Some s' ∧
        isRefreshing s' = false ∧ failedQueue s' = [] ∧ parked s' = [] ∧
        localStorage s' = <["access_token" := t]> (localStorage s) ∧
        ∃ l : list Effect, log s' = (log s ++ l)%list ∧
          refresh_calls l = 1%nat ∧ redirects l = 0%nat ∧ rejects l = [] ∧
          replays l = map (with_Authorization (Js.bearer t))
                          (with_retry (config e) :: map config es).
Proof.
  intros Hc Hflag Hrt Hne He Hes Hb.
  rewrite run_app, (burst_state s e es rt) by done. cbn [mbind option_bind run].
  rewrite (step_settled_ok _ (with_retry (config e)) [] (Fulfilled b) (Some t))
    by done.
  eexists. split; [reflexivity|].
  cbn [baseURL isRefreshing failedQueue localStorage parked microtasks log
       Js.template_undefined].
  split; [done|]. split; [done|]. split; [done|]. split; [done|].
  exists ([SetRefreshing true;
           PostRefresh (baseURL s +:+ "/v1/protected/auth/refresh-token") rt]
          ++ [SetItem "access_token" t]
          ++ map ResolveWaiter (map config es)
          ++ [Replay (with_Authorization (Js.bearer t) (with_retry (config e)));
              SetRefreshing false]
          ++ map (λ w, Replay (with_Authorization (Js.bearer t) w)) (map config es))%list.
  split; [by rewrite <- app_assoc|].
  rewrite !refresh_calls_app, !redirects_app, !rejects_app, !replays_app.
  rewrite (refresh_calls_rejections ResolveWaiter) by done.
  rewrite (refresh_calls_rejections (λ w, Replay (with_Authorization (Js.bearer t) w)))
    by done.
  rewrite (redirects_rejections ResolveWaiter) by done.
  rewrite (redirects_rejections (λ w, Replay (with_Authorization (Js.bearer t) w)))
    by done.
  rewrite rejects_map_ResolveWaiter, replays_map_ResolveWaiter.
  rewrite (rejects_map_Replay (with_Authorization (Js.bearer t))).
  rewrite (replays_map_Replay (with_Authorization (Js.bearer t))).
  repeat split; reflexivity.
Qed.

Lemma burst_then_refresh_succeeds_witness :
  ∃ s', run (map ResponseError [failed_with 401 me_request;
                                failed_with 401 clients_request]
             ++ [RefreshSettled (Fulfilled (BodyEnvelope (Some "fresh")))])
            (init "http://localhost:8080" signed_in) = Some s' ∧
        isRefreshing s' = false ∧ failedQueue s' = [] ∧ parked s' = [] ∧
        localStorage s' = <["access_token" := "fresh"]> signed_in ∧
        ∃ l : list Effect, log s' = l ∧
          refresh_calls l = 1%nat ∧ redirects l = 0%nat ∧ rejects l = [] ∧
          replays l = [with_Authorization "Bearer fresh" (with_retry me_request);
                       with_Authorization "Bearer fresh" clients_request].
Proof.
  apply (burst_then_refresh_succeeds (init "http://localhost:8080" signed_in)
           (failed_with 401 me_request) [failed_with 401 clients_request]
           "R1" (BodyEnvelope (Some "fresh")) "fresh").
  - apply coherent_init.
  - reflexivity.
  - reflexivity.
  - discriminate.
  - repeat split; reflexivity.
  - repeat constructor; reflexivity.
  - reflexivity.
Defined.

(** X8. A whole cycle that ends badly. From the same start, a burst
    followed by a refresh call that fails with [err] costs one refresh call
    and one redirect; every request of the burst is rejected exactly once
    and none is replayed: the waiters first, in arrival order, with [err]
    (or with [Error("Token refresh failed")] when [err] is no [Error]),
    then the request that started the refresh, with [err]; both tokens are
    removed and the client is idle again. *)
Theorem burst_then_refresh_fails s e es rt result err :
  coherent s → isRefreshing s = false →
  localStorage s !! "refresh_token" = Some rt → rt ≠ "" →
  expired e → Forall expired es →
  awaited result = inl err →
  ∃ s', run (map ResponseError (e :: es) ++ [RefreshSettled result]) s = Some s' ∧
        isRefreshing s' = false ∧ failedQueue s' = [] ∧ parked s' = [] ∧
        localStorage s' = delete "refresh_token" (delete "access_token" (localStorage s)) ∧
        ∃ l : list Effect, log s' = (log s ++ l)%list ∧
          refresh_calls l = 1%nat ∧ redirects l = 1%nat ∧ replays l = [] ∧
          rejects l = (map (λ w, (w, as_Error err)) (map config es)
                       ++ [(with_retry (config e), err)])%list.
Proof.
  intros Hc Hflag Hrt Hne He Hes Hko.
  rewrite run_app, (burst_state s e es rt) by done. cbn [mbind option_bind run].
  rewrite (step_settled_failed _ (with_retry (config e)) [] result err) by done.
  eexists. split; [reflexivity|].
  cbn [baseURL isRefreshing failedQueue localStorage parked microtasks log].
  split; [done|]. split; [done|]. split; [done|]. split; [done|].
  exists ([SetRefreshing true;
           PostRefresh (baseURL s +:+ "/v1/protected/auth/refresh-token") rt]
          ++ map (λ w, RejectWaiter w (as_Error err)) (map config es)
          ++ [RemoveItem "access_token"; RemoveItem "refresh_token";
              Navigate "/login"; Reject (with_retry (config e)) err;
              SetRefreshing false])%list.
  split; [by rewrite <- app_assoc|].
  rewrite !refresh_calls_app, !redirects_app, !rejects_app, !replays_app.
  rewrite (refresh_calls_rejections (λ w, RejectWaiter w (as_Error err))) by done.
  rewrite (redirects_rejections (λ w, RejectWaiter w (as_Error err))) by done.
  rewrite rejects_map_RejectWaiter, replays_map_RejectWaiter.
  repeat split; reflexivity.
Qed.

Lemma burst_then_refresh_fails_witness :
  ∃ s', run (map ResponseError [failed_with 401 me_request;
                                failed_with 401 clients_request]
             ++ [RefreshSettled (RejectedWith (NonError "timeout"))])
            (init "http://localhost:8080" signed_in) = Some s' ∧
        isRefreshing s' = false ∧ failedQueue s' = [] ∧ parked s' = [] ∧
        localStorage s' = delete "refresh_token" (delete "access_token" signed_in) ∧
        ∃ l : list Effect, log s' = l ∧
          refresh_calls l = 1%nat ∧ redirects l = 1%nat ∧ replays l = [] ∧
          rejects l = [(clients_request, NewError "Token refresh failed");
                       (with_retry me_request, NonError "timeout")].
Proof.
  apply (burst_then_refresh_fails (init "http://localhost:8080" signed_in)
           (failed_with 401 me_request) [failed_with 401 clients_request]
           "R1" (RejectedWith (NonError "timeout")) (NonError "timeout")).
  - apply coherent_init.
  - reflexivity.
  - reflexivity.
  - discriminate.
  - repeat split; reflexivity.
  - repeat constructor; reflexivity.
  - reflexivity.
Defined.

(** X9. Who is marked as retried. The request that started a refresh is
    replayed with [_retry] set: if its replay fails with 401 again, the
    failure goes to the caller and nothing else happens. A waiter is
    replayed without the mark: with no refresh in flight and a refresh
    token stored, a 401 on its replay starts a new refresh call. *)
Theorem replay_after_refresh_fails_again s e h rt :
  coherent s → isRefreshing s = false →
  localStorage s !! "refresh_token" = Some rt → rt ≠ "" →
  expired e →
  exec (onRejected {| response := response e;
                      config := with_Authorization h (with_retry (config e)) |}) s
  = logged [Reject (with_Authorization h (with_retry (config e)))
                   (AxiosErr {| response := response e;
                                config := with_Authorization h (with_retry (config e)) |})] s
  ∧ ∃ s', step (ResponseError {| response := response e;
                                 config := with_Authorization h (config e) |}) s = Some s' ∧
          log s' = (log s ++ [SetRefreshing true;
                              PostRefresh (baseURL s +:+ "/v1/protected/auth/refresh-token") rt])%list ∧
          parked s' = [with_retry (with_Authorization h (config e))].
Proof.
  intros (Hm & Hp & Hidle) Hflag Hrt Hne (H401 & Hretry & Hauth). split.
  - unfold exec. rewrite onRejected_pass; [done|]. by right.
  - rewrite step_ResponseError by done.
    eexists. split; [reflexivity|].
    unfold exec. rewrite (onRejected_refresh _ _ rt); [|done..].
    destruct (Hidle Hflag) as [_ Hnone]. cbn. by rewrite Hnone.
Qed.

Lemma replay_after_refresh_fails_again_witness :
  exec (onRejected (failed_with 401 (with_Authorization "Bearer fresh" (with_retry me_request))))
       (init "http://localhost:8080" signed_in)
  = logged [Reject (with_Authorization "Bearer fresh" (with_retry me_request))
                   (AxiosErr (failed_with 401
                                (with_Authorization "Bearer fresh" (with_retry me_request))))]
           (init "http://localhost:8080" signed_in)
  ∧ ∃ s', step (ResponseError (failed_with 401 (with_Authorization "Bearer fresh" me_request)))
               (init "http://localhost:8080" signed_in) = Some s' ∧
          log s' = [SetRefreshing true;
                    PostRefresh "http://localhost:8080/v1/protected/auth/refresh-token" "R1"] ∧
          parked s' = [with_retry (with_Authorization "Bearer fresh" me_request)].
Proof.
  apply (replay_after_refresh_fails_again (init "http://localhost:8080" signed_in)
           (failed_with 401 me_request) "Bearer fresh" "R1").
  - apply coherent_init.
  - reflexivity.
  - reflexivity.
  - discriminate.
  - repeat split; reflexivity.
Defined.

(** X10. Logging out does not cancel a refresh in flight. When
    [apiService.logout()] runs while a handler waits for the refresh call
    and the call then returns access token [t], the handler stores [t]
    again and replays its request and the waiters with [Bearer t]; the
    refresh token stays removed, and [isAuthenticated] answers true for a
    non-empty [t]. *)
Theorem refresh_settles_after_logout s h rest b t :
  coherent s → parked s = h :: rest →
  read_access_token b = inr (Some t) →
  ∃ s', run [LoggedOut; RefreshSettled (Fulfilled b)] s = Some s' ∧
        localStorage s' !! "access_token" = Some t ∧
        localStorage s' !! "refresh_token" = None ∧
        fst (isAuthenticated s') = Js.truthy (Some t) ∧
        ∃ l : list Effect, log s' = (log s ++ l)%list ∧
          replays l = map (with_Authorization (Js.bearer t)) (h :: failedQueue s).
Proof.
  intros (Hm & _ & _) Hpk Hb. cbn [run].
  change (step LoggedOut s) with (Some (exec logout s)). cbv beta iota.
  rewrite (step_settled_ok (exec logout s) h rest (Fulfilled b) (Some t));
    [|by unfold_m..].
  eexists. split; [reflexivity|].
  unfold isAuthenticated. unfold_m. cbn [Js.template_undefined].
  rewrite lookup_insert_eq.
  split; [done|].
  split; [by rewrite lookup_insert_ne, lookup_delete_eq|].
  split; [done|].
  exists ([RemoveItem "access_token"; RemoveItem "refresh_token"]
          ++ [SetItem "access_token" t]
          ++ map ResolveWaiter (failedQueue s)
          ++ [Replay (with_Authorization (Js.bearer t) h); SetRefreshing false]
          ++ map (λ w, Replay (with_Authorization (Js.bearer t) w)) (failedQueue s))%list.
  split; [by rewrite <- !app_assoc|].
  rewrite !replays_app, replays_map_ResolveWaiter.
  by rewrite (replays_map_Replay (with_Authorization (Js.bearer t))).
Qed.

Lemma refresh_settles_after_logout_witness :
  ∃ s', run [LoggedOut; RefreshSettled (Fulfilled (BodyFlat (Some "fresh")))] refreshing
        = Some s' ∧
        localStorage s' !! "access_token" = Some "fresh" ∧
        localStorage s' !! "refresh_token" = None ∧
        fst (isAuthenticated s') = true ∧
        ∃ l : list Effect, log s' = (log refreshing ++ l)%list ∧
          replays l = [with_Authorization "Bearer fresh" (with_retry me_request);
                       with_Authorization "Bearer fresh" clients_request].
Proof.
  apply (refresh_settles_after_logout refreshing (with_retry me_request) []
           (BodyFlat (Some "fresh")) "fresh").
  - split; [reflexivity|]. split; [simpl; lia|]. simpl. discriminate.
  - reflexivity.
  - reflexivity.
Defined.

End CycleFacts.

(** * More on the invoice form *)

Module FormRows.
Import Form FormFacts.

Local Open Scope nat_scope.

Lemma spread_array_dense_id arr : dense arr → spread_array arr = arr.
Proof.
  unfold dense, spread_array. induction 1 as [|s arr Hs _ IH]; [done|].
  cbn [fmap list_fmap]. f_equal; [by destruct s|exact IH].
Qed.

Lemma filter_from_all keep k arr :
  (∀ i, k ≤ i → keep i = true) → dense arr → filter_from keep k arr = arr.
Proof.
  intros Hk Hd. revert k Hk. induction Hd as [|s arr Hs _ IH]; intros k Hk; [done|].
  simpl. rewrite (Hk k) by lia. rewrite IH by (intros i Hi; apply Hk; lia).
  by destruct s.
Qed.

Lemma filter_from_delete keep k j arr :
  (∀ i, keep i = negb (i =? k + j)) → dense arr →
  filter_from keep k arr = delete j arr.
Proof.
  intros Hk Hd. revert k j Hk.
  induction Hd as [|s arr Hs Hd IH]; intros k j Hk; [done|].
  destruct j as [|j].
  - simpl. rewrite Hk, Nat.add_0_r, Nat.eqb_refl. cbn [negb].
    rewrite filter_from_all; [by destruct s| |done].
    intros i Hi. rewrite Hk. apply negb_true_iff, Nat.eqb_neq. lia.
  - cbn [filter_from]. rewrite (Hk k).
    replace (negb (k =? k + S j)) with true
      by (symmetry; apply negb_true_iff, Nat.eqb_neq; lia).
    rewrite (IH (S k) j).
    + by destruct s.
    + intros i. rewrite Hk. do 2 f_equal. lia.
Qed.

(** X11. [removeItem] removes one row. On a list without empty slots,
    [removeItem index] leaves the other members of the form data alone; if
    the list has more than one item it deletes the item at [index] and
    keeps the others in order (an index past the end deletes nothing);
    a list of one item, or none, is returned as it is. *)
Theorem removeItem_removes_one_row index data :
  dense (items data) →
  scalars (removeItem index data) = scalars data ∧
  items (removeItem index data)
  = if decide (1 < length (items data)) then delete index (items data)
    else items data.
Proof.
  intros Hd. unfold removeItem. case_decide; [|done]. cbn [scalars items].
  split; [done|]. by apply (filter_from_delete _ 0 index).
Qed.

Lemma removeItem_removes_one_row_witness :
  scalars (removeItem 1 {| scalars := ∅;
                           items := [Item blank_item; Undefined; Item blank_item] |}) = ∅
  ∧ items (removeItem 1 {| scalars := ∅;
                           items := [Item blank_item; Undefined; Item blank_item] |})
    = [Item blank_item; Item blank_item].
Proof.
  apply (removeItem_removes_one_row 1
           {| scalars := ∅; items := [Item blank_item; Undefined; Item blank_item] |}).
  by repeat constructor.
Defined.

(** X12. An item edit touches one row. On a list without empty slots,
    [handleItemChange] on a row that holds an item replaces that row and
    nothing else: the list keeps its length and its other rows, and the
    other members of the form data are unchanged. *)
Theorem handleItemChange_edits_one_row index e data it :
  dense (items data) →
  items data !! index = Some (Item it) →
  scalars (handleItemChange index e data) = scalars data ∧
  items (handleItemChange index e data)
  = <[index := Item (if prices e then recompute_total (assign e it) else assign e it)]>
      (items data).
Proof.
  intros Hd Hit. unfold handleItemChange. cbn [scalars items].
  split; [done|]. rewrite spread_array_dense_id by done.
  rewrite Hit. cbn [spread_slot]. unfold array_set.
  apply lookup_lt_Some in Hit. by rewrite decide_True.
Qed.

Lemma handleItemChange_edits_one_row_witness :
  scalars (handleItemChange 1 (Description "Design")
             {| scalars := ∅; items := [Item blank_item; Item blank_item] |}) = ∅
  ∧ items (handleItemChange 1 (Description "Design")
             {| scalars := ∅; items := [Item blank_item; Item blank_item] |})
    = [Item blank_item;
       Item (mkItem None (Some "Design") (Some 1%float) (Some 0%float) (Some 0%float))].
Proof.
  apply (handleItemChange_edits_one_row 1 (Description "Design")
           {| scalars := ∅; items := [Item blank_item; Item blank_item] |} blank_item).
  - by repeat constructor.
  - reflexivity.
Defined.

(** X13. Adding a row and removing it again. On form data whose list has
    at least one item and no empty slot, [addItem] followed by [removeItem]
    at the index of the new row gives the form data back. *)
Theorem addItem_removeItem data :
  dense (items data) → items data ≠ [] →
  removeItem (length (items data)) (addItem data) = data.
Proof.
  intros Hd Hne. destruct data as [scal its]. cbn [items] in *.
  unfold removeItem, addItem. cbn [items scalars].
  rewrite spread_array_dense_id by done.
  rewrite decide_True by (rewrite length_app; destruct its; simpl; [done|lia]).
  f_equal. rewrite (filter_from_delete _ 0 (length its)); [|done|].
  - induction its as [|x its IH]; [done|]. simpl. f_equal.
    destruct its; [done|]. inversion Hd. by apply IH.
  - apply Forall_app. split; [done|]. by repeat constructor.
Qed.

Lemma addItem_removeItem_witness :
  removeItem 1 (addItem {| scalars := ∅; items := [Item blank_item] |})
  = {| scalars := ∅; items := [Item blank_item] |}.
Proof.
  apply (addItem_removeItem {| scalars := ∅; items := [Item blank_item] |}).
  - by repeat constructor.
  - discriminate.
Defined.

(** X14. Clearing the client selection. [handleClientSelect] with no id
    (or the empty id) removes [client_id] and empties the four client
    fields, whatever was selected before: clearing after any selection
    gives the same form data as clearing at once. It never touches the
    items. *)
Theorem handleClientSelect_clear parseInt clients clients' clientId data :
  handleClientSelect parseInt clients None
    (handleClientSelect parseInt clients' clientId data)
  = handleClientSelect parseInt clients None data ∧
  handleClientSelect parseInt clients (Some ""%string) data
  = handleClientSelect parseInt clients None data ∧
  scalars (handleClientSelect parseInt clients None data) !! "client_id"%string = None ∧
  (∀ k, k ∈ ["client_name"; "client_email"; "client_address"; "client_phone"]%string →
        scalars (handleClientSelect parseInt clients None data) !! k = Some (VStr "")) ∧
  items (handleClientSelect parseInt clients' clientId data) = items data.
Proof.
  split; [|split; [done|split; [|split]]].
  - unfold handleClientSelect.
    destruct clientId as [c|]; [destruct (String.eqb c "")|]; cbn [scalars items].
    + f_equal. apply map_eq. intros k.
      rewrite !lookup_insert, !lookup_delete, !lookup_insert, !lookup_delete.
      repeat case_decide; congruence.
    + destruct (find _ clients') as [client|]; cbn [scalars items]; [|done].
      f_equal. apply map_eq. intros k.
      rewrite !lookup_insert, !lookup_delete, !lookup_insert.
      repeat case_decide; congruence.
    + f_equal. apply map_eq. intros k.
      rewrite !lookup_insert, !lookup_delete, !lookup_insert, !lookup_delete.
      repeat case_decide; congruence.
  - cbn. by rewrite !lookup_insert_ne, lookup_delete_eq.
  - intros k Hk. cbn.
    rewrite !lookup_insert. repeat case_decide; try done.
    by repeat (apply elem_of_cons in Hk as [->|Hk]; [done|]);
      apply elem_of_nil in Hk.
  - unfold handleClientSelect.
    destruct clientId as [c|]; [destruct (String.eqb c "")|]; try done.
    by destruct (find _ clients').
Qed.

End FormRows.

(** * The totals *)

Module SummaryFacts.
Import Form FormFacts Summary.

Local Open Scope float_scope.

Lemma add_nan_r x : x + nan = nan.
Proof.
  apply Prim2SF_inj. rewrite add_spec.
  change (Prim2SF nan) with S754_nan.
  unfold SF64add, SFadd. by destruct (Prim2SF x).
Qed.

Lemma reduce_in_sync arr sum :
  Forall slot_in_sync arr →
  reduce (λ sum item, sum + to_number (Form.total item)) sum arr
  = reduce (λ sum item, sum + to_number (quantity item) * to_number (unit_price item))
           sum arr.
Proof.
  intros H. revert sum. induction H as [|s arr Hs _ IH]; intros sum; [done|].
  destruct s as [| |item]; simpl; [apply IH|done|].
  simpl in Hs. unfold in_sync in Hs. rewrite Hs. apply IH.
Qed.

Lemma spread_array_in_sync arr :
  Forall slot_in_sync arr → Forall slot_in_sync (spread_array arr).
Proof.
  intros H. unfold spread_array. apply Forall_fmap.
  eapply Forall_impl; [exact H|]. by intros [].
Qed.

Lemma filter_from_in_sync keep i arr :
  Forall slot_in_sync arr → Forall slot_in_sync (filter_from keep i arr).
Proof.
  intros H. revert i. induction H as [|s arr Hs _ IH]; intros i; simpl; [done|].
  destruct s; [apply IH| |]; destruct (keep i); try apply IH;
    constructor; try done; apply IH.
Qed.

Lemma edited_in_sync e (s : option Slot) :
  match e with Total _ | Id _ => False | _ => True end →
  match s with Some x => slot_in_sync x | None => True end →
  in_sync (if prices e then recompute_total (assign e (spread_slot s))
           else assign e (spread_slot s)).
Proof.
  intros He Hs. destruct e as [n|d|n|n|n]; [done| |reflexivity|reflexivity|done].
  cbn [prices].
  destruct s as [[| |item]|]; cbn [spread_slot assign]; try exact Hs;
    unfold in_sync; cbn [Form.total quantity unit_price to_number]; reflexivity.
Qed.

Lemma act_in_sync parseInt a data :
  rendered a → Forall slot_in_sync (items data) →
  Forall slot_in_sync (items (act parseInt a data)).
Proof.
  intros Ha H. destruct a as [clients clientId|field value|index e| |index]; simpl.
  - unfold handleClientSelect.
    destruct clientId as [c|]; [|done].
    destruct (String.eqb c ""); [done|]. by destruct (find _ clients).
  - done.
  - assert (in_sync (if prices e
                     then recompute_total (assign e (spread_slot (spread_array (items data) !! index)))
                     else assign e (spread_slot (spread_array (items data) !! index))))
      as Hobj.
    { apply edited_in_sync; [by destruct e|].
      destruct (spread_array (items data) !! index) as [x|] eqn:Hx; [|done].
      eapply (proj1 (Forall_lookup _ _) (spread_array_in_sync _ H)); done. }
    unfold array_set. case_decide.
    + apply Forall_insert; [by apply spread_array_in_sync|done].
    + apply Forall_app. split; [by apply spread_array_in_sync|].
      apply Forall_app. split; [by apply Forall_replicate|]. by constructor.
  - apply Forall_app. split; [by apply spread_array_in_sync|].
    constructor; [reflexivity|done].
  - unfold removeItem. case_decide; [|done]. by apply filter_from_in_sync.
Qed.

(** X15. The form and the preview agree on the subtotal. If every item
    of the form data has a [total] equal to [quantity * unit_price], then
    after any sequence of the operations the form's markup issues (client
    selection, field input, edits of an item's description, quantity or
    unit price, adding and removing items) the subtotal of [InvoiceForm]
    (the sum of the items' totals) and the one of [InvoicePreview] (the sum
    of the products) are the same value, or both fail on the same
    [undefined] element. *)
Theorem summary_matches_preview parseInt l data :
  Forall slot_in_sync (items data) → Forall rendered l →
  subtotal (items (acts parseInt l data))
  = preview_total (items (acts parseInt l data)).
Proof.
  intros H Hl. apply reduce_in_sync.
  revert data H. induction Hl as [|a l Ha _ IH]; intros data H; [done|].
  simpl. apply IH. by apply act_in_sync.
Qed.

Lemma summary_matches_preview_witness :
  subtotal (items (acts (λ _, nan)
                        [ItemChange 0 (Quantity 3); ItemChange 0 (UnitPrice 1500);
                         AddItem; ItemChange 1 (UnitPrice 2.5); RemoveItem 0]
                        (initialInvoiceData "INV-1" "2026-01-01" "2026-01-31")))
  = preview_total (items (acts (λ _, nan)
                        [ItemChange 0 (Quantity 3); ItemChange 0 (UnitPrice 1500);
                         AddItem; ItemChange 1 (UnitPrice 2.5); RemoveItem 0]
                        (initialInvoiceData "INV-1" "2026-01-01" "2026-01-31"))).
Proof.
  apply (summary_matches_preview (λ _, nan)
           [ItemChange 0 (Quantity 3); ItemChange 0 (UnitPrice 1500);
            AddItem; ItemChange 1 (UnitPrice 2.5); RemoveItem 0]
           (initialInvoiceData "INV-1" "2026-01-01" "2026-01-31")).
  - repeat constructor; reflexivity.
  - repeat constructor.
Defined.

Lemma key_delivery_fee field :
  field ≠ delivery_fee → key field ≠ "delivery_fee"%string.
Proof. by destruct field. Qed.

Lemma act_keeps_delivery_fee parseInt a data :
  leaves_delivery_fee a →
  scalars (act parseInt a data) !! "delivery_fee"%string
  = scalars data !! "delivery_fee"%string.
Proof.
  intros Ha. destruct a as [clients clientId|field value|index e| |index]; simpl.
  - unfold handleClientSelect.
    destruct clientId as [c|]; [destruct (String.eqb c "")|]; cbn [scalars].
    + by rewrite !lookup_insert_ne, lookup_delete_ne.
    + destruct (find _ clients); cbn [scalars]; [|done].
      by rewrite !lookup_insert_ne.
    + by rewrite !lookup_insert_ne, lookup_delete_ne.
  - rewrite lookup_insert_ne; [done|].
    apply key_delivery_fee. intros ->. exact Ha.
  - done.
  - done.
  - unfold removeItem. by case_decide.
Qed.

(** X16. A missing delivery fee. The initial form data of [HomePage] has
    no [delivery_fee] member, and no operation of the form other than an
    edit of the delivery-fee field gives it one. While the member is
    missing, the grand total computed by [InvoiceForm] and the one computed
    by [InvoicePreview] are [NaN], whatever the subtotal and the tax. *)
Theorem missing_delivery_fee parseInt number issue due l :
  Forall leaves_delivery_fee l →
  scalars (acts parseInt l (homeFormData number issue due)) !! "delivery_fee"%string = None ∧
  (∀ subtotal taxAmount, total subtotal taxAmount None = nan) ∧
  (∀ subtotal taxAmount, finalTotal subtotal taxAmount None = nan).
Proof.
  intros Hl. split; [|split; intros; apply add_nan_r].
  assert (∀ data, scalars (acts parseInt l data) !! "delivery_fee"%string
                  = scalars data !! "delivery_fee"%string) as ->.
  { induction Hl as [|a l Ha _ IH]; intros data; [done|].
    simpl. rewrite IH. by apply act_keeps_delivery_fee. }
  reflexivity.
Qed.

Lemma missing_delivery_fee_witness :
  scalars (acts (λ _, nan)
                [ItemChange 0 (Quantity 2); InputChange tax_rate (VNum 10); AddItem]
                (homeFormData "INV-2026-000001" "2026-01-01" "2026-01-31"))
    !! "delivery_fee"%string = None ∧
  (∀ subtotal taxAmount, total subtotal taxAmount None = nan) ∧
  (∀ subtotal taxAmount, finalTotal subtotal taxAmount None = nan).
Proof.
  apply (missing_delivery_fee (λ _, nan) "INV-2026-000001" "2026-01-01" "2026-01-31"
           [ItemChange 0 (Quantity 2); InputChange tax_rate (VNum 10); AddItem]).
  repeat constructor.
Defined.

End SummaryFacts.

(** * Integers as binary64 numbers *)

Module NumberFacts.
Import Number.

(** ** Rounding leaves a safe integer as it is *)

Lemma digits2_pos_log2 p : Zpos (digits2_pos p) = Z.log2 (Zpos p) + 1.
Proof.
  assert (∀ q, digits2_pos q = Pos.size q) as Hsize.
  { induction q; simpl; congruence. }
  destruct p; simpl; rewrite ?Hsize; lia.
Qed.

Lemma shr_1_double w :
  0 < w →
  shr_1 {| shr_m := 2 * w; shr_r := false; shr_s := false |}
  = {| shr_m := w; shr_r := false; shr_s := false |}.
Proof. destruct w; try lia. reflexivity. Qed.

Lemma iter_pos_shr_1 p : ∀ w,
  0 < w →
  SpecFloat.iter_pos shr_1 p {| shr_m := w * 2 ^ Zpos p; shr_r := false; shr_s := false |}
  = {| shr_m := w; shr_r := false; shr_s := false |}.
Proof.
  induction p as [p IH|p IH|]; intros w Hw.
  - replace (w * 2 ^ Z.pos p~1) with (2 * (w * 2 ^ Z.pos p * 2 ^ Z.pos p)).
    + cbn [SpecFloat.iter_pos].
      rewrite shr_1_double by nia. rewrite IH by nia. by apply IH.
    + rewrite Pos2Z.inj_xI, Z.pow_add_r, Z.pow_mul_r by lia.
      replace (2 ^ 2) with 4 by reflexivity. rewrite Z.pow_1_r.
      replace ((4 : Z) ^ Z.pos p) with (2 ^ Z.pos p * 2 ^ Z.pos p); [ring|].
      rewrite <- Z.pow_add_r by lia.
      replace (Z.pos p + Z.pos p) with (2 * Z.pos p) by lia.
      by rewrite Z.pow_mul_r by lia.
  - replace (w * 2 ^ Z.pos p~0) with (w * 2 ^ Z.pos p * 2 ^ Z.pos p).
    + cbn [SpecFloat.iter_pos]. rewrite IH by nia. by apply IH.
    + rewrite <- Z.mul_assoc, <- Z.pow_add_r by lia. do 2 f_equal. lia.
  - rewrite Z.pow_1_r, Z.mul_comm. cbn [SpecFloat.iter_pos]. by apply shr_1_double.
Qed.

Lemma binary_round_aux_exact s m e v k :
  0 ≤ k → Zpos m = Zpos v * 2 ^ k → Z.log2 (Zpos v) = 52 →
  -1074 ≤ e + k ≤ 971 →
  binary_round_aux prec emax s (Zpos m) e loc_Exact = S754_finite s v (e + k).
Proof.
  intros Hk Hm Hv He.
  assert (Z.log2 (Zpos m) = 52 + k) as Hlog.
  { rewrite Hm, Z.log2_mul_pow2 by lia. lia. }
  assert (shr_fexp prec emax (Zpos m) e loc_Exact
          = ({| shr_m := Zpos v; shr_r := false; shr_s := false |}, e + k)) as Hshr.
  { unfold shr_fexp, Zdigits2. rewrite digits2_pos_log2, Hlog.
    replace (fexp prec emax (52 + k + 1 + e) - e) with k
      by (unfold fexp, SpecFloat.emin, prec, emax; lia).
    unfold shr, shr_record_of_loc. destruct k as [|p|p]; [| |lia].
    - rewrite Z.pow_0_r, Z.mul_1_r in Hm. rewrite Hm. f_equal. lia.
    - rewrite Hm, iter_pos_shr_1 by lia. done. }
  unfold binary_round_aux. rewrite Hshr.
  cbn [shr_m loc_of_shr_record round_nearest_even].
  assert (shr_fexp prec emax (Zpos v) (e + k) loc_Exact
          = ({| shr_m := Zpos v; shr_r := false; shr_s := false |}, e + k)) as ->.
  { unfold shr_fexp, Zdigits2. rewrite digits2_pos_log2, Hv.
    replace (fexp prec emax (52 + 1 + (e + k)) - (e + k)) with 0
      by (unfold fexp, SpecFloat.emin, prec, emax; lia).
    reflexivity. }
  cbn [shr_m].
  replace (e + k <=? emax - prec) with true; [done|].
  symmetry. apply Z.leb_le. unfold emax, prec. lia.
Qed.

Lemma Zpos_iter_xO m d : Zpos (Pos.iter xO m d) = Zpos m * 2 ^ Zpos d.
Proof.
  induction d as [|d IH] using Pos.peano_ind.
  - simpl. lia.
  - rewrite Pos.iter_succ, Pos2Z.inj_xO, IH, Pos2Z.inj_succ, Z.pow_succ_r by lia. ring.
Qed.

Lemma log2_safe a : 0 < a < 2 ^ 53 → 0 ≤ Z.log2 a ≤ 52.
Proof.
  intros Ha. split; [apply Z.log2_nonneg|].
  assert (Z.log2 a < 53); [|lia]. apply Z.log2_lt_pow2; lia.
Qed.

Lemma Zpos_mant a :
  0 < a < 2 ^ 53 → Zpos (mant a) = a * 2 ^ (52 - Z.log2 a).
Proof.
  intros Ha. pose proof (log2_safe a Ha). unfold mant.
  rewrite Z.abs_eq by lia. rewrite Z2Pos.id; [done|].
  apply Z.mul_pos_pos; [lia|]. apply Z.pow_pos_nonneg; lia.
Qed.

Lemma log2_mant a : 0 < a < 2 ^ 53 → Z.log2 (Zpos (mant a)) = 52.
Proof.
  intros Ha. pose proof (log2_safe a Ha).
  rewrite Zpos_mant, Z.log2_mul_pow2 by lia. lia.
Qed.

Lemma mant_opp z : mant (- z) = mant z.
Proof. unfold mant. by rewrite Z.abs_opp. Qed.

Lemma expo_opp z : expo (- z) = expo z.
Proof. unfold expo. by rewrite Z.abs_opp. Qed.

Lemma binary_round_exact s m a e :
  0 < a < 2 ^ 53 → -1074 ≤ e ≤ 0 → Zpos m = a * 2 ^ (- e) →
  binary_round prec emax s m e = S754_finite s (mant a) (expo a).
Proof.
  intros Ha He Hm. pose proof (log2_safe a Ha) as HL.
  assert (Z.log2 (Zpos m) = Z.log2 a - e) as Hlog.
  { rewrite Hm, Z.log2_mul_pow2 by lia. lia. }
  unfold binary_round. rewrite digits2_pos_log2, Hlog.
  replace (fexp prec emax (Z.log2 a - e + 1 + e)) with (Z.log2 a - 52)
    by (unfold fexp, SpecFloat.emin, prec, emax; lia).
  unfold shl_align, expo. rewrite (Z.abs_eq a) by lia.
  destruct (Z.log2 a - 52 - e) as [|k|d] eqn:Hk.
  - replace (Z.log2 a - 52) with (e + 0) by lia.
    apply binary_round_aux_exact; [lia| |by apply log2_mant|lia].
    rewrite Zpos_mant, Hm by done. rewrite Z.pow_0_r, Z.mul_1_r. do 2 f_equal. lia.
  - replace (Z.log2 a - 52) with (e + Zpos k) by lia.
    apply binary_round_aux_exact; [lia| |by apply log2_mant|lia].
    rewrite Zpos_mant, Hm by done. rewrite <- Z.mul_assoc, <- Z.pow_add_r by lia.
    do 2 f_equal. lia.
  - replace (Z.log2 a - 52) with (Z.log2 a - 52 + 0) at 2 by lia.
    apply binary_round_aux_exact; [lia| |by apply log2_mant|lia].
    rewrite Zpos_iter_xO, Zpos_mant, Hm by done.
    rewrite Z.pow_0_r, Z.mul_1_r, <- Z.mul_assoc, <- Z.pow_add_r by lia.
    do 2 f_equal. lia.
Qed.

Lemma binary_normalize_exact z e :
  z ≠ 0 → safe z → -1074 ≤ e ≤ 0 →
  binary_normalize prec emax (z * 2 ^ (- e)) e false = canon z.
Proof.
  unfold safe. intros Hz Hs He.
  assert (0 < 2 ^ (- e)) as Hpow by (apply Z.pow_pos_nonneg; lia).
  unfold canon. rewrite (proj2 (Z.eqb_neq z 0)) by done.
  unfold binary_normalize.
  destruct (z * 2 ^ (- e)) as [|m|m] eqn:Hm; [nia| |].
  - assert (0 < z) by nia. rewrite (proj2 (Z.ltb_ge z 0)) by lia.
    rewrite (binary_round_exact false m z e); [done|lia|lia|lia].
  - assert (z < 0) by nia. rewrite (proj2 (Z.ltb_lt z 0)) by lia.
    rewrite <- (mant_opp z), <- (expo_opp z).
    rewrite (binary_round_exact true m (- z) e); [done|lia|lia|].
    rewrite Z.mul_opp_l, Hm. lia.
Qed.

Lemma canon_normalize z : safe z → binary_normalize prec emax z 0 false = canon z.
Proof.
  intros Hs. destruct (decide (z = 0)) as [->|Hz]; [done|].
  rewrite <- (binary_normalize_exact z 0) by (done || lia).
  f_equal. simpl. lia.
Qed.

Lemma valid_canon z : safe z → valid_binary (canon z) = true.
Proof.
  unfold safe, canon. intros Hs. destruct (Z.eqb_spec z 0) as [|Hz]; [done|].
  assert (0 < Z.abs z < 2 ^ 53) as Ha by lia.
  pose proof (log2_safe _ Ha) as HL.
  unfold SpecFloat.valid_binary, bounded, canonical_mantissa.
  rewrite digits2_pos_log2.
  assert (mant z = mant (Z.abs z)) as ->
    by (unfold mant; by rewrite (Z.abs_eq (Z.abs z)) by lia).
  rewrite log2_mant by done. unfold expo.
  apply andb_true_iff. split.
  - apply Z.eqb_eq. unfold fexp, SpecFloat.emin, prec, emax. lia.
  - apply Z.leb_le. unfold prec, emax. lia.
Qed.

Lemma Prim2SF_num z : safe z → Prim2SF (num z) = canon z.
Proof.
  intros Hs. unfold num. rewrite canon_normalize by done.
  apply Prim2SF_SF2Prim, valid_canon, Hs.
Qed.

(** ** The operations of [SpecFloat] on normal forms *)

Lemma aligned z ez :
  z ≠ 0 → safe z → ez ≤ expo z →
  cond_Zopp (z <? 0) (Zpos (fst (shl_align (mant z) (expo z) ez))) = z * 2 ^ (- ez).
Proof.
  unfold safe. intros Hz Hs He.
  assert (0 < Z.abs z < 2 ^ 53) as Ha by lia.
  pose proof (log2_safe _ Ha) as HL.
  assert (Zpos (fst (shl_align (mant z) (expo z) ez)) = Z.abs z * 2 ^ (- ez)) as ->.
  { assert (mant z = mant (Z.abs z)) as Habs
      by (unfold mant; by rewrite (Z.abs_eq (Z.abs z)) by lia).
    unfold shl_align. unfold expo in *.
    destruct (ez - (Z.log2 (Z.abs z) - 52)) as [|k|d] eqn:Hk; [|lia|]; cbn [fst].
    - rewrite Habs, Zpos_mant by done. do 2 f_equal. lia.
    - rewrite Zpos_iter_xO, Habs, Zpos_mant by done.
      rewrite <- Z.mul_assoc, <- Z.pow_add_r by lia. do 2 f_equal. lia. }
  unfold cond_Zopp. destruct (Z.ltb_spec z 0).
  - rewrite Z.abs_neq by lia. ring.
  - rewrite Z.abs_eq by lia. done.
Qed.

Lemma expo_range z : z ≠ 0 → safe z → -52 ≤ expo z ≤ 0.
Proof.
  unfold safe, expo. intros Hz Hs.
  assert (0 < Z.abs z < 2 ^ 53) as Ha by lia.
  pose proof (log2_safe _ Ha). lia.
Qed.

Lemma canon_nonzero z :
  z ≠ 0 → canon z = S754_finite (z <? 0) (mant z) (expo z).
Proof. intros Hz. unfold canon. by rewrite (proj2 (Z.eqb_neq z 0)). Qed.

Lemma canon_opp z : z ≠ 0 → canon (- z) = SFopp (canon z).
Proof.
  intros Hz. rewrite !canon_nonzero by lia. simpl.
  rewrite mant_opp, expo_opp. f_equal.
  destruct (Z.ltb_spec z 0), (Z.ltb_spec (- z) 0); done || lia.
Qed.

Lemma SFadd_canon a b :
  safe a → safe b → safe (a + b) →
  SFadd prec emax (canon a) (canon b) = canon (a + b).
Proof.
  intros Ha Hb Hab.
  destruct (decide (a = 0)) as [->|Hna].
  { destruct (decide (b = 0)) as [->|Hnb]; [done|].
    rewrite Z.add_0_l, (canon_nonzero b) by done. done. }
  destruct (decide (b = 0)) as [->|Hnb].
  { rewrite Z.add_0_r, (canon_nonzero a) by done. done. }
  rewrite (canon_nonzero a), (canon_nonzero b) by done.
  pose proof (expo_range a Hna Ha). pose proof (expo_range b Hnb Hb).
  unfold SFadd. rewrite !aligned by (done || lia).
  rewrite <- Z.mul_add_distr_r.
  destruct (decide (a + b = 0)) as [Hz|Hz].
  - rewrite Hz. done.
  - apply binary_normalize_exact; [done|done|lia].
Qed.

Lemma SFsub_canon a b :
  safe a → safe b → safe (a - b) →
  SFsub prec emax (canon a) (canon b) = canon (a - b).
Proof.
  intros Ha Hb Hab.
  destruct (decide (b = 0)) as [->|Hnb].
  { rewrite Z.sub_0_r. destruct (decide (a = 0)) as [->|Hna]; [done|].
    by rewrite (canon_nonzero a). }
  destruct (decide (a = 0)) as [->|Hna].
  { rewrite Z.sub_0_l, canon_opp, (canon_nonzero b) by done. done. }
  rewrite (canon_nonzero a), (canon_nonzero b) by done.
  pose proof (expo_range a Hna Ha). pose proof (expo_range b Hnb Hb).
  unfold SFsub. rewrite !aligned by (done || lia).
  rewrite <- Z.mul_sub_distr_r.
  destruct (decide (a - b = 0)) as [Hz|Hz].
  - rewrite Hz. done.
  - apply binary_normalize_exact; [done|done|lia].
Qed.

Lemma SFmul_canon a b :
  0 ≤ a → 0 ≤ b → a * b < 2 ^ 53 →
  SFmul prec emax (canon a) (canon b) = canon (a * b).
Proof.
  intros Ha Hb Hab.
  destruct (decide (a = 0)) as [->|Hna].
  { rewrite Z.mul_0_l. destruct (decide (b = 0)) as [->|Hnb]; [done|].
    rewrite (canon_nonzero b) by done. by rewrite (proj2 (Z.ltb_ge b 0)) by lia. }
  destruct (decide (b = 0)) as [->|Hnb].
  { rewrite Z.mul_0_r.
    rewrite (canon_nonzero a) by done. by rewrite (proj2 (Z.ltb_ge a 0)) by lia. }
  assert (0 < a * b) as Hpos by nia.
  assert (0 < a < 2 ^ 53) as Ha' by nia.
  assert (0 < b < 2 ^ 53) as Hb' by nia.
  pose proof (log2_safe _ Ha'). pose proof (log2_safe _ Hb').
  pose proof (log2_safe (a * b) ltac:(lia)).
  pose proof (Z.log2_mul_below a b ltac:(lia) ltac:(lia)) as Hbelow.
  rewrite !canon_nonzero by lia.
  rewrite !(proj2 (Z.ltb_ge _ 0)) by lia.
  unfold SFmul. cbn [xorb]. unfold expo. rewrite !Z.abs_eq by lia.
  replace (Z.log2 (a * b) - 52)
    with (Z.log2 a - 52 + (Z.log2 b - 52) + (Z.log2 (a * b) - Z.log2 a - Z.log2 b + 52))
    by lia.
  apply binary_round_aux_exact; [lia| |by apply log2_mant; lia|lia].
  rewrite Pos2Z.inj_mul, !Zpos_mant by lia.
  transitivity (a * b * 2 ^ (104 - Z.log2 a - Z.log2 b)).
  - replace (104 - Z.log2 a - Z.log2 b)
      with ((52 - Z.log2 a) + (52 - Z.log2 b)) by lia.
    rewrite Z.pow_add_r by lia. ring.
  - replace (104 - Z.log2 a - Z.log2 b)
      with ((52 - Z.log2 (a * b)) + (Z.log2 (a * b) - Z.log2 a - Z.log2 b + 52)) by lia.
    rewrite Z.pow_add_r by lia. ring.
Qed.

Lemma compare_canon_pos a b :
  0 < a < 2 ^ 53 → 0 < b < 2 ^ 53 →
  match expo a ?= expo b with
  | Lt => Lt
  | Gt => Gt
  | Eq => Pos.compare_cont Eq (mant a) (mant b)
  end = (a ?= b).
Proof.
  intros Ha Hb. pose proof (log2_safe _ Ha). pose proof (log2_safe _ Hb).
  unfold expo. rewrite !Z.abs_eq by lia.
  destruct (Z.compare_spec (Z.log2 a - 52) (Z.log2 b - 52)) as [He|He|He].
  - change (Pos.compare_cont Eq (mant a) (mant b)) with (mant a ?= mant b)%positive.
    rewrite Pos2Z.inj_compare, !Zpos_mant by done.
    replace (Z.log2 b) with (Z.log2 a) by lia.
    assert (0 < 2 ^ (52 - Z.log2 a)) as Hpow by (apply Z.pow_pos_nonneg; lia).
    destruct (Z.compare_spec a b) as [->| |].
    + apply Z.compare_refl.
    + apply Z.compare_lt_iff. nia.
    + apply Z.compare_gt_iff. nia.
  - symmetry. apply Z.compare_lt_iff.
    destruct (Z.lt_ge_cases a b) as [|Hge]; [done|].
    apply Z.log2_le_mono in Hge. lia.
  - symmetry. apply Z.compare_gt_iff.
    destruct (Z.lt_ge_cases b a) as [|Hge]; [done|].
    apply Z.log2_le_mono in Hge. lia.
Qed.

Lemma SFcompare_canon a b :
  safe a → safe b → SFcompare (canon a) (canon b) = Some (a ?= b).
Proof.
  unfold safe. intros Ha Hb.
  destruct (decide (a = 0)) as [->|Hna]; destruct (decide (b = 0)) as [->|Hnb].
  - done.
  - rewrite (canon_nonzero b) by done.
    change (canon 0) with (S754_zero false). cbn [SFcompare]. f_equal.
    destruct (Z.ltb_spec b 0); symmetry;
      [apply Z.compare_gt_iff|apply Z.compare_lt_iff]; lia.
  - rewrite (canon_nonzero a) by done.
    change (canon 0) with (S754_zero false). cbn [SFcompare]. f_equal.
    destruct (Z.ltb_spec a 0); symmetry;
      [apply Z.compare_lt_iff|apply Z.compare_gt_iff]; lia.
  - rewrite (canon_nonzero a), (canon_nonzero b) by done.
    cbn [SFcompare]. f_equal.
    destruct (Z.ltb_spec a 0), (Z.ltb_spec b 0).
    + rewrite <- (mant_opp a), <- (mant_opp b), <- (expo_opp a), <- (expo_opp b).
      pose proof (compare_canon_pos (- a) (- b) ltac:(lia) ltac:(lia)) as Hc.
      rewrite Z.compare_opp in Hc.
      rewrite (Z.compare_antisym b a), <- Hc.
      by destruct (expo (- a) ?= expo (- b)).
    + symmetry. apply Z.compare_lt_iff. lia.
    + symmetry. apply Z.compare_gt_iff. lia.
    + apply compare_canon_pos; lia.
Qed.

(** ** On floats *)

Local Open Scope float_scope.

Lemma num_add a b :
  safe a → safe b → safe (a + b) → num a + num b = num (a + b).
Proof.
  intros Ha Hb Hab. apply Prim2SF_inj.
  rewrite add_spec, !Prim2SF_num by done. by apply SFadd_canon.
Qed.

Lemma num_sub a b :
  safe a → safe b → safe (a - b) → num a - num b = num (a - b).
Proof.
  intros Ha Hb Hab. apply Prim2SF_inj.
  rewrite sub_spec, !Prim2SF_num by done. by apply SFsub_canon.
Qed.

Lemma num_mul a b :
  (0 ≤ a < 2 ^ 53)%Z → (0 ≤ b < 2 ^ 53)%Z → (a * b < 2 ^ 53)%Z →
  num a * num b = num (a * b).
Proof.
  intros Ha Hb Hab.
  assert (safe a ∧ safe b ∧ safe (a * b)) as (Hsa & Hsb & Hsab).
  { unfold safe. repeat split; nia. }
  apply Prim2SF_inj.
  rewrite mul_spec, !Prim2SF_num by done. apply SFmul_canon; lia.
Qed.

Lemma num_ltb a b : safe a → safe b → (num a <? num b) = (a <? b)%Z.
Proof.
  intros Ha Hb. rewrite FloatAxioms.ltb_spec, !Prim2SF_num by done.
  unfold SFltb. rewrite SFcompare_canon by done. unfold Z.ltb.
  by destruct (a ?= b)%Z.
Qed.

Lemma num_leb a b : safe a → safe b → (num a <=? num b) = (a <=? b)%Z.
Proof.
  intros Ha Hb. rewrite FloatAxioms.leb_spec, !Prim2SF_num by done.
  unfold SFleb. rewrite SFcompare_canon by done. unfold Z.leb.
  by destruct (a ?= b)%Z.
Qed.

Lemma num_eqb a b : safe a → safe b → (num a =? num b) = (a =? b)%Z.
Proof.
  intros Ha Hb. rewrite FloatAxioms.eqb_spec, !Prim2SF_num by done.
  unfold SFeqb. rewrite SFcompare_canon by done.
  destruct (Z.eqb_spec a b) as [->|Hne].
  - by rewrite Z.compare_refl.
  - destruct (a ?= b)%Z eqn:E; [|done|done]. by apply Z.compare_eq in E.
Qed.

Lemma num_inj a b : safe a → safe b → num a = num b → a = b.
Proof.
  intros Ha Hb Heq. apply Z.eqb_eq. rewrite <- num_eqb, Heq by done.
  rewrite num_eqb by done. apply Z.eqb_refl.
Qed.

End NumberFacts.

(** * Properties of the pagination bar *)

Module PaginationFacts.
Import Number NumberFacts Pagination.

Ltac safe_tac :=
  unfold safe in *; change (2 ^ 53)%Z with 9007199254740992%Z in *; lia.

Local Open Scope float_scope.

Lemma is_nan_num z : safe z → is_nan (num z) = false.
Proof.
  intros Hz. unfold is_nan. rewrite num_eqb by done. by rewrite Z.eqb_refl.
Qed.

Lemma max_num a b : safe a → safe b → Math.max (num a) (num b) = num (Z.max a b).
Proof.
  intros Ha Hb. unfold Math.max. rewrite !is_nan_num, !num_ltb by done.
  cbn [orb]. destruct (Z.ltb_spec a b); [by rewrite Z.max_r by lia|].
  destruct (Z.ltb_spec b a); [by rewrite Z.max_l by lia|].
  assert (a = b) as -> by lia. rewrite Z.max_id. by destruct (classify (num b)).
Qed.

Lemma min_num a b : safe a → safe b → Math.min (num a) (num b) = num (Z.min a b).
Proof.
  intros Ha Hb. unfold Math.min. rewrite !is_nan_num, !num_ltb by done.
  cbn [orb]. destruct (Z.ltb_spec a b); [by rewrite Z.min_l by lia|].
  destruct (Z.ltb_spec b a); [by rewrite Z.min_r by lia|].
  assert (a = b) as -> by lia. rewrite Z.min_id. by destruct (classify (num b)).
Qed.

Lemma halfRange_2 : Math.floor (5 / 2) = num 2.
Proof. vm_compute. reflexivity. Qed.

Lemma one_num : 1 = num 1.
Proof. vm_compute. reflexivity. Qed.

Lemma five_num : 5 = num 5.
Proof. vm_compute. reflexivity. Qed.

Lemma push_from_num fuel : ∀ s e,
  safe s → safe e → safe (e + 1) → (s ≤ e + 1)%Z →
  (Z.to_nat (e - s + 1) < fuel)%nat →
  push_from fuel (num s) (num e) = Some (num <$> seqZ s (e - s + 1)).
Proof.
  induction fuel as [|fuel IH]; intros s e Hs He He1 Hle Hfuel; [lia|].
  cbn [push_from]. rewrite num_leb by safe_tac.
  destruct (Z.leb_spec s e).
  - rewrite one_num, num_add by safe_tac. rewrite IH by safe_tac.
    rewrite (seqZ_cons s) by lia. cbn. do 3 f_equal. f_equal; lia.
  - replace (e - s + 1)%Z with 0%Z by lia. done.
Qed.

(** The window, in closed form. *)
Lemma window currentPage totalPages fuel :
  (1 ≤ currentPage ≤ totalPages)%Z → (totalPages + 3 < 2 ^ 53)%Z → (5 < fuel)%nat →
  getPageNumbers fuel (num currentPage) (num totalPages)
  = Some (num <$> seqZ (Z.max 1 (Z.min (currentPage - 2) (totalPages - 4)))
                       (Z.min 5 totalPages)).
Proof.
  intros Hc Ht Hfuel. unfold getPageNumbers.
  rewrite halfRange_2, one_num, five_num.
  rewrite (num_sub currentPage 2) by safe_tac.
  rewrite (max_num 1 (currentPage - 2)) by safe_tac.
  rewrite (num_add _ 5) by safe_tac.
  rewrite (num_sub _ 1) by safe_tac.
  rewrite (min_num totalPages) by safe_tac.
  rewrite (num_sub (Z.min _ _) (Z.max _ _)) by safe_tac.
  rewrite (num_sub 5 1) by safe_tac.
  rewrite num_ltb by safe_tac.
  rewrite (num_sub (Z.min _ _) 5) by safe_tac.
  rewrite (num_add _ 1) by safe_tac.
  rewrite (max_num 1) by safe_tac.
  destruct (Z.ltb_spec
              (Z.min totalPages (Z.max 1 (currentPage - 2) + 5 - 1)
               - Z.max 1 (currentPage - 2)) (5 - 1)).
  - rewrite push_from_num by (safe_tac || lia). do 2 f_equal. f_equal; lia.
  - rewrite push_from_num by (safe_tac || lia). do 2 f_equal. f_equal; lia.
Qed.

(** X17. The window of page numbers. For a current page within
    [1 .. totalPages], with [totalPages + 3] a safe integer,
    [getPageNumbers] returns (its loop ends within six tests) the
    [min(5, totalPages)] consecutive pages from
    [max(1, min(currentPage - 2, totalPages - 4))] on: all within
    [1 .. totalPages], the current page among them. The window starts two
    pages before the current one whenever that leaves it inside the
    range, and is pushed back inside otherwise. Past the safe integers
    the loop need not end: see [page_loop_never_returns]. *)
Theorem page_window currentPage totalPages fuel :
  (1 ≤ currentPage ≤ totalPages)%Z → (totalPages + 3 < 2 ^ 53)%Z → (5 < fuel)%nat →
  ∃ pages,
    getPageNumbers fuel (num currentPage) (num totalPages) = Some (num <$> pages) ∧
    pages = seqZ (Z.max 1 (Z.min (currentPage - 2) (totalPages - 4)))
                 (Z.min 5 totalPages) ∧
    length pages = Z.to_nat (Z.min 5 totalPages) ∧
    currentPage ∈ pages ∧
    ∀ page, page ∈ pages → (1 ≤ page ≤ totalPages)%Z.
Proof.
  intros Hc Ht Hfuel. eexists. split; [by apply window|]. split; [done|].
  split; [by rewrite length_seqZ|]. split.
  - apply elem_of_seqZ. lia.
  - intros page Hp. apply elem_of_seqZ in Hp. lia.
Qed.

Lemma page_window_witness :
  ∃ pages,
    getPageNumbers 6 (num 9) (num 10) = Some (num <$> pages) ∧
    pages = seqZ (Z.max 1 (Z.min (9 - 2) (10 - 4))) (Z.min 5 10) ∧
    length pages = Z.to_nat (Z.min 5 10) ∧
    (9 ∈ pages)%Z ∧
    ∀ page, page ∈ pages → (1 ≤ page ≤ 10)%Z.
Proof. apply (page_window 9 10 6); [lia|done|lia]. Defined.

(** At [2^53] the step [i++] no longer advances. *)
Lemma push_from_stuck fuel :
  push_from fuel 9007199254740992 9007199254740992 = None.
Proof.
  induction fuel as [|fuel IH]; [done|]. cbn [push_from].
  change (9007199254740992 <=? 9007199254740992) with true.
  change (9007199254740992 + 1) with 9007199254740992. by rewrite IH.
Qed.

(** With [currentPage = totalPages = 2^53] the loop of [getPageNumbers]
    pushes five pages and goes on testing [2^53 <= 2^53] for ever. *)
Lemma page_loop_never_returns fuel :
  getPageNumbers fuel (num (2 ^ 53)) (num (2 ^ 53)) = None.
Proof.
  unfold getPageNumbers.
  change (push_from fuel 9007199254740988 9007199254740992 = None).
  do 4 (destruct fuel as [|fuel]; [done|];
        cbn [push_from];
        match goal with
        | |- context [?x <=? ?y] =>
            let b := eval vm_compute in (x <=? y) in change (x <=? y) with b
        end;
        match goal with
        | |- context [push_from _ (?x + 1) _] =>
            let z := eval vm_compute in (x + 1) in change (x + 1) with z
        end).
  by rewrite push_from_stuck.
Qed.

(** X18. Where the buttons lead. For a current page within
    [1 .. totalPages], with [totalPages + 3] a safe integer, the component
    returns. With one page it renders nothing. Otherwise every button
    that is not disabled asks for a page within [1 .. totalPages], one of
    the page buttons asks for the current page, and while [loading] every
    button is disabled. [totalItems] and [pageSize] may be any numbers. *)
Theorem pagination_controls currentPage totalPages totalItems pageSize loading fuel :
  (1 ≤ currentPage ≤ totalPages)%Z → (totalPages + 3 < 2 ^ 53)%Z → (5 < fuel)%nat →
  ∃ out,
    Pagination fuel (num currentPage) (num totalPages) totalItems pageSize loading
    = Some out ∧
    match out with
    | Null => (totalPages ≤ 1)%Z
    | Bar v =>
        (1 < totalPages)%Z ∧
        (∀ c, c ∈ controls v → disabled c = false →
              ∃ page, target c = num page ∧ (1 ≤ page ≤ totalPages)%Z) ∧
        (∃ c, c ∈ pageNumbers v ∧ target c = num currentPage) ∧
        (loading = true → ∀ c, c ∈ controls v → disabled c = true)
    end.
Proof.
  intros Hc Ht Hfuel. unfold Pagination.
  rewrite one_num, num_leb by safe_tac.
  destruct (Z.leb_spec totalPages 1) as [|Hlt]; [by exists Null|].
  rewrite (window _ _ _ Hc Ht Hfuel). cbn [mbind option_bind].
  eexists. split; [reflexivity|].
  split; [done|]. unfold controls. cbn [first previous pageNumbers next last].
  rewrite !num_eqb by safe_tac.
  split; [|split].
  - intros c Hin Hen.
    apply elem_of_cons in Hin as [->|Hin]; [exists 1%Z; split; [done|lia]|].
    apply elem_of_cons in Hin as [->|Hin].
    { simpl in *. apply orb_false_iff in Hen as [Hne _].
      apply Z.eqb_neq in Hne. exists (currentPage - 1)%Z.
      split; [apply num_sub; safe_tac|lia]. }
    apply elem_of_app in Hin as [Hin|Hin].
    { apply list_elem_of_fmap in Hin as (x & -> & Hx).
      apply list_elem_of_fmap in Hx as (page & -> & Hpage).
      apply elem_of_seqZ in Hpage. exists page. split; [done|lia]. }
    apply elem_of_cons in Hin as [->|Hin].
    { simpl in *. apply orb_false_iff in Hen as [Hne _].
      apply Z.eqb_neq in Hne. exists (currentPage + 1)%Z.
      split; [apply num_add; safe_tac|lia]. }
    apply elem_of_cons in Hin as [->|Hin]; [exists totalPages; split; [done|lia]|].
    by apply elem_of_nil in Hin.
  - exists {| disabled := loading; target := num currentPage |}. split; [|done].
    apply list_elem_of_fmap. exists (num currentPage). split; [done|].
    apply list_elem_of_fmap. exists currentPage. split; [done|].
    apply elem_of_seqZ. lia.
  - intros -> c Hin.
    apply elem_of_cons in Hin as [->|Hin]; [simpl; apply orb_true_r|].
    apply elem_of_cons in Hin as [->|Hin]; [simpl; apply orb_true_r|].
    apply elem_of_app in Hin as [Hin|Hin].
    { by apply list_elem_of_fmap in Hin as (page & -> & Hpage). }
    apply elem_of_cons in Hin as [->|Hin]; [simpl; apply orb_true_r|].
    apply elem_of_cons in Hin as [->|Hin]; [simpl; apply orb_true_r|].
    by apply elem_of_nil in Hin.
Qed.

Lemma pagination_controls_witness :
  ∃ out,
    Pagination 6 (num 1) (num 3) 25 10 false = Some out ∧
    match out with
    | Null => (3 ≤ 1)%Z
    | Bar v =>
        (1 < 3)%Z ∧
        (∀ c, c ∈ controls v → disabled c = false →
              ∃ page, target c = num page ∧ (1 ≤ page ≤ 3)%Z) ∧
        (∃ c, c ∈ pageNumbers v ∧ target c = num 1) ∧
        (false = true → ∀ c, c ∈ controls v → disabled c = true)
    end.
Proof. apply (pagination_controls 1 3 25 10 false 6); [lia|done|lia]. Defined.

(** X19. "Showing a to b of n". For integers with
    [currentPage * pageSize] and [totalItems + 1] safe: when the page
    size is positive and the current page starts before the end of the
    items, the range shown is not empty, ends at the last item at most,
    and holds no more items than a page; and when the current page is
    full, the next page starts at the item after its last one. *)
Theorem items_shown currentPage totalPages totalItems pageSize loading fuel v :
  Pagination fuel (num currentPage) totalPages (num totalItems) (num pageSize) loading
  = Some (Bar v) →
  (1 ≤ pageSize)%Z → (1 ≤ currentPage)%Z →
  ((currentPage - 1) * pageSize < totalItems)%Z →
  (currentPage * pageSize < 2 ^ 53)%Z → (totalItems + 1 < 2 ^ 53)%Z →
  ∃ a b,
    startItem v = num a ∧ endItem v = num b ∧
    (a ≤ b ≤ totalItems)%Z ∧ (b - a < pageSize)%Z ∧
    ((currentPage * pageSize ≤ totalItems)%Z →
     ∀ fuel' v',
       Pagination fuel' (num (currentPage + 1)) totalPages (num totalItems)
         (num pageSize) loading = Some (Bar v') →
       startItem v' = num (b + 1)).
Proof.
  unfold Pagination. destruct (totalPages <=? 1); [done|].
  intros Hv Hps Hc Hlt Hprod Hti.
  assert (currentPage * pageSize = (currentPage - 1) * pageSize + pageSize)%Z
    as Hsplit by ring.
  assert (0 ≤ (currentPage - 1) * pageSize)%Z as Hnn by nia.
  assert (currentPage ≤ currentPage * pageSize)%Z as Hcp by nia.
  assert (pageSize ≤ currentPage * pageSize)%Z as Hpp by nia.
  destruct (getPageNumbers fuel (num currentPage) totalPages) as [pages|]; [|done].
  cbn [mbind option_bind] in Hv. injection Hv as <-. cbn [startItem endItem].
  exists ((currentPage - 1) * pageSize + 1)%Z,
         (Z.min (currentPage * pageSize) totalItems).
  split; [|split; [|split; [|split]]].
  - rewrite one_num, num_sub, num_mul, num_add by safe_tac. done.
  - rewrite num_mul, min_num by safe_tac. done.
  - lia.
  - lia.
  - intros Hfull fuel' v'.
    destruct (getPageNumbers fuel' (num (currentPage + 1)) totalPages); [|done].
    cbn [mbind option_bind]. intros [= <-]. cbn [startItem].
    rewrite one_num, num_sub, num_mul, num_add by safe_tac.
    f_equal. lia.
Qed.

Lemma items_shown_witness :
  ∃ a b,
    startItem last_page = num a ∧ endItem last_page = num b ∧
    (a ≤ b ≤ 25)%Z ∧ (b - a < 10)%Z ∧
    ((3 * 10 ≤ 25)%Z →
     ∀ fuel' v',
       Pagination fuel' (num (3 + 1)) 3 (num 25) (num 10) false = Some (Bar v') →
       startItem v' = num (b + 1)).
Proof.
  apply (items_shown 3 3 25 10 false 6 last_page);
    [vm_compute; reflexivity|lia|lia|lia|done|done].
Defined.

End PaginationFacts.

(** * Saving an invoice *)

Module InvoicesFacts.
Import Api Auth Form Invoices.

Lemma lookup_put k k' v (m : gmap string Value) :
  put k v m !! k' =
  if decide (k = k') then match v with Some x => Some x | None => m !! k' end
  else m !! k'.
Proof.
  unfold put. destruct v; case_decide; subst; try done.
  - by rewrite lookup_insert_eq.
  - by rewrite lookup_insert_ne.
Qed.

Lemma every_true p arr :
  every p arr = Some true →
  Forall (λ s, match s with
               | Hole => True
               | Undefined => False
               | Item item => p item = true
               end) arr.
Proof.
  induction arr as [|s arr IH]; [done|]. destruct s as [| |item]; simpl.
  - intros H. constructor; [done|by apply IH].
  - done.
  - destruct (p item) eqn:Hp; [|done]. intros H. constructor; [done|by apply IH].
Qed.

Lemma item_ok_row item : item_ok item = true → row_ok (Item item).
Proof.
  unfold item_ok. intros H.
  apply andb_true_iff in H as [H Hp]. apply andb_true_iff in H as [Hd Hq].
  split; [|done].
  destruct (description item) as [d|]; [|done]. simpl in Hd.
  exists d. split; [done|]. intros ->. done.
Qed.

Lemma map_items_defined f arr :
  Forall (λ s, s ≠ Undefined) arr →
  ∃ rows, map_items f arr = Some rows ∧ length rows = length arr.
Proof.
  induction 1 as [|s arr Hs _ (rows & IH & Hlen)]; [by exists []|].
  destruct s as [| |item]; [|done|]; simpl; rewrite IH; simpl;
    eexists; (split; [reflexivity|]); simpl; by rewrite Hlen.
Qed.

Lemma isFormValid_as_draft data : isFormValid (as_draft data) = isFormValid data.
Proof.
  unfold isFormValid, as_draft. cbn [scalars items].
  by rewrite !lookup_insert_ne.
Qed.

(** X20. What a valid form guarantees. When [isFormValid] accepts the
    form data, the invoice number and both dates are non-empty, the list
    has at least one slot and no [undefined] element, every item has a
    non-empty description, a quantity above zero and a unit price of zero
    or more, a client is selected or all four manual client fields are
    filled, and both request bodies can be built, with one row per slot. *)
Theorem valid_form_is_sendable data :
  isFormValid data = Some true →
  (∀ k, k ∈ ["invoice_number"; "issue_date"; "due_date"]%string →
        truthy (scalars data !! k) = true) ∧
  items data ≠ [] ∧ Forall row_ok (items data) ∧
  (truthy (scalars data !! "client_id"%string) = true ∨
   ∀ k, k ∈ ["client_name"; "client_email"; "client_address"; "client_phone"]%string →
        truthy (scalars data !! k) = true) ∧
  (∃ body, createInvoice_body data = Some body ∧
           length (rows body) = length (items data)) ∧
  (∃ body, updateInvoice_body data = Some body ∧
           length (rows body) = length (items data)).
Proof.
  unfold isFormValid. intros H.
  destruct (truthy (scalars data !! "invoice_number"%string)) eqn:Hn;
    [|by destruct (truthy (scalars data !! "client_id"%string))].
  destruct (truthy (scalars data !! "issue_date"%string)) eqn:Hi;
    [|by destruct (truthy (scalars data !! "client_id"%string))].
  destruct (truthy (scalars data !! "due_date"%string)) eqn:Hdue;
    [|by destruct (truthy (scalars data !! "client_id"%string))].
  destruct (Nat.ltb_spec 0 (length (items data))) as [Hlen|];
    [|by destruct (truthy (scalars data !! "client_id"%string))].
  cbn [andb] in H.
  destruct (every item_ok (items data)) as [[]|] eqn:He;
    [| by destruct (truthy (scalars data !! "client_id"%string)) | done].
  apply every_true in He.
  assert (Forall row_ok (items data)) as Hrows.
  { eapply Forall_impl; [exact He|]. intros [| |item]; try done.
    apply item_ok_row. }
  assert (Forall (λ s, s ≠ Undefined) (items data)) as Hdef.
  { eapply Forall_impl; [exact Hrows|]. by intros []. }
  split.
  { intros k Hk. repeat (apply elem_of_cons in Hk as [->|Hk]; [done|]).
    by apply elem_of_nil in Hk. }
  split; [intros Hnil; rewrite Hnil in Hlen; simpl in Hlen; lia|].
  split; [done|]. split.
  { cbn [mbind option_bind] in H.
    destruct (truthy (scalars data !! "client_id"%string)); [by left|right].
    injection H as H. cbn [andb] in H.
    apply andb_true_iff in H as [H Hph]. apply andb_true_iff in H as [H Had].
    apply andb_true_iff in H as [Hna Hem].
    intros k Hk. repeat (apply elem_of_cons in Hk as [->|Hk]; [done|]).
    by apply elem_of_nil in Hk. }
  split.
  - unfold createInvoice_body.
    destruct (map_items_defined
                (λ item, mkItem None (description item) (quantity item)
                                (unit_price item) None) _ Hdef) as (r & -> & Hr).
    eexists. split; [reflexivity|done].
  - unfold updateInvoice_body.
    destruct (map_items_defined
                (λ item, mkItem (Form.id item) (description item) (quantity item)
                                (unit_price item) None) _ Hdef) as (r & -> & Hr).
    eexists. split; [reflexivity|done].
Qed.

Lemma valid_form_is_sendable_witness :
  (∀ k, k ∈ ["invoice_number"; "issue_date"; "due_date"]%string →
        truthy (scalars filled_in !! k) = true) ∧
  items filled_in ≠ [] ∧ Forall row_ok (items filled_in) ∧
  (truthy (scalars filled_in !! "client_id"%string) = true ∨
   ∀ k, k ∈ ["client_name"; "client_email"; "client_address"; "client_phone"]%string →
        truthy (scalars filled_in !! k) = true) ∧
  (∃ body, createInvoice_body filled_in = Some body ∧
           length (rows body) = length (items filled_in)) ∧
  (∃ body, updateInvoice_body filled_in = Some body ∧
           length (rows body) = length (items filled_in)).
Proof. apply (valid_form_is_sendable filled_in). vm_compute. reflexivity. Defined.

Lemma every_new_row p arr x :
  p x = false →
  every p (arr ++ [Item x]) = Some false ∨ every p (arr ++ [Item x]) = None.
Proof.
  intros Hx. induction arr as [|s arr IH]; simpl.
  - rewrite Hx. by left.
  - destruct s as [| |item]; [done|by right|]. by destruct (p item); [|left].
Qed.

(** X21. A new row blocks saving. Right after [addItem] the form is not
    valid, whatever it held before: the new row has an empty description,
    so [isFormValid] answers false (or throws on an [undefined] element
    met earlier). The initial form of [CreateInvoicePage] is not valid
    either. *)
Theorem new_row_is_not_valid data number issue due :
  (isFormValid (addItem data) = Some false ∨ isFormValid (addItem data) = None) ∧
  isFormValid (initialInvoiceData number issue due) = Some false.
Proof.
  split.
  - unfold isFormValid, addItem. cbn [scalars items].
    destruct (truthy (scalars data !! "invoice_number"%string)
              && truthy (scalars data !! "issue_date"%string)
              && truthy (scalars data !! "due_date"%string)
              && Nat.ltb 0 (length (spread_array (items data) ++ [Item blank_item]))).
    + destruct (every_new_row item_ok (spread_array (items data)) blank_item eq_refl)
        as [-> | ->]; [left|by right].
      cbn [mbind option_bind andb].
      by destruct (truthy (scalars data !! "client_id"%string)).
    + left. cbn [mbind option_bind andb].
      by destruct (truthy (scalars data !! "client_id"%string)).
  - unfold isFormValid, initialInvoiceData. cbn [scalars items].
    assert (every item_ok [Item blank_item] = Some false) as -> by reflexivity.
    match goal with
    | |- context [if ?c then Some false else Some false] => destruct c
    end; cbn [mbind option_bind andb];
      match goal with |- context [if ?c then _ else _] => by destruct c end.
Qed.

Lemma valid_defined data :
  isFormValid data = Some true → Forall (λ s, s ≠ Undefined) (items data).
Proof.
  unfold isFormValid. intros H.
  destruct (every item_ok (items data)) as [[]|] eqn:He.
  - apply every_true in He. eapply Forall_impl; [exact He|]. by intros [].
  - exfalso.
    match type of H with
    | context [if ?c then Some false else Some false] => destruct c
    end; cbn [mbind option_bind andb] in H;
      by destruct (truthy (scalars data !! "client_id"%string)).
  - exfalso.
    match type of H with
    | context [if ?c then None else Some false] => destruct c
    end; [done|].
    cbn [mbind option_bind andb] in H.
    by destruct (truthy (scalars data !! "client_id"%string)).
Qed.

Lemma with_client_other data base k :
  k ∉ ["client_id"; "client_name"; "client_email"; "client_address";
       "client_phone"]%string →
  with_client data base !! k = base !! k.
Proof.
  intros Hk. unfold with_client.
  destruct (truthy (scalars data !! "client_id"%string)).
  - rewrite lookup_put. case_decide as E; [|done].
    subst. exfalso. apply Hk. set_solver.
  - rewrite !lookup_put.
    repeat (case_decide as E; [subst; exfalso; apply Hk; set_solver|clear E]).
    done.
Qed.

Lemma lookup_put_ne k k' v (m : gmap string Value) :
  k ≠ k' → put k v m !! k' = m !! k'.
Proof. intros Hne. rewrite lookup_put. by case_decide. Qed.

Lemma status_not_client :
  "status"%string ∉ ["client_id"; "client_name"; "client_email"; "client_address";
                     "client_phone"]%string.
Proof.
  intros Hin. repeat (apply elem_of_cons in Hin as [Hin|Hin]; [discriminate Hin|]).
  by apply elem_of_nil in Hin.
Qed.

Lemma createInvoice_body_status data body :
  createInvoice_body data = Some body → fields body !! "status"%string = None.
Proof.
  unfold createInvoice_body. intros H.
  destruct (map_items _ (items data)) as [r|]; [|done]. injection H as <-.
  cbn [fields]. rewrite with_client_other by apply status_not_client.
  repeat first [rewrite lookup_put_ne by done | rewrite lookup_insert_ne by done].
  apply lookup_empty.
Qed.

Lemma updateInvoice_body_status data body :
  updateInvoice_body data = Some body →
  fields body !! "status"%string
  = Some (or_else (scalars data !! "status"%string) (VStr "DRAFT")).
Proof.
  unfold updateInvoice_body. intros H.
  destruct (map_items _ (items data)) as [r|]; [|done]. injection H as <-.
  cbn [fields]. rewrite with_client_other by apply status_not_client.
  apply lookup_insert_eq.
Qed.

Lemma sent_ending (l : list PageEffect) :
  Forall (λ e, match e with Send _ => False | _ => True end) l → sent l = [].
Proof.
  unfold sent. induction 1 as [|e l He _ IH]; [done|].
  destruct e; simpl; by rewrite ?IH.
Qed.

(** X22. Save as draft. For a form [isFormValid] accepts, the handler
    sends exactly one request, first of all it does. With a route
    parameter it is the [PUT] of that invoice and its body carries the
    status DRAFT, whatever status the form held; without one it is the
    [POST], and its body carries no status at all. The page moves to
    [/invoices] exactly when the request succeeds; when it fails the only
    other effect is the error toast. *)
Theorem save_as_draft parseInt id data response :
  isFormValid data = Some true →
  ∃ r ending,
    handleSaveAsDraft parseInt id data response = Some (Send r :: ending) ∧
    sent ending = [] ∧
    (NavigateTo "/invoices" ∈ ending ↔ ∃ u, response = Returned u) ∧
    (response = Returned tt ∨ ending = [Toast false "Failed to save invoice"]) ∧
    match edited id with
    | Some i =>
        ∃ body, r = Put (parseInt i) body ∧
                fields body !! "status"%string = Some (VStr "DRAFT") ∧
                length (rows body) = length (items data)
    | None =>
        ∃ body, r = Post body ∧ fields body !! "status"%string = None ∧
                length (rows body) = length (items data)
    end.
Proof.
  intros Hvalid. pose proof (valid_defined _ Hvalid) as Hdef.
  unfold handleSaveAsDraft. rewrite Hvalid. cbn [mbind option_bind negb].
  assert (∀ request message,
    ∃ ending,
      match response with
      | Returned _ => Some [Send request; Toast true message; NavigateTo "/invoices"]
      | Threw _ => Some [Send request; Toast false "Failed to save invoice"]
      end = Some (Send request :: ending) ∧
      sent ending = [] ∧
      (NavigateTo "/invoices" ∈ ending ↔ ∃ u, response = Returned u) ∧
      (response = Returned tt ∨ ending = [Toast false "Failed to save invoice"]))
    as Hend.
  { intros request message. destruct response as [[]|e].
    - eexists. split; [reflexivity|]. split; [done|]. split; [|by left].
      split; [by exists tt|]. intros _. set_solver.
    - eexists. split; [reflexivity|]. split; [done|]. split; [|by right].
      split; [|by intros [u Hu]].
      intros Hin. apply elem_of_cons in Hin as [Hin|Hin]; [done|].
      by apply elem_of_nil in Hin. }
  destruct (edited id) as [i|].
  - destruct (map_items_defined
                (λ item, mkItem (Form.id item) (description item) (quantity item)
                                (unit_price item) None) (items (as_draft data)) Hdef)
      as (r & Hr & Hlen).
    destruct (updateInvoice_body (as_draft data)) as [body|] eqn:Hbody;
      [|unfold updateInvoice_body in Hbody; rewrite Hr in Hbody; done].
    cbn [mbind option_bind].
    destruct (Hend (Put (parseInt i) body) "Invoice updated successfully!"%string)
      as (ending & -> & Hsent & Hnav & Hfail).
    exists (Put (parseInt i) body), ending. repeat split; try done; try apply Hnav.
    exists body. split; [done|].
    split.
    + rewrite (updateInvoice_body_status _ _ Hbody).
      unfold as_draft. cbn [scalars]. by rewrite lookup_insert_eq.
    + unfold updateInvoice_body in Hbody. rewrite Hr in Hbody.
      injection Hbody as <-. done.
  - destruct (map_items_defined
                (λ item, mkItem None (description item) (quantity item)
                                (unit_price item) None) (items (as_draft data)) Hdef)
      as (r & Hr & Hlen).
    destruct (createInvoice_body (as_draft data)) as [body|] eqn:Hbody;
      [|unfold createInvoice_body in Hbody; rewrite Hr in Hbody; done].
    cbn [mbind option_bind].
    destruct (Hend (Post body) "Invoice created successfully!"%string)
      as (ending & -> & Hsent & Hnav & Hfail).
    exists (Post body), ending. repeat split; try done; try apply Hnav.
    exists body. split; [done|].
    split.
    + exact (createInvoice_body_status _ _ Hbody).
    + unfold createInvoice_body in Hbody. rewrite Hr in Hbody.
      injection Hbody as <-. done.
Qed.

Lemma save_as_draft_witness :
  ∃ r ending,
    handleSaveAsDraft (λ _, 12%float) (Some "12"%string) filled_in (Returned tt)
    = Some (Send r :: ending) ∧
    sent ending = [] ∧
    (NavigateTo "/invoices" ∈ ending ↔ ∃ u, Returned (A := unit) tt = Returned u) ∧
    (Returned (A := unit) tt = Returned tt
     ∨ ending = [Toast false "Failed to save invoice"]) ∧
    ∃ body, r = Put 12%float body ∧
            fields body !! "status"%string = Some (VStr "DRAFT") ∧
            length (rows body) = length (items filled_in).
Proof.
  apply (save_as_draft (λ _, 12%float) (Some "12"%string) filled_in (Returned tt)).
  vm_compute. reflexivity.
Defined.

Lemma map_items_fmap f arr rows :
  map_items f arr = Some rows →
  rows = (λ s, match s with Item item => Item (f item) | _ => s end) <$> arr.
Proof.
  revert rows. induction arr as [|s arr IH]; intros rows; simpl.
  - by intros [= <-].
  - destruct s as [| |item]; [|done|];
      (destruct (map_items f arr) as [r|]; [|done]);
      intros [= <-]; by rewrite (IH r eq_refl).
Qed.

Lemma with_client_chosen data base :
  (∀ k, k ∈ ["client_id"; "client_name"; "client_email"; "client_address";
             "client_phone"]%string → base !! k = None) →
  if truthy (scalars data !! "client_id"%string) then
    with_client data base !! "client_id"%string = scalars data !! "client_id"%string ∧
    ∀ k, k ∈ ["client_name"; "client_email"; "client_address"; "client_phone"]%string →
         with_client data base !! k = None
  else
    with_client data base !! "client_id"%string = None ∧
    with_client data base !! "client_name"%string = scalars data !! "client_name"%string ∧
    ∀ k, k ∈ ["client_email"; "client_address"; "client_phone"]%string →
         is_Some (with_client data base !! k).
Proof.
  intros Hbase. unfold with_client.
  destruct (truthy (scalars data !! "client_id"%string)) eqn:Hid.
  - split.
    + rewrite lookup_put. case_decide; [|done].
      destruct (scalars data !! "client_id"%string); [done|discriminate Hid].
    + intros k Hk. rewrite lookup_put_ne.
      * apply Hbase. by apply list_elem_of_further.
      * intros <-.
        repeat (apply elem_of_cons in Hk as [Hk|Hk]; [discriminate Hk|]).
        by apply elem_of_nil in Hk.
  - split; [|split].
    + rewrite !lookup_put_ne by done. apply Hbase, list_elem_of_here.
    + rewrite !lookup_put_ne by done. rewrite lookup_put.
      case_decide; [|done]. destruct (scalars data !! "client_name"%string) eqn:E; [done|].
      apply Hbase. set_solver.
    + intros k Hk.
      apply elem_of_cons in Hk as [->|Hk].
      { rewrite !lookup_put_ne by done. rewrite lookup_put. by case_decide. }
      apply elem_of_cons in Hk as [->|Hk].
      { rewrite !lookup_put_ne by done. rewrite lookup_put. by case_decide. }
      apply elem_of_cons in Hk as [->|Hk]; [|by apply elem_of_nil in Hk].
      rewrite lookup_put. by case_decide.
Qed.

(** X23. What a request body carries. The body of [createInvoice] and
    the body of [updateInvoice] never carry an item's [total]. Either
    body names its client one way only: when the form holds a client id,
    the id and none of the four manual fields; otherwise no id, the name
    as the form holds it, and e-mail, address and phone always present. *)
Theorem body_names_one_client data body :
  createInvoice_body data = Some body ∨ updateInvoice_body data = Some body →
  Forall (λ s, ∀ item, s = Item item → total item = None) (rows body) ∧
  if truthy (scalars data !! "client_id"%string) then
    fields body !! "client_id"%string = scalars data !! "client_id"%string ∧
    ∀ k, k ∈ ["client_name"; "client_email"; "client_address"; "client_phone"]%string →
         fields body !! k = None
  else
    fields body !! "client_id"%string = None ∧
    fields body !! "client_name"%string = scalars data !! "client_name"%string ∧
    ∀ k, k ∈ ["client_email"; "client_address"; "client_phone"]%string →
         is_Some (fields body !! k).
Proof.
  assert (∀ f (arr r : list Slot),
            (∀ x, total (f x) = None) → map_items f arr = Some r →
            Forall (λ s, ∀ item, s = Item item → total item = None) r) as Htotal.
  { intros f arr r Hf Hr. rewrite (map_items_fmap _ _ _ Hr).
    apply Forall_fmap, Forall_forall. intros [| |x] _ item; simpl; try done.
    intros [= <-]. apply Hf. }
  intros [H|H].
  - unfold createInvoice_body in H.
    destruct (map_items _ (items data)) as [r|] eqn:Hr; [|done].
    injection H as <-. cbn [rows fields].
    split; [by eapply Htotal; [|exact Hr]|].
    apply with_client_chosen. intros k Hk.
    repeat (apply elem_of_cons in Hk as [->|Hk];
            [repeat first [rewrite lookup_put_ne by done
                          | rewrite lookup_insert_ne by done];
             apply lookup_empty|]).
    by apply elem_of_nil in Hk.
  - unfold updateInvoice_body in H.
    destruct (map_items _ (items data)) as [r|] eqn:Hr; [|done].
    injection H as <-. cbn [rows fields].
    split; [by eapply Htotal; [|exact Hr]|].
    apply with_client_chosen. intros k Hk.
    repeat (apply elem_of_cons in Hk as [->|Hk];
            [repeat first [rewrite lookup_put_ne by done
                          | rewrite lookup_insert_ne by done];
             apply lookup_empty|]).
    by apply elem_of_nil in Hk.
Qed.

Lemma body_names_one_client_witness :
  ∃ body,
    createInvoice_body filled_in = Some body ∧
    Forall (λ s, ∀ item, s = Item item → total item = None) (rows body) ∧
    fields body !! "client_id"%string = Some (VNum 7) ∧
    fields body !! "client_name"%string = None.
Proof.
  destruct (createInvoice_body filled_in) as [body|] eqn:E;
    [|vm_compute in E; discriminate].
  exists body. split; [done|].
  destruct (body_names_one_client filled_in body (or_introl E)) as (Ht & Hc).
  change (truthy (scalars filled_in !! "client_id"%string)) with true in Hc.
  destruct Hc as [Hc Hn]. split; [exact Ht|]. split.
  - rewrite Hc. reflexivity.
  - apply Hn, list_elem_of_here.
Defined.

End InvoicesFacts.

(** * Properties of the provider and the routes *)

Module AppFacts.
Import Api App.

Lemma isAuthenticated_token p :
  isAuthenticated p = true →
  (∃ u, user p = Some u) ∧
  ∃ token, localStorage (api p) !! "access_token" = Some token ∧ token ≠ "".
Proof.
  unfold isAuthenticated. destruct (user p) as [u|]; [|done].
  unfold Api.isAuthenticated, getItem, gets, mbind, M_bind, mret, M_ret. cbn.
  destruct (localStorage (api p) !! "access_token") as [token|]; [|done].
  simpl. intros H. split; [by exists u|]. exists token. split; [done|].
  intros ->. done.
Qed.

(** X24. No redirect loop. Whatever the provider's state, a route that
    renders a [<Navigate>] sends to a route that does not: [/login] and
    [/register] send an authenticated visitor to [/dashboard], the
    protected routes send an unauthenticated one to [/login], and the
    target renders a page, protected exactly for the authenticated
    visitor, or the spinner while the provider is loading. *)
Theorem redirect_lands r r' p :
  element r p = Navigate r' →
  (isLoading p = true ∧ isAuthenticated p = true ∧ element r' p = Spinner) ∨
  ∃ page, element r' p = Render page ∧
          (open_page page = false ↔ isAuthenticated p = true).
Proof.
  destruct (isLoading p) eqn:Hl; destruct (isAuthenticated p) eqn:Ha;
    destruct r; simpl; unfold ProtectedRoute; rewrite ?Hl, ?Ha; try done;
    intros [= <-]; simpl; unfold ProtectedRoute; rewrite ?Hl, ?Ha;
    first [by left | right; by eexists].
Qed.

Lemma redirect_lands_witness :
  (isLoading (visitor refreshing) = true ∧
   isAuthenticated (visitor refreshing) = true ∧
   element Login (visitor refreshing) = Spinner) ∨
  ∃ page, element Login (visitor refreshing) = Render page ∧
          (open_page page = false ↔ isAuthenticated (visitor refreshing) = true).
Proof. apply (redirect_lands Settings). reflexivity. Defined.

(** X25. A protected page needs a session. A route renders a page
    other than the home, login and register pages only when the provider
    has finished loading, holds a user, and [localStorage] holds a
    non-empty access token. *)
Theorem protected_page_needs_session r p page :
  element r p = Render page → open_page page = false →
  isLoading p = false ∧ (∃ u, user p = Some u) ∧
  ∃ token, localStorage (api p) !! "access_token" = Some token ∧ token ≠ "".
Proof.
  intros He Hpage.
  assert (isLoading p = false ∧ isAuthenticated p = true) as [Hl Ha].
  { destruct r; simpl in He; unfold ProtectedRoute in He;
      destruct (isLoading p); destruct (isAuthenticated p);
      try done; injection He as <-; done. }
  split; [done|]. by apply isAuthenticated_token.
Qed.

Lemma protected_page_needs_session_witness :
  isLoading (member ada refreshing) = false ∧
  (∃ u, user (member ada refreshing) = Some u) ∧
  ∃ token, localStorage (api (member ada refreshing)) !! "access_token" = Some token ∧
           token ≠ "".
Proof.
  apply (protected_page_needs_session Dashboard (member ada refreshing) DashboardPage).
  - vm_compute. reflexivity.
  - reflexivity.
Defined.

Lemma exec_logout_tokens a :
  localStorage (exec Api.logout a) !! "access_token" = None ∧
  localStorage (exec Api.logout a) !! "refresh_token" = None.
Proof.
  unfold Api.logout, exec, removeItem, gets, write_localStorage, emit, modify,
    mbind, M_bind. cbn.
  rewrite lookup_delete_ne, !lookup_delete_eq by done. done.
Qed.

Lemma signed_out_elements p :
  localStorage (api p) !! "access_token" = None →
  isAuthenticated p = false ∧
  element Login p = Render LoginPage ∧
  ∀ r page, element r p = Render page → open_page page = true.
Proof.
  intros Htoken.
  assert (isAuthenticated p = false) as Ha.
  { unfold isAuthenticated. destruct (user p); [|done].
    unfold Api.isAuthenticated, getItem, gets, mbind, M_bind, mret, M_ret. cbn.
    by rewrite Htoken. }
  split; [done|]. split; [simpl; by rewrite Ha|].
  intros r page. destruct r; simpl; unfold ProtectedRoute; rewrite ?Ha;
    destruct (isLoading p); try done; by intros [= <-].
Qed.

(** X26. Signing out. After [logout], after a [deactivateAccount] whose
    call succeeded, and after an [initializeAuth] whose [getCurrentUser]
    failed, both tokens are gone from [localStorage], the context is not
    authenticated, [/login] renders the login page, and no route renders
    a protected page. *)
Theorem signing_out p p' :
  p' = logout p
  ∨ (∃ call a, call (api p) = (Auth.Returned tt, a) ∧ p' = fst (deactivateAccount call p))
  ∨ (∃ call e a, fst (Api.isAuthenticated (api p)) = true ∧
                 call (api p) = (Auth.Threw e, a) ∧ p' = initializeAuth call p) →
  localStorage (api p') !! "access_token" = None ∧
  localStorage (api p') !! "refresh_token" = None ∧
  isAuthenticated p' = false ∧
  element Login p' = Render LoginPage ∧
  ∀ r page, element r p' = Render page → open_page page = true.
Proof.
  intros H.
  assert (∃ a, api p' = exec Api.logout a) as [a Ha].
  { destruct H as [-> | [(call & a & Hcall & ->) | (call & e & a & Hauth & Hcall & ->)]].
    - by eexists.
    - unfold deactivateAccount. rewrite Hcall. by eexists.
    - unfold initializeAuth. rewrite Hauth, Hcall. by eexists. }
  destruct (exec_logout_tokens a) as [Hat Hrt]. rewrite <- Ha in Hat, Hrt.
  split; [done|]. split; [done|]. by apply signed_out_elements.
Qed.

Lemma signing_out_witness :
  localStorage (api (logout (mounted refreshing))) !! "access_token" = None ∧
  localStorage (api (logout (mounted refreshing))) !! "refresh_token" = None ∧
  isAuthenticated (logout (mounted refreshing)) = false ∧
  element Login (logout (mounted refreshing)) = Render LoginPage ∧
  ∀ r page, element r (logout (mounted refreshing)) = Render page → open_page page = true.
Proof. apply (signing_out (mounted refreshing)). by left. Defined.

End AppFacts.

(** * Properties of the login page *)

Module LoginPageFacts.
Import Api Auth AuthFacts LoginPage.

Lemma login_outcome signIn getCurrentUser st :
  snd (login signIn getCurrentUser st)
  = match login_failure signIn getCurrentUser with
    | None => Returned tt
    | Some error =>
        match is_deactivated error with
        | Returned true => Threw (NewError "ACCOUNT_DEACTIVATED")
        | Returned false => Threw error
        | Threw raised => Threw raised
        end
    end.
Proof.
  unfold login, login_try, login_failure.
  destruct signIn as [tokens|e]; [destruct getCurrentUser as [u|e]|]; try done;
    by destruct (is_deactivated e) as [[]|].
Qed.

(** X27. What the login page shows. When [login] succeeds the page goes
    to [/dashboard] and shows the success toast. When it fails the page
    shows one error toast and does not navigate: for a 403 whose body has
    [data.can_restore = true], the deactivated-account notice, kept open
    for 8000 ms; for a 403 whose body is [null], the message of the
    [TypeError] that [login] throws there; for any other [Error] (an
    axios error for wrong credentials included) the error's own message;
    the text "Invalid credentials" only when what was thrown is no
    [Error]. A message equal to the marker ACCOUNT_DEACTIVATED is set
    aside: the page shows the notice for it. *)
Theorem login_notice axios_message engine_message signIn getCurrentUser st :
  match login_failure signIn getCurrentUser with
  | None =>
      snd (onSubmit axios_message engine_message signIn getCurrentUser st)
      = [NavigateTo "/dashboard"; ToastSuccess "Login successful!"]
  | Some error =>
      ∃ text autoClose,
        snd (onSubmit axios_message engine_message signIn getCurrentUser st)
        = [ToastError text autoClose] ∧
        (deactivated_response error →
         text = deactivated_notice ∧ autoClose = Some 8000) ∧
        (null_body_403 error → engine_message ≠ "ACCOUNT_DEACTIVATED" →
         text = engine_message ∧ autoClose = None) ∧
        (¬ deactivated_response error → ¬ null_body_403 error →
         message axios_message engine_message error ≠ Some "ACCOUNT_DEACTIVATED" →
         autoClose = None ∧
         match message axios_message engine_message error with
         | Some m => text = m
         | None => text = "Invalid credentials"
         end)
  end.
Proof.
  pose proof (login_outcome signIn getCurrentUser st) as Hout.
  unfold onSubmit.
  destruct (login signIn getCurrentUser st) as [st' result]. simpl in Hout.
  destruct (login_failure signIn getCurrentUser) as [error|]; [|by subst].
  destruct (is_deactivated error) as [[]|raised] eqn:Hd; subst result; cbn [snd].
  - apply is_deactivated_spec in Hd.
    exists deactivated_notice, (Some 8000). split.
    + unfold onSubmit_catch. cbn [instanceof_Error message andb].
      by rewrite bool_decide_eq_true_2.
    + split; [done|]. split; [|by intros Hn].
      intros (e & r & -> & Hr & _ & Hb).
      destruct Hd as (e' & r' & errorData & payload & [= <-] & Hr' & _ & Hb' & _).
      congruence.
  - assert (¬ deactivated_response error) as Hn.
    { intros H. apply is_deactivated_spec in H. congruence. }
    assert (¬ null_body_403 error) as Hnull.
    { intros H.
      assert (is_deactivated error = Threw TypeErr) by (by apply is_deactivated_throws).
      congruence. }
    unfold onSubmit_catch.
    destruct (instanceof_Error error
              && bool_decide (message axios_message engine_message error
                              = Some "ACCOUNT_DEACTIVATED")) eqn:Hm.
    + exists deactivated_notice, (Some 8000). split; [done|]. split; [done|].
      split; [done|].
      intros _ _ Hne. apply andb_true_iff in Hm as [_ Hm].
      by apply bool_decide_eq_true_1 in Hm.
    + eexists _, None. split; [done|]. split; [done|]. split; [done|].
      intros _ _ _. split; [done|]. by destruct error.
  - apply is_deactivated_throws in Hd as [Hnull ->].
    assert (¬ deactivated_response error) as Hn.
    { intros (e' & r' & errorData & payload & -> & Hr' & _ & Hb' & _).
      destruct Hnull as (e & r & [= <-] & Hr & _ & Hb). congruence. }
    unfold onSubmit_catch. cbn [instanceof_Error message andb].
    destruct (bool_decide (Some engine_message = Some "ACCOUNT_DEACTIVATED")) eqn:Hm.
    + exists deactivated_notice, (Some 8000). split; [done|]. split; [done|].
      split; [|done].
      intros _ Hne. apply bool_decide_eq_true_1 in Hm. congruence.
    + exists engine_message, None. split; [done|]. split; [done|]. split; done.
Qed.

Lemma login_notice_witness :
  ∃ text autoClose,
    snd (onSubmit (λ _, "Request failed with status code 403")
           "Cannot read properties of null (reading 'data')"
           (Threw (AxiosErr refused_with_null)) (Threw TypeErr)
           {| user := None; storage := ∅ |})
    = [ToastError text autoClose] ∧
    text = "Cannot read properties of null (reading 'data')" ∧ autoClose = None.
Proof.
  destruct (login_notice (λ _, "Request failed with status code 403")
              "Cannot read properties of null (reading 'data')"
              (Threw (AxiosErr refused_with_null)) (Threw TypeErr)
              {| user := None; storage := ∅ |})
    as (text & autoClose & Heq & _ & Hnull & _).
  exists text, autoClose. split; [exact Heq|].
  apply Hnull; [|done]. by exists refused_with_null, {| status := 403; body := None |}.
Defined.

End LoginPageFacts.
